(** * variable-streams: bit-level streams over byte buffers

    A shallow embedding of the Python package [variable_streams]
    (bit_value.py, bit_stream.py, bit_stream_reader.py, bit_stream_writer.py)
    and the properties of its specification.

    Python integers are [Z]; [&], [|], [~], [<<], [>>] are [Z.land], [Z.lor],
    [Z.lnot], [Z.shiftl], [Z.shiftr] (both sides use the infinite
    two's-complement reading of negative numbers); [//] and [%] by a positive
    divisor are [Z.div] and [Z.modulo] (floor semantics on both sides).
    A [bytearray] is a [list Z]; reading or writing an item goes through
    [bytearray_getitem] / [bytearray_setitem], which reproduce the negative
    index wrap-around, [IndexError] and the 0..255 range check of Python.
    Objects are mutated in place by the source, so every method takes the
    object state and gives it back, also when it raises. *)

From Stdlib Require Import ZArith List Bool Lia.
From stdpp Require Import base list.
Import ListNotations.

Local Open Scope Z_scope.

(** ** Exceptions and outcomes *)

Inductive exn : Set :=
| InvalidBitCountError
| EndOfStreamError
| ValueError
| IndexError.

(** What a method call leaves behind: the returned value or the exception
    raised, and in both cases the state of the object at that moment. *)
Inductive outcome (S A : Type) : Type :=
| Return (a : A) (s : S)
| Raise (e : exn) (s : S).

Arguments Return {S A} a s.
Arguments Raise {S A} e s.

(** ** bytearray *)

(** Python resolves an index [i] against a sequence of length [len]:
    [0 <= i < len] is taken as it is, [-len <= i < 0] counts from the end,
    anything else is an [IndexError] ([None]). *)
Definition py_index (len i : Z) : option nat :=
  if (0 <=? i) && (i <? len) then Some (Z.to_nat i)
  else if (- len <=? i) && (i <? 0) then Some (Z.to_nat (len + i))
  else None.

Definition bytearray_getitem (b : list Z) (i : Z) : option Z :=
  match py_index (Z.of_nat (length b)) i with
  | Some k => b !! k
  | None => None
  end.

(** [b[i] = x]: the index is resolved first, then [x] must be a byte. *)
Definition bytearray_setitem (b : list Z) (i x : Z) : exn + list Z :=
  match py_index (Z.of_nat (length b)) i with
  | None => inl IndexError
  | Some k => if (0 <=? x) && (x <? 256) then inr (<[k:=x]> b) else inl ValueError
  end.

(** [b.extend([0] * k)]; a negative [k] gives the empty list in Python. *)
Definition bytearray_extend_zeros (b : list Z) (k : Z) : list Z :=
  b ++ replicate (Z.to_nat k) 0.

(** What one pass through the body of a [while] loop does. *)
Inductive iteration (S A : Type) : Type :=
| Next (a : A) (s : S)
| Break (s : S)
| Throw (e : exn) (s : S).

Arguments Next {S A} a s.
Arguments Break {S A} s.
Arguments Throw {S A} e s.

(** The object a call leaves behind, whichever way it ended. *)
Definition outcome_state {S A : Type} (o : outcome S A) : S :=
  match o with
  | Return _ s => s
  | Raise _ s => s
  end.

(** The integer a byte sequence spells with its first byte least
    significant. Of each item the low eight bits count; the items of a
    [bytes] or [bytearray] object have no others. *)
Fixpoint le_value (l : list Z) : Z :=
  match l with
  | [] => 0
  | b :: rest => Z.lor (Z.land b 255) (Z.shiftl (le_value rest) 8)
  end.

(** ** bit_value.py *)

Module BitValue.

Record t : Type := mk {
  _value : Z;
  _bit_count : Z;
  _is_signed : bool
}.

(** [int.bit_length()]: the number of bits of the absolute value. *)
Definition int_bit_length (v : Z) : Z :=
  if v =? 0 then 0 else Z.log2 (Z.abs v) + 1.

(** [BitValue(value, bit_count)] for an integer [value]. The tag
    [_is_signed] is computed from the sign of [value]; the constructor
    has no parameter for it. *)
Definition init (value : Z) (bit_count : option Z) : exn + t :=
  let is_signed := value <? 0 in
  let bit_count :=
    match bit_count with
    | Some n => n
    | None => if is_signed then int_bit_length value + 1
              else Z.max 1 (int_bit_length value)
    end in
  if (bit_count <=? 0) || (bit_count >? 128) then inl InvalidBitCountError
  else if is_signed then
    let min_value := - Z.shiftl 1 (bit_count - 1) in
    let max_value := Z.shiftl 1 (bit_count - 1) - 1 in
    if (value <? min_value) || (value >? max_value) then inl ValueError
    else inr (mk value bit_count is_signed)
  else
    let max_value := Z.shiftl 1 bit_count - 1 in
    if (value <? 0) || (value >? max_value) then inl ValueError
    else inr (mk value bit_count is_signed).

(** [BitValue(other)]: the copy constructor. *)
Definition copy (other : t) : t :=
  mk (_value other) (_bit_count other) (_is_signed other).

Definition bit_count (v : t) : Z := _bit_count v.
Definition is_signed (v : t) : bool := _is_signed v.
Definition to_int (v : t) : Z := _value v.

End BitValue.

(** ** bit_stream.py *)

Module BitStream.

Record t : Type := mk {
  _buffer : list Z;
  _byte_pos : Z;
  _bit_pos : Z;
  _bit_length : Z
}.

Definition with_buffer (s : t) (b : list Z) : t :=
  mk b (_byte_pos s) (_bit_pos s) (_bit_length s).
Definition with_cursor (s : t) (byte_pos bit_pos : Z) : t :=
  mk (_buffer s) byte_pos bit_pos (_bit_length s).
Definition with_bit_length (s : t) (n : Z) : t :=
  mk (_buffer s) (_byte_pos s) (_bit_pos s) n.

Definition len_buffer (s : t) : Z := Z.of_nat (length (_buffer s)).

(** [__init__(data)]: [None] is the empty stream. *)
Definition init (data : option (list Z)) : t :=
  let buffer := match data with Some d => d | None => [] end in
  mk buffer 0 0 (Z.of_nat (length buffer) * 8).

Definition position (s : t) : Z := _byte_pos s * 8 + _bit_pos s.

Definition set_position (s : t) (position : Z) : outcome t unit :=
  if position >? _bit_length s then Raise EndOfStreamError s
  else Return tt (with_cursor s (position / 8) (position mod 8)).

Definition length (s : t) : Z := _bit_length s.
Definition is_empty (s : t) : bool := _bit_length s =? 0.
Definition is_eof (s : t) : bool := position s >=? _bit_length s.
Definition reset (s : t) : t := with_cursor s 0 0.

(** The cursor update that ends both loop bodies. *)
Definition advance (s : t) (bits : Z) : t :=
  let bit_pos := _bit_pos s + bits in
  if bit_pos =? 8 then with_cursor s (_byte_pos s + 1) 0
  else with_cursor s (_byte_pos s) bit_pos.

(** Body of the [while bits_read < bit_count] loop of [read_bits]; the
    loop variables are [(result, bits_read)]. *)
Definition read_body (bit_count : Z) (acc : Z * Z) (s : t) : iteration t (Z * Z) :=
  let '(result, bits_read) := acc in
  if _byte_pos s >=? len_buffer s then
    if bits_read =? 0 then Throw EndOfStreamError s else Break s
  else
    match bytearray_getitem (_buffer s) (_byte_pos s) with
    | None => Throw IndexError s
    | Some current_byte =>
      let bits_left_in_byte := 8 - _bit_pos s in
      let bits_to_read := Z.min (bit_count - bits_read) bits_left_in_byte in
      if bits_to_read <? 0 then Throw ValueError s (* negative shift count *)
      else
        let mask := Z.shiftl 1 bits_to_read - 1 in
        let shift := bits_left_in_byte - bits_to_read in
        let extracted_bits := Z.land (Z.shiftr current_byte shift) mask in
        let result :=
          Z.lor result (Z.shiftl extracted_bits (bit_count - bits_read - bits_to_read)) in
        Next (result, bits_read + bits_to_read) (advance s bits_to_read)
    end.

(** The loop itself. Every pass over a cursor with [0 <= _bit_pos < 8]
    consumes at least one bit, so [bit_count] passes are enough
    ([read_loop_spec] below); [None] is a loop cut short by [fuel]. *)
Fixpoint read_loop (fuel : nat) (bit_count : Z) (acc : Z * Z) (s : t)
  : option (outcome t (Z * Z)) :=
  if snd acc <? bit_count then
    match fuel with
    | O => None
    | S fuel' =>
      match read_body bit_count acc s with
      | Next acc' s' => read_loop fuel' bit_count acc' s'
      | Break s' => Some (Return acc s')
      | Throw e s' => Some (Raise e s')
      end
    end
  else Some (Return acc s).

Definition read_bits (s : t) (bit_count : Z) : option (outcome t Z) :=
  if (bit_count <=? 0) || (bit_count >? 64) then Some (Raise InvalidBitCountError s)
  else if position s + bit_count >? _bit_length s then Some (Raise EndOfStreamError s)
  else
    match read_loop (Z.to_nat bit_count) bit_count (0, 0) s with
    | Some (Return (result, _) s') => Some (Return result s')
    | Some (Raise e s') => Some (Raise e s')
    | None => None
    end.

Definition read_bits_u128 (s : t) (bit_count : Z) : option (outcome t Z) :=
  if (bit_count <=? 0) || (bit_count >? 128) then Some (Raise InvalidBitCountError s)
  else if bit_count <=? 64 then read_bits s bit_count
  else if position s + bit_count >? _bit_length s then Some (Raise EndOfStreamError s)
  else
    let high_bits := bit_count - 64 in
    match read_bits s high_bits with
    | Some (Return high_value s1) =>
      match read_bits s1 64 with
      | Some (Return low_value s2) =>
        Some (Return (Z.lor (Z.shiftl high_value 64) low_value) s2)
      | r => r
      end
    | r => r
    end.

(** The tail shared by the two branches of [read_bit_value]: the sign
    reinterpretation, then [BitValue(value, bit_count)]. *)
Definition as_bit_value (value bit_count : Z) (is_signed : bool) (s : t)
  : outcome t BitValue.t :=
  let value :=
    if is_signed && negb (Z.land value (Z.shiftl 1 (bit_count - 1)) =? 0)
    then value - Z.shiftl 1 bit_count
    else value in
  match BitValue.init value (Some bit_count) with
  | inl e => Raise e s
  | inr bv => Return bv s
  end.

Definition read_bit_value (s : t) (bit_count : Z) (is_signed : bool)
  : option (outcome t BitValue.t) :=
  if bit_count <=? 64 then
    match read_bits s bit_count with
    | Some (Return value s') => Some (as_bit_value value bit_count is_signed s')
    | Some (Raise e s') => Some (Raise e s')
    | None => None
    end
  else
    match read_bits_u128 s bit_count with
    | Some (Return value s') => Some (as_bit_value value bit_count is_signed s')
    | Some (Raise e s') => Some (Raise e s')
    | None => None
    end.

(** Body of the [while bits_written < bit_count] loop of [write_bits];
    the loop variable is [bits_written]. The two augmented assignments
    [buffer[i] &= ...] and [buffer[i] |= ...] each read the item and
    store it back. *)
Definition write_body (value bit_count bits_written : Z) (s : t) : iteration t Z :=
  let bits_left_in_byte := 8 - _bit_pos s in
  let bits_to_write := Z.min (bit_count - bits_written) bits_left_in_byte in
  if bits_to_write <? 0 then Throw ValueError s (* negative shift count *)
  else
    let shift := bit_count - bits_written - bits_to_write in
    let mask := Z.shiftl (Z.shiftl 1 bits_to_write - 1) shift in
    let extracted_bits := Z.shiftr (Z.land value mask) shift in
    let byte_shift := bits_left_in_byte - bits_to_write in
    let byte_mask :=
      Z.land (Z.lnot (Z.shiftl (Z.shiftl 1 bits_to_write - 1) byte_shift)) 255 in
    match bytearray_getitem (_buffer s) (_byte_pos s) with
    | None => Throw IndexError s
    | Some b0 =>
      match bytearray_setitem (_buffer s) (_byte_pos s) (Z.land b0 byte_mask) with
      | inl e => Throw e s
      | inr buf1 =>
        match bytearray_getitem buf1 (_byte_pos s) with
        | None => Throw IndexError (with_buffer s buf1)
        | Some b1 =>
          match bytearray_setitem buf1 (_byte_pos s)
                  (Z.lor b1 (Z.shiftl extracted_bits byte_shift)) with
          | inl e => Throw e (with_buffer s buf1)
          | inr buf2 =>
            Next (bits_written + bits_to_write)
                 (advance (with_buffer s buf2) bits_to_write)
          end
        end
      end
    end.

Fixpoint write_loop (fuel : nat) (value bit_count bits_written : Z) (s : t)
  : option (outcome t unit) :=
  if bits_written <? bit_count then
    match fuel with
    | O => None
    | S fuel' =>
      match write_body value bit_count bits_written s with
      | Next bits_written' s' => write_loop fuel' value bit_count bits_written' s'
      | Break s' => Some (Return tt s')
      | Throw e s' => Some (Raise e s')
      end
    end
  else Some (Return tt s).

Definition write_bits (s : t) (value bit_count : Z) : option (outcome t unit) :=
  if (bit_count <=? 0) || (bit_count >? 64) then Some (Raise InvalidBitCountError s)
  else
    let required_bytes := (position s + bit_count + 7) / 8 in
    let s0 :=
      if required_bytes >? len_buffer s
      then with_buffer s (bytearray_extend_zeros (_buffer s) (required_bytes - len_buffer s))
      else s in
    match write_loop (Z.to_nat bit_count) value bit_count 0 s0 with
    | Some (Return _ s1) =>
      let new_position := position s1 in
      Some (Return tt (if new_position >? _bit_length s1
                       then with_bit_length s1 new_position else s1))
    | r => r
    end.

Definition write_bits_u128 (s : t) (value bit_count : Z) : option (outcome t unit) :=
  if (bit_count <=? 0) || (bit_count >? 128) then Some (Raise InvalidBitCountError s)
  else if bit_count <=? 64 then write_bits s value bit_count
  else
    let high_bits := bit_count - 64 in
    let high_value := Z.shiftr value 64 in
    let low_value := Z.land value (Z.shiftl 1 64 - 1) in
    match write_bits s high_value high_bits with
    | Some (Return _ s1) => write_bits s1 low_value 64
    | r => r
    end.

Definition write_bit_value (s : t) (value : BitValue.t) (bit_count : option Z)
  : option (outcome t unit) :=
  let bit_count :=
    match bit_count with Some n => n | None => BitValue.bit_count value end in
  if bit_count <=? 64 then write_bits s (BitValue.to_int value) bit_count
  else write_bits_u128 s (BitValue.to_int value) bit_count.

Definition to_bytes (s : t) : list Z := _buffer s.

Definition from_bytes (s : t) (data : list Z) : t :=
  mk data 0 0 (Z.of_nat (Datatypes.length data) * 8).

(** A sequence of [read_bits(width)] calls, stopped by the first
    exception. *)
Fixpoint read_all (s : t) (widths : list Z) : option (outcome t (list Z)) :=
  match widths with
  | [] => Some (Return [] s)
  | width :: rest =>
    match read_bits s width with
    | Some (Return v s') =>
      match read_all s' rest with
      | Some (Return vs s'') => Some (Return (v :: vs) s'')
      | x => x
      end
    | Some (Raise e s') => Some (Raise e s')
    | None => None
    end
  end.

(** The bit at offset [q] of the bit string held by a buffer: the first
    bit of a byte is its most significant one. *)
Definition bit_at (b : list Z) (q : Z) : bool :=
  match b !! Z.to_nat (q / 8) with
  | Some byte => Z.testbit byte (7 - q mod 8)
  | None => false
  end.

(** A cursor as the data model has it: a byte index and a bit index
    within the byte. *)
Definition cursor_ok (s : t) : Prop :=
  0 <= _byte_pos s /\ 0 <= _bit_pos s < 8.

(** The invariant of the data model, with the range of the bit index and
    the sign of the length that keep it. *)
Definition invariant (s : t) : Prop :=
  0 <= _bit_pos s < 8 /\
  0 <= _bit_length s <= 8 * len_buffer s /\
  position s <= _bit_length s.

(** The states a caller can bring a stream into: construction or
    [from_bytes], then calls that return without an exception. *)
Inductive reachable : t -> Prop :=
| reach_init data : reachable (init data)
| reach_from_bytes s data : reachable s -> reachable (from_bytes s data)
| reach_read_bits s n v s' :
    reachable s -> read_bits s n = Some (Return v s') -> reachable s'
| reach_read_bits_u128 s n v s' :
    reachable s -> read_bits_u128 s n = Some (Return v s') -> reachable s'
| reach_write_bits s value n s' :
    reachable s -> write_bits s value n = Some (Return tt s') -> reachable s'
| reach_write_bits_u128 s value n s' :
    reachable s -> write_bits_u128 s value n = Some (Return tt s') -> reachable s'
| reach_set_position s p s' :
    reachable s -> set_position s p = Return tt s' -> reachable s'
| reach_reset s : reachable s -> reachable (reset s).

End BitStream.

(** ** The external byte source and sink *)

(** [io.BytesIO] as the byte source of a reader: its content and its
    read position. [read(k)] gives up to [k] bytes and moves on;
    [seek(d, SEEK_CUR)] moves the position by [d]. *)
Module BytesIO.

Record t : Type := mk {
  content : list Z;
  pos : Z
}.

Definition read (f : t) (k : Z) : list Z * t :=
  let out := take (Z.to_nat k) (drop (Z.to_nat (pos f)) (content f)) in
  (out, mk (content f) (pos f + Z.of_nat (length out))).

Definition seek_cur (f : t) (d : Z) : t := mk (content f) (pos f + d).

Definition remaining (f : t) : Z :=
  Z.of_nat (length (drop (Z.to_nat (pos f)) (content f))).

End BytesIO.

(** ** bit_stream_reader.py *)

Module BitStreamReader.

Record t : Type := mk {
  _stream : BytesIO.t;
  _buffer : list Z;
  _byte_pos : Z;
  _bit_pos : Z;
  _buffer_size : Z;
  _eof : bool
}.

Definition default_buffer_size : Z := 4096.

Definition init (stream : BytesIO.t) (buffer_size : Z) : t :=
  mk stream (replicate (Z.to_nat buffer_size) 0) 0 0 0 false.

Definition with_cursor (r : t) (byte_pos bit_pos : Z) : t :=
  mk (_stream r) (_buffer r) byte_pos bit_pos (_buffer_size r) (_eof r).
Definition with_eof (r : t) (eof : bool) : t :=
  mk (_stream r) (_buffer r) (_byte_pos r) (_bit_pos r) (_buffer_size r) eof.
Definition with_stream (r : t) (f : BytesIO.t) : t :=
  mk f (_buffer r) (_byte_pos r) (_bit_pos r) (_buffer_size r) (_eof r).

(** [is_eof()]. The probe reads one byte and seeks back; on [BytesIO]
    neither call raises, so the [except] branch is not taken. The
    method returns the answer and the reader it leaves behind. *)
Definition is_eof (r : t) : bool * t :=
  if negb (_eof r) then (false, r)
  else if _byte_pos r >=? _buffer_size r then (true, r)
  else if (_byte_pos r =? _buffer_size r - 1) && (_bit_pos r =? 8) then (true, r)
  else
    let f0 := BytesIO.seek_cur (_stream r) 0 in
    let '(probe, f1) := BytesIO.read f0 1 in
    match probe with
    | [] =>
      let r' := with_eof (with_stream r f1) true in
      (_byte_pos r' >=? _buffer_size r', r')
    | _ :: _ => (false, with_stream r (BytesIO.seek_cur f1 (-1)))
    end.

Definition _fill_buffer (r : t) : t :=
  let '(bytes_read, f) := BytesIO.read (_stream r) (Z.of_nat (length (_buffer r))) in
  match bytes_read with
  | [] => mk f (_buffer r) 0 0 0 true
  | _ :: _ =>
    let n := length bytes_read in
    mk f (bytes_read ++ drop n (_buffer r)) 0 0 (Z.of_nat n) (_eof r)
  end.

Definition advance (r : t) (bits : Z) : t :=
  let bit_pos := _bit_pos r + bits in
  if bit_pos =? 8 then with_cursor r (_byte_pos r + 1) 0
  else with_cursor r (_byte_pos r) bit_pos.

(** The part of the loop body after the refill: take bits from the
    current byte, least significant first. *)
Definition take_bits (bit_count : Z) (acc : Z * Z) (r : t) : iteration t (Z * Z) :=
  let '(result, bits_read) := acc in
  match bytearray_getitem (_buffer r) (_byte_pos r) with
  | None => Throw IndexError r
  | Some current_byte =>
    let bits_left_in_byte := 8 - _bit_pos r in
    let bits_to_read := Z.min (bit_count - bits_read) bits_left_in_byte in
    let shift := _bit_pos r in
    if (bits_to_read <? 0) || (shift <? 0) then Throw ValueError r (* negative shift count *)
    else
      let mask := Z.shiftl 1 bits_to_read - 1 in
      let extracted_bits := Z.land (Z.shiftr current_byte shift) mask in
      let result := Z.lor result (Z.shiftl extracted_bits bits_read) in
      Next (result, bits_read + bits_to_read) (advance r bits_to_read)
  end.

(** Body of the [while bits_read < bit_count] loop of [read_bits]. *)
Definition read_body (bit_count : Z) (acc : Z * Z) (r : t) : iteration t (Z * Z) :=
  if _byte_pos r >=? _buffer_size r then
    if _eof r then
      if snd acc =? 0 then Throw EndOfStreamError r else Break r
    else
      let r1 := _fill_buffer r in
      if _buffer_size r1 =? 0 then
        let r2 := with_eof r1 true in
        if snd acc =? 0 then Throw EndOfStreamError r2 else Break r2
      else take_bits bit_count acc r1
  else take_bits bit_count acc r.

(** The loop; it gives back both loop variables, [(result, bits_read)],
    so that a short read can be told from a full one. *)
Fixpoint read_loop (fuel : nat) (bit_count : Z) (acc : Z * Z) (r : t)
  : option (outcome t (Z * Z)) :=
  if snd acc <? bit_count then
    match fuel with
    | O => None
    | S fuel' =>
      match read_body bit_count acc r with
      | Next acc' r' => read_loop fuel' bit_count acc' r'
      | Break r' => Some (Return acc r')
      | Throw e r' => Some (Raise e r')
      end
    end
  else Some (Return acc r).

(** [read_bits] up to its [return result]: the loop with its variables. *)
Definition read_bits_counted (r : t) (bit_count : Z) : option (outcome t (Z * Z)) :=
  if (bit_count <=? 0) || (bit_count >? 64) then Some (Raise InvalidBitCountError r)
  else read_loop (Z.to_nat bit_count) bit_count (0, 0) r.

Definition read_bits (r : t) (bit_count : Z) : option (outcome t Z) :=
  match read_bits_counted r bit_count with
  | Some (Return (result, _) r') => Some (Return result r')
  | Some (Raise e r') => Some (Raise e r')
  | None => None
  end.

Definition read_bits_u128 (r : t) (bit_count : Z) : option (outcome t Z) :=
  if (bit_count <=? 0) || (bit_count >? 128) then Some (Raise InvalidBitCountError r)
  else if bit_count <=? 64 then read_bits r bit_count
  else
    match read_bits r 64 with
    | Some (Return low_value r1) =>
      let high_bits := bit_count - 64 in
      match read_bits r1 high_bits with
      | Some (Return high_value r2) =>
        Some (Return (Z.lor (Z.shiftl high_value 64) low_value) r2)
      | x => x
      end
    | x => x
    end.

(** A sequence of [read_bits_u128(width)] calls (which for widths up to
    64 are [read_bits] calls), stopped by the first exception. *)
Fixpoint read_all (r : t) (widths : list Z) : option (outcome t (list Z)) :=
  match widths with
  | [] => Some (Return [] r)
  | width :: rest =>
    match read_bits_u128 r width with
    | Some (Return v r') =>
      match read_all r' rest with
      | Some (Return vs r'') => Some (Return (v :: vs) r'')
      | x => x
      end
    | Some (Raise e r') => Some (Raise e r')
    | None => None
    end
  end.

(** Bits not yet consumed: those left in the internal buffer plus those
    the source still holds. *)
Definition buffered_bits (r : t) : Z :=
  if _byte_pos r >=? _buffer_size r then 0
  else 8 * (_buffer_size r - _byte_pos r) - _bit_pos r.

Definition available_bits (r : t) : Z :=
  buffered_bits r + 8 * BytesIO.remaining (_stream r).

(** The states of a reader between two calls. *)
Definition well_formed (r : t) : Prop :=
  0 <= _byte_pos r <= _buffer_size r /\
  0 <= _bit_pos r < 8 /\
  _buffer_size r <= Z.of_nat (length (_buffer r)) /\
  0 < Z.of_nat (length (_buffer r)) /\
  0 <= BytesIO.pos (_stream r) /\
  (_eof r = true -> available_bits r = 0).

(** The tail shared by the two branches of [read_bit_value]. *)
Definition as_bit_value (value bit_count : Z) (is_signed : bool) (r : t)
  : outcome t BitValue.t :=
  let value :=
    if is_signed && negb (Z.land value (Z.shiftl 1 (bit_count - 1)) =? 0)
    then value - Z.shiftl 1 bit_count
    else value in
  match BitValue.init value (Some bit_count) with
  | inl e => Raise e r
  | inr bv => Return bv r
  end.

Definition read_bit_value (r : t) (bit_count : Z) (is_signed : bool)
  : option (outcome t BitValue.t) :=
  if bit_count <=? 64 then
    match read_bits r bit_count with
    | Some (Return value r') => Some (as_bit_value value bit_count is_signed r')
    | Some (Raise e r') => Some (Raise e r')
    | None => None
    end
  else
    match read_bits_u128 r bit_count with
    | Some (Return value r') => Some (as_bit_value value bit_count is_signed r')
    | Some (Raise e r') => Some (Raise e r')
    | None => None
    end.

(** The bytes not yet used up: the rest of the filled part of the buffer,
    then the bytes the source still holds. *)
Definition pending (r : t) : list Z :=
  drop (Z.to_nat (_byte_pos r)) (take (Z.to_nat (_buffer_size r)) (_buffer r))
  ++ drop (Z.to_nat (BytesIO.pos (_stream r))) (BytesIO.content (_stream r)).

(** The bits not yet read, as one integer, next bit least significant.
    With the buffer drained the next read refills it and starts at bit 0
    of the first byte, whatever [_bit_pos] holds. *)
Definition unread_value (r : t) : Z :=
  if _byte_pos r >=? _buffer_size r then le_value (pending r)
  else Z.shiftr (le_value (pending r)) (_bit_pos r).

(** The readers a caller can have: one made over a source with a buffer
    of at least one byte, then any calls, whether they return or raise. *)
Inductive reachable : t -> Prop :=
| reach_init f buffer_size :
    0 <= BytesIO.pos f -> 0 < buffer_size -> reachable (init f buffer_size)
| reach_read_bits r n o :
    reachable r -> read_bits r n = Some o -> reachable (outcome_state o)
| reach_read_bits_u128 r n o :
    reachable r -> read_bits_u128 r n = Some o -> reachable (outcome_state o)
| reach_read_bit_value r n is_signed o :
    reachable r -> read_bit_value r n is_signed = Some o ->
    reachable (outcome_state o)
| reach_is_eof r : reachable r -> reachable (snd (is_eof r)).

End BitStreamReader.

(** ** bit_stream_writer.py *)

Module BitStreamWriter.

(** [_stream] is the sink: the bytes delivered to it so far, in order. *)
Record t : Type := mk {
  _stream : list Z;
  _buffer : list Z;
  _byte_pos : Z;
  _bit_pos : Z;
  _buffer_size : Z
}.

Definition default_buffer_size : Z := 4096.

Definition init (stream : list Z) (buffer_size : Z) : t :=
  mk stream (replicate (Z.to_nat buffer_size) 0) 0 0 buffer_size.

Definition with_buffer (w : t) (b : list Z) : t :=
  mk (_stream w) b (_byte_pos w) (_bit_pos w) (_buffer_size w).
Definition with_cursor (w : t) (byte_pos bit_pos : Z) : t :=
  mk (_stream w) (_buffer w) byte_pos bit_pos (_buffer_size w).

Definition _flush_buffer (w : t) : outcome t unit :=
  if _byte_pos w >? 0 then
    let w1 := mk (_stream w ++ take (Z.to_nat (_byte_pos w)) (_buffer w))
                 (_buffer w) 0 (_bit_pos w) (_buffer_size w) in
    match bytearray_setitem (_buffer w1) 0 0 with
    | inl e => Raise e w1
    | inr b => Return tt (with_buffer w1 b)
    end
  else Return tt w.

(** [flush()]; flushing the sink itself changes nothing here. *)
Definition flush (w : t) : outcome t unit :=
  let w1 := if _bit_pos w >? 0 then with_cursor w (_byte_pos w + 1) 0 else w in
  _flush_buffer w1.

(** Body of the [while bits_written < bit_count] loop of [write_bits]. *)
Definition write_body (value bit_count bits_written : Z) (w : t) : iteration t Z :=
  let bits_left_in_byte := 8 - _bit_pos w in
  let bits_to_write := Z.min (bit_count - bits_written) bits_left_in_byte in
  let shift := bits_written in
  if (bits_to_write <? 0) || (shift <? 0) then Throw ValueError w (* negative shift count *)
  else
    let mask := Z.shiftl (Z.shiftl 1 bits_to_write - 1) shift in
    let extracted_bits := Z.shiftr (Z.land value mask) shift in
    let byte_shift := bits_left_in_byte - bits_to_write in
    let byte_mask :=
      Z.land (Z.lnot (Z.shiftl (Z.shiftl 1 bits_to_write - 1) byte_shift)) 255 in
    match bytearray_getitem (_buffer w) (_byte_pos w) with
    | None => Throw IndexError w
    | Some b0 =>
      match bytearray_setitem (_buffer w) (_byte_pos w) (Z.land b0 byte_mask) with
      | inl e => Throw e w
      | inr buf1 =>
        match bytearray_getitem buf1 (_byte_pos w) with
        | None => Throw IndexError (with_buffer w buf1)
        | Some b1 =>
          match bytearray_setitem buf1 (_byte_pos w)
                  (Z.lor b1 (Z.shiftl extracted_bits byte_shift)) with
          | inl e => Throw e (with_buffer w buf1)
          | inr buf2 =>
            let w2 := with_buffer w buf2 in
            let bit_pos := _bit_pos w2 + bits_to_write in
            if bit_pos =? 8 then
              let w3 := with_cursor w2 (_byte_pos w2 + 1) 0 in
              if _byte_pos w3 >=? _buffer_size w3 then
                match _flush_buffer w3 with
                | Return _ w4 => Next (bits_written + bits_to_write) w4
                | Raise e w4 => Throw e w4
                end
              else Next (bits_written + bits_to_write) w3
            else Next (bits_written + bits_to_write) (with_cursor w2 (_byte_pos w2) bit_pos)
          end
        end
      end
    end.

Fixpoint write_loop (fuel : nat) (value bit_count bits_written : Z) (w : t)
  : option (outcome t unit) :=
  if bits_written <? bit_count then
    match fuel with
    | O => None
    | S fuel' =>
      match write_body value bit_count bits_written w with
      | Next bits_written' w' => write_loop fuel' value bit_count bits_written' w'
      | Break w' => Some (Return tt w')
      | Throw e w' => Some (Raise e w')
      end
    end
  else Some (Return tt w).

Definition write_bits (w : t) (value bit_count : Z) : option (outcome t unit) :=
  if (bit_count <=? 0) || (bit_count >? 64) then Some (Raise InvalidBitCountError w)
  else
    match (if _byte_pos w >=? _buffer_size w then _flush_buffer w else Return tt w) with
    | Raise e w0 => Some (Raise e w0)
    | Return _ w0 => write_loop (Z.to_nat bit_count) value bit_count 0 w0
    end.

Definition write_bits_u128 (w : t) (value bit_count : Z) : option (outcome t unit) :=
  if (bit_count <=? 0) || (bit_count >? 128) then Some (Raise InvalidBitCountError w)
  else if bit_count <=? 64 then write_bits w value bit_count
  else
    let low_value := Z.land value (Z.shiftl 1 64 - 1) in
    let high_bits := bit_count - 64 in
    let high_value := Z.shiftr value 64 in
    match write_bits w low_value 64 with
    | Some (Return _ w1) => write_bits w1 high_value high_bits
    | x => x
    end.

(** A sequence of [write_bits_u128(value, width)] calls (which for
    widths up to 64 are [write_bits] calls), stopped by the first
    exception. *)
Fixpoint write_all (w : t) (items : list (Z * Z)) : option (outcome t unit) :=
  match items with
  | [] => Some (Return tt w)
  | (value, width) :: rest =>
    match write_bits_u128 w value width with
    | Some (Return _ w') => write_all w' rest
    | x => x
    end
  end.

Definition write_bit_value (w : t) (value : BitValue.t) (bit_count : option Z)
  : option (outcome t unit) :=
  let bit_count :=
    match bit_count with Some n => n | None => BitValue.bit_count value end in
  if bit_count <=? 64 then write_bits w (BitValue.to_int value) bit_count
  else write_bits_u128 w (BitValue.to_int value) bit_count.

(** The writers between two calls: the byte cursor inside the buffer, the
    bit cursor inside the byte, the buffer of the size it was made with. *)
Definition well_formed (w : t) : Prop :=
  0 <= _byte_pos w < _buffer_size w /\
  0 <= _bit_pos w < 8 /\
  Z.of_nat (length (_buffer w)) = _buffer_size w.

(** The bits taken so far: eight for every byte delivered to the sink or
    complete in the buffer, and those of the byte under way. *)
Definition bits_taken (w : t) : Z :=
  8 * (Z.of_nat (length (_stream w)) + _byte_pos w) + _bit_pos w.

(** The complete bytes so far: those delivered, then those in the
    buffer. *)
Definition complete_bytes (w : t) : list Z :=
  _stream w ++ take (Z.to_nat (_byte_pos w)) (_buffer w).

(** The bytes a value of [n] bits spells, least significant byte first
    (what [value.to_bytes(n // 8, 'little')] gives for the low [n] bits). *)
Fixpoint le_bytes_of (value : Z) (count : nat) : list Z :=
  match count with
  | O => []
  | S count' => Z.land value 255 :: le_bytes_of (Z.shiftr value 8) count'
  end.

Definition le_bytes (value n : Z) : list Z := le_bytes_of value (Z.to_nat (n / 8)).

End BitStreamWriter.


(** ** A writer and a reader over the same bytes *)

(** Write the [(value, width)] pairs, [flush()], then read the widths back
    from the bytes the sink received. *)
Definition write_then_read (buffer_size : Z) (items : list (Z * Z)) : option (list Z) :=
  match BitStreamWriter.write_all (BitStreamWriter.init [] buffer_size) items with
  | Some (Return _ w) =>
    match BitStreamWriter.flush w with
    | Return _ w' =>
      let source := BytesIO.mk (BitStreamWriter._stream w') 0 in
      match BitStreamReader.read_all (BitStreamReader.init source buffer_size)
                                     (map snd items) with
      | Some (Return vs _) => Some vs
      | _ => None
      end
    | Raise _ _ => None
    end
  | _ => None
  end.

(** The bytes in the sink after the writes and one [flush()]. *)
Definition written_bytes (buffer_size : Z) (items : list (Z * Z)) : option (list Z) :=
  match BitStreamWriter.write_all (BitStreamWriter.init [] buffer_size) items with
  | Some (Return _ w) =>
    match BitStreamWriter.flush w with
    | Return _ w' => Some (BitStreamWriter._stream w')
    | Raise _ _ => None
    end
  | _ => None
  end.

(** The byte one pass of a write loop stores: the old byte with the target
    bits replaced by the chunk of [value] ([write_body] computes it in two
    augmented assignments). *)
Definition stored_byte (old value shift byte_shift k : Z) : Z :=
  Z.lor (Z.land old (Z.land (Z.lnot (Z.shiftl (Z.shiftl 1 k - 1) byte_shift)) 255))
        (Z.shiftl (Z.shiftr (Z.land value (Z.shiftl (Z.shiftl 1 k - 1) shift)) shift)
                  byte_shift).

(** * Properties *)

(** ** Concrete runs *)

(** C3: over the bytes [0xA5, 0x5A] the reads of 1, 3, 4 and 8 bits give
    1, 2, 5 and 0x5A, and one more bit is an [EndOfStreamError]. *)
Theorem C3_read_scenario :
  exists s4,
    BitStream.read_all (BitStream.init (Some [165; 90])) [1; 3; 4; 8]
      = Some (Return [1; 2; 5; 90] s4) /\
    BitStream.read_bits s4 1 = Some (Raise EndOfStreamError s4).
Proof.
  eexists. split; vm_compute; reflexivity.
Qed.

(** C1: one bit of value 1 written through the writer (default buffer
    size) and flushed reaches the sink as the byte 0x80; the reader over
    that byte reads 0 for the same width, so the pair does not round-trip. *)
Theorem C1_single_bit_not_round_tripped :
  written_bytes BitStreamWriter.default_buffer_size [(1, 1)] = Some [128] /\
  write_then_read BitStreamWriter.default_buffer_size [(1, 1)] = Some [0].
Proof.
  split; vm_compute; reflexivity.
Qed.

(** C6: after the eight bits of the one-byte source [0xFF] were read, the
    source is exhausted and no buffered bit is left, yet [is_eof()]
    answers false: the exhaustion flag is not set and the method returns
    before its probe. *)
Theorem C6_is_eof_false_after_last_bit :
  exists r',
    BitStreamReader.read_bits
      (BitStreamReader.init (BytesIO.mk [255] 0) BitStreamReader.default_buffer_size) 8
      = Some (Return 255 r') /\
    BitStreamReader.available_bits r' = 0 /\
    fst (BitStreamReader.is_eof r') = false.
Proof.
  eexists. split; [vm_compute; reflexivity|]. split; vm_compute; reflexivity.
Qed.

(** C7: with a two-byte internal buffer, sixteen 1-bits, eight 0-bits and
    one more 0-bit are written and flushed. The last byte delivered is
    0x7F: only its first bit was written, the other seven still hold what
    the previous pass through the buffer left there. *)
Theorem C7_stale_bits_in_last_byte :
  written_bytes 2 [(65535, 16); (0, 8); (0, 1)] = Some [255; 255; 0; 127].
Proof.
  vm_compute. reflexivity.
Qed.

(** [_flush_buffer()] leaves the byte cursor at the start and the bit
    cursor where it was. *)
Lemma flush_buffer_cursor (w w1 : BitStreamWriter.t) :
  BitStreamWriter._flush_buffer w = Return tt w1 ->
  BitStreamWriter._byte_pos w1 <= 0 /\
  BitStreamWriter._bit_pos w1 = BitStreamWriter._bit_pos w.
Proof.
  unfold BitStreamWriter._flush_buffer.
  destruct (BitStreamWriter._byte_pos w >? 0) eqn:Hy.
  - simpl. destruct (bytearray_setitem _ 0 0); intros H; inversion H; subst.
    simpl. lia.
  - intros H; inversion H; subst. lia.
Qed.

(** A second [flush()] right after the first delivers nothing more: it
    returns the writer, sink included, as the first one left it. *)
Lemma flush_twice (w w1 : BitStreamWriter.t) :
  BitStreamWriter.flush w = Return tt w1 ->
  BitStreamWriter.flush w1 = Return tt w1.
Proof.
  unfold BitStreamWriter.flush at 1. intros H.
  apply flush_buffer_cursor in H as [Hy Hb].
  assert (Hbit : BitStreamWriter._bit_pos w1 <= 0).
  { rewrite Hb. destruct (BitStreamWriter._bit_pos w >? 0) eqn:E; simpl; lia. }
  unfold BitStreamWriter.flush, BitStreamWriter._flush_buffer.
  replace (BitStreamWriter._bit_pos w1 >? 0) with false by lia.
  replace (BitStreamWriter._byte_pos w1 >? 0) with false by lia.
  reflexivity.
Qed.

(** ** Bits of masks and chunks *)

Section Bits.

Lemma ones_testbit (k i : Z) :
  0 <= k -> 0 <= i -> Z.testbit (Z.shiftl 1 k - 1) i = (i <? k).
Proof.
  intros Hk Hi. change (Z.shiftl 1 k - 1) with (Z.ones k).
  apply Z.testbit_ones_nonneg; lia.
Qed.

Lemma byte_mask_testbit (i : Z) : 0 <= i -> Z.testbit 255 i = (i <? 8).
Proof.
  intros Hi. change 255 with (Z.ones 8). apply Z.testbit_ones_nonneg; lia.
Qed.

(** A number all of whose bits from [n] on are clear lies in [0, 2^n). *)
Lemma bounded_by_bits (x n : Z) :
  0 <= n -> (forall i, n <= i -> Z.testbit x i = false) -> 0 <= x < 2 ^ n.
Proof.
  intros Hn Hhigh.
  assert (Hx : x = x mod 2 ^ n).
  { apply Z.bits_inj'. intros i Hi. rewrite Z.testbit_mod_pow2 by lia.
    destruct (Z.ltb_spec i n); simpl; [reflexivity | apply Hhigh; lia]. }
  rewrite Hx. apply Z.mod_pos_bound. apply Z.pow_pos_nonneg; lia.
Qed.

Lemma bits_above (x n i : Z) :
  0 <= x < 2 ^ n -> n <= i -> Z.testbit x i = false.
Proof.
  intros [H0 Hlt] Hi.
  destruct (Z.eq_dec x 0) as [-> | Hne]; [apply Z.bits_0 |].
  apply Z.bits_above_log2; [lia |].
  assert (Z.log2 x < n) by (apply Z.log2_lt_pow2; lia). lia.
Qed.

Lemma lor_bounded (a b n : Z) :
  0 <= n -> 0 <= a < 2 ^ n -> 0 <= b < 2 ^ n -> 0 <= Z.lor a b < 2 ^ n.
Proof.
  intros Hn Ha Hb. apply bounded_by_bits; [lia |].
  intros i Hi. rewrite Z.lor_spec, (bits_above a n), (bits_above b n) by lia.
  reflexivity.
Qed.

(** The chunk a read takes out of a byte. *)
Lemma extracted_testbit (byte shift k j : Z) :
  0 <= shift -> 0 <= k -> 0 <= j ->
  Z.testbit (Z.land (Z.shiftr byte shift) (Z.shiftl 1 k - 1)) j
  = Z.testbit byte (j + shift) && (j <? k).
Proof.
  intros Hs Hk Hj.
  rewrite Z.land_spec, Z.shiftr_spec, ones_testbit by lia. reflexivity.
Qed.

Lemma extracted_bounded (byte shift k : Z) :
  0 <= k -> 0 <= Z.land (Z.shiftr byte shift) (Z.shiftl 1 k - 1) < 2 ^ k.
Proof.
  intros Hk. change (Z.shiftl 1 k - 1) with (Z.ones k).
  rewrite Z.land_ones by lia. apply Z.mod_pos_bound. apply Z.pow_pos_nonneg; lia.
Qed.

(** The chunk a write cuts out of the value. *)
Lemma chunk_testbit (value shift k j : Z) :
  0 <= shift -> 0 <= k -> 0 <= j ->
  Z.testbit (Z.shiftr (Z.land value (Z.shiftl (Z.shiftl 1 k - 1) shift)) shift) j
  = Z.testbit value (j + shift) && (j <? k).
Proof.
  intros Hs Hk Hj.
  rewrite Z.shiftr_spec, Z.land_spec, Z.shiftl_spec by lia.
  replace (j + shift - shift) with j by lia.
  rewrite ones_testbit by lia. reflexivity.
Qed.

Lemma stored_byte_testbit (old value shift byte_shift k j : Z) :
  0 <= shift -> 0 <= byte_shift -> 0 <= k -> 0 <= j ->
  Z.testbit (stored_byte old value shift byte_shift k) j
  = if (byte_shift <=? j) && (j <? byte_shift + k)
    then Z.testbit value (j - byte_shift + shift)
    else Z.testbit old j && (j <? 8).
Proof.
  intros Hs Hb Hk Hj. unfold stored_byte.
  rewrite Z.lor_spec, !Z.land_spec, Z.lnot_spec, !Z.shiftl_spec by lia.
  rewrite byte_mask_testbit by lia.
  destruct (Z.leb_spec byte_shift j) as [Hle | Hgt]; simpl.
  - rewrite chunk_testbit, ones_testbit by lia.
    replace (j - byte_shift <? k) with (j <? byte_shift + k) by lia.
    destruct (j <? byte_shift + k); simpl.
    + rewrite andb_false_r, andb_true_r. reflexivity.
    + rewrite andb_false_r, orb_false_r. reflexivity.
  - rewrite !(Z.testbit_neg_r _ (j - byte_shift)) by lia. simpl.
    rewrite orb_false_r. reflexivity.
Qed.

Lemma stored_byte_range (old value shift byte_shift k : Z) :
  0 <= shift -> 0 <= byte_shift -> 0 <= k -> byte_shift + k <= 8 ->
  0 <= stored_byte old value shift byte_shift k < 256.
Proof.
  intros Hs Hb Hk H8. change 256 with (2 ^ 8). apply bounded_by_bits; [lia |].
  intros i Hi. rewrite stored_byte_testbit by lia.
  replace ((byte_shift <=? i) && (i <? byte_shift + k)) with false by lia.
  replace (i <? 8) with false by lia. apply andb_false_r.
Qed.

Lemma masked_byte_range (old m : Z) : 0 <= Z.land old (Z.land m 255) < 256.
Proof.
  change 256 with (2 ^ 8). apply bounded_by_bits; [lia |].
  intros i Hi. rewrite !Z.land_spec, byte_mask_testbit by lia.
  replace (i <? 8) with false by lia. rewrite !andb_false_r. reflexivity.
Qed.

End Bits.

(** ** bytearray items at an index inside the array *)

Section Bytearray.

Lemma py_index_in_range (len i : Z) :
  0 <= i < len -> py_index len i = Some (Z.to_nat i).
Proof.
  intros H. unfold py_index.
  replace ((0 <=? i) && (i <? len)) with true by lia. reflexivity.
Qed.

Lemma getitem_in_range (b : list Z) (i : Z) :
  0 <= i < Z.of_nat (length b) -> bytearray_getitem b i = b !! Z.to_nat i.
Proof.
  intros H. unfold bytearray_getitem. rewrite py_index_in_range by lia. reflexivity.
Qed.

Lemma setitem_in_range (b : list Z) (i x : Z) :
  0 <= i < Z.of_nat (length b) -> 0 <= x < 256 ->
  bytearray_setitem b i x = inr (<[Z.to_nat i := x]> b).
Proof.
  intros H Hx. unfold bytearray_setitem. rewrite py_index_in_range by lia.
  replace ((0 <=? x) && (x <? 256)) with true by lia. reflexivity.
Qed.

Lemma setitem_length (b b' : list Z) (i x : Z) :
  bytearray_setitem b i x = inr b' -> length b' = length b.
Proof.
  unfold bytearray_setitem. destruct (py_index _ i); [| discriminate].
  destruct ((0 <=? x) && (x <? 256)); [| discriminate].
  intros H; inversion H; subst. apply length_insert.
Qed.

Lemma lookup_in_range (b : list Z) (i : Z) :
  0 <= i < Z.of_nat (length b) -> exists x, b !! Z.to_nat i = Some x.
Proof.
  intros H. apply lookup_lt_is_Some. lia.
Qed.

End Bytearray.

(** ** The two loops of the in-memory stream *)

Section BitStreamLoops.

Local Abbreviation byte_pos := BitStream._byte_pos.
Local Abbreviation bit_pos := BitStream._bit_pos.
Local Abbreviation buffer := BitStream._buffer.
Local Abbreviation bit_length := BitStream._bit_length.
Local Abbreviation position := BitStream.position.
Local Abbreviation len_buffer := BitStream.len_buffer.

Lemma advance_fields (s : BitStream.t) (k : Z) :
  buffer (BitStream.advance s k) = buffer s /\
  bit_length (BitStream.advance s k) = bit_length s /\
  position (BitStream.advance s k) = position s + k.
Proof.
  unfold BitStream.advance, BitStream.position.
  destruct (Z.eqb_spec (bit_pos s + k) 8); simpl;
    repeat split; try reflexivity; lia.
Qed.

Lemma advance_bit_pos (s : BitStream.t) (k : Z) :
  0 <= bit_pos s -> 0 <= k -> bit_pos s + k <= 8 ->
  0 <= bit_pos (BitStream.advance s k) < 8.
Proof.
  intros. unfold BitStream.advance.
  destruct (Z.eqb_spec (bit_pos s + k) 8); simpl; lia.
Qed.

Lemma advance_byte_pos (s : BitStream.t) (k : Z) :
  byte_pos s <= byte_pos (BitStream.advance s k).
Proof.
  unfold BitStream.advance.
  destruct (Z.eqb_spec (bit_pos s + k) 8); simpl; lia.
Qed.

(** One pass of the write loop over a cursor inside the buffer. *)
Lemma write_body_next (value n k : Z) (s : BitStream.t) (old : Z) :
  BitStream.cursor_ok s -> k < n -> byte_pos s < len_buffer s ->
  buffer s !! Z.to_nat (byte_pos s) = Some old ->
  let btw := Z.min (n - k) (8 - bit_pos s) in
  BitStream.write_body value n k s
  = Next (k + btw)
         (BitStream.advance
            (BitStream.with_buffer s
               (<[Z.to_nat (byte_pos s) :=
                    stored_byte old value (n - k - btw) (8 - bit_pos s - btw) btw]>
                  (buffer s)))
            btw).
Proof.
  intros [Hy Hb] Hk Hlen Hold btw. unfold BitStream.len_buffer in Hlen.
  unfold BitStream.write_body. fold btw.
  replace (btw <? 0) with false by lia.
  rewrite getitem_in_range, Hold by lia.
  rewrite setitem_in_range by (try apply masked_byte_range; lia).
  rewrite getitem_in_range by (rewrite length_insert; lia).
  rewrite list_lookup_insert_eq by lia.
  fold (stored_byte old value (n - k - btw) (8 - bit_pos s - btw) btw).
  rewrite setitem_in_range
    by (try apply stored_byte_range; try rewrite length_insert; lia).
  rewrite list_insert_insert_eq. reflexivity.
Qed.

Lemma bit_at_insert (b : list Z) (i x old q : Z) :
  0 <= i -> 0 <= q -> b !! Z.to_nat i = Some old ->
  BitStream.bit_at (<[Z.to_nat i := x]> b) q
  = if q / 8 =? i then Z.testbit x (7 - q mod 8) else BitStream.bit_at b q.
Proof.
  intros Hi Hq Hold. unfold BitStream.bit_at.
  destruct (Z.eqb_spec (q / 8) i) as [-> | Hne].
  - rewrite list_lookup_insert_eq; [reflexivity |].
    apply lookup_lt_is_Some. eauto.
  - rewrite list_lookup_insert_ne; [reflexivity |].
    assert (0 <= q / 8) by (apply Z.div_pos; lia). lia.
Qed.

(** The bits of the buffer after one pass of the write loop. *)
Lemma bit_at_stored (s : BitStream.t) (old value shift k q : Z) :
  BitStream.cursor_ok s -> 0 <= shift -> 0 <= k -> bit_pos s + k <= 8 -> 0 <= q ->
  buffer s !! Z.to_nat (byte_pos s) = Some old ->
  BitStream.bit_at
    (<[Z.to_nat (byte_pos s) := stored_byte old value shift (8 - bit_pos s - k) k]>
       (buffer s)) q
  = if (position s <=? q) && (q <? position s + k)
    then Z.testbit value (shift + k - 1 - (q - position s))
    else BitStream.bit_at (buffer s) q.
Proof.
  intros [Hy Hb] Hs Hk H8 Hq Hold. unfold BitStream.position.
  rewrite (bit_at_insert _ _ _ old) by assumption.
  pose proof (Z.div_mod q 8 ltac:(lia)) as Hdm.
  pose proof (Z.mod_pos_bound q 8 ltac:(lia)) as Hr.
  destruct (Z.eqb_spec (q / 8) (byte_pos s)) as [E | Hne].
  - rewrite stored_byte_testbit by lia.
    replace ((8 - bit_pos s - k <=? 7 - q mod 8)
             && (7 - q mod 8 <? 8 - bit_pos s - k + k))
      with ((byte_pos s * 8 + bit_pos s <=? q)
            && (q <? byte_pos s * 8 + bit_pos s + k)) by lia.
    destruct ((byte_pos s * 8 + bit_pos s <=? q)
              && (q <? byte_pos s * 8 + bit_pos s + k)).
    + f_equal. lia.
    + unfold BitStream.bit_at. rewrite E, Hold.
      replace (7 - q mod 8 <? 8) with true by lia. apply andb_true_r.
  - replace ((byte_pos s * 8 + bit_pos s <=? q)
             && (q <? byte_pos s * 8 + bit_pos s + k)) with false by lia.
    reflexivity.
Qed.

(** The write loop on a cursor with room for the remaining bits: it ends
    without an exception within the fuel, moves the cursor by the bits
    that were left, and replaces exactly those bits of the buffer, most
    significant first. *)
Lemma write_loop_spec (fuel : nat) :
  forall (value n k : Z) (s : BitStream.t),
    BitStream.cursor_ok s -> 0 <= k <= n ->
    position s + (n - k) <= 8 * len_buffer s ->
    (Z.to_nat (n - k) <= fuel)%nat ->
    exists s',
      BitStream.write_loop fuel value n k s = Some (Return tt s') /\
      BitStream.cursor_ok s' /\
      position s' = position s + (n - k) /\
      bit_length s' = bit_length s /\
      len_buffer s' = len_buffer s /\
      forall q, 0 <= q ->
        BitStream.bit_at (buffer s') q
        = if (position s <=? q) && (q <? position s + (n - k))
          then Z.testbit value (n - k - 1 - (q - position s))
          else BitStream.bit_at (buffer s) q.
Proof.
  induction fuel as [| fuel IH]; intros value n k s Hc Hk Hroom Hfuel.
  - assert (k = n) by lia. subst k. exists s. simpl.
    rewrite Z.ltb_irrefl. repeat split; try apply Hc; try lia.
    intros q Hq. replace (_ && _) with false by lia. reflexivity.
  - destruct (Z.ltb_spec k n) as [Hlt | Hge].
    2:{ assert (k = n) by lia. subst k. exists s. simpl.
        rewrite Z.ltb_irrefl. repeat split; try apply Hc; try lia.
        intros q Hq. replace (_ && _) with false by lia. reflexivity. }
    pose proof Hc as [Hy Hb].
    assert (Hin : 0 <= byte_pos s < Z.of_nat (length (buffer s))).
    { unfold BitStream.position, BitStream.len_buffer in Hroom. lia. }
    destruct (lookup_in_range _ _ Hin) as [old Hold].
    set (btw := Z.min (n - k) (8 - bit_pos s)).
    assert (Hbtw : 1 <= btw /\ btw <= n - k /\ bit_pos s + btw <= 8) by lia.
    set (s1 := BitStream.advance
                 (BitStream.with_buffer s
                    (<[Z.to_nat (byte_pos s) :=
                         stored_byte old value (n - k - btw) (8 - bit_pos s - btw) btw]>
                       (buffer s))) btw).
    assert (Hbody : BitStream.write_body value n k s = Next (k + btw) s1).
    { apply write_body_next; try assumption. unfold BitStream.len_buffer. lia. }
    destruct (advance_fields
                (BitStream.with_buffer s
                   (<[Z.to_nat (byte_pos s) :=
                        stored_byte old value (n - k - btw) (8 - bit_pos s - btw) btw]>
                      (buffer s))) btw) as (Hbuf1 & Hbl1 & Hpos1).
    fold s1 in Hbuf1, Hbl1, Hpos1. simpl in Hbuf1, Hbl1.
    change (position (BitStream.with_buffer s _)) with (position s) in Hpos1.
    assert (Hlen1 : len_buffer s1 = len_buffer s).
    { unfold BitStream.len_buffer. rewrite Hbuf1, length_insert. reflexivity. }
    assert (Hc1 : BitStream.cursor_ok s1).
    { split.
      - pose proof (advance_byte_pos
                      (BitStream.with_buffer s
                         (<[Z.to_nat (byte_pos s) :=
                              stored_byte old value (n - k - btw)
                                (8 - bit_pos s - btw) btw]> (buffer s))) btw) as Hmono.
        fold s1 in Hmono. simpl in Hmono. lia.
      - apply advance_bit_pos; simpl; lia. }
    destruct (IH value n (k + btw) s1 Hc1) as (s' & Hrun & Hc' & Hpos' & Hbl' & Hlen' & Hbits);
      [lia | rewrite Hlen1; lia | lia |].
    exists s'. simpl. replace (k <? n) with true by lia. rewrite Hbody.
    split; [exact Hrun |]. split; [exact Hc' |].
    split; [lia |]. split; [congruence |]. split; [congruence |].
    intros q Hq. rewrite Hbits by assumption. rewrite Hbuf1, Hpos1.
    rewrite (bit_at_stored s old value (n - k - btw) btw q) by (try assumption; lia).
    destruct (Z.leb_spec (position s) q), (Z.ltb_spec q (position s + btw)),
             (Z.leb_spec (position s + btw) q),
             (Z.ltb_spec q (position s + btw + (n - (k + btw)))),
             (Z.ltb_spec q (position s + (n - k))); simpl; try lia;
      try reflexivity; f_equal; lia.
Qed.

(** One pass of the read loop over a cursor inside the buffer. *)
Lemma read_body_next (n acc k : Z) (s : BitStream.t) (byte : Z) :
  0 <= bit_pos s < 8 -> k < n ->
  byte_pos s < len_buffer s ->
  bytearray_getitem (buffer s) (byte_pos s) = Some byte ->
  let btr := Z.min (n - k) (8 - bit_pos s) in
  BitStream.read_body n (acc, k) s
  = Next (Z.lor acc
            (Z.shiftl (Z.land (Z.shiftr byte (8 - bit_pos s - btr)) (Z.shiftl 1 btr - 1))
                      (n - k - btr)),
          k + btr)
         (BitStream.advance s btr).
Proof.
  intros Hb Hk Hlen Hbyte btr. unfold BitStream.read_body. fold btr.
  replace (byte_pos s >=? len_buffer s) with false by lia.
  rewrite Hbyte. replace (btr <? 0) with false by lia. reflexivity.
Qed.

Lemma bit_at_current (s : BitStream.t) (byte d : Z) :
  BitStream.cursor_ok s -> buffer s !! Z.to_nat (byte_pos s) = Some byte ->
  0 <= d -> bit_pos s + d < 8 ->
  BitStream.bit_at (buffer s) (position s + d) = Z.testbit byte (7 - bit_pos s - d).
Proof.
  intros [Hy Hb] Hbyte Hd H8. unfold BitStream.bit_at, BitStream.position.
  assert (Hq : (byte_pos s * 8 + bit_pos s + d) / 8 = byte_pos s)
    by (Z.div_mod_to_equations; lia).
  assert (Hr : (byte_pos s * 8 + bit_pos s + d) mod 8 = bit_pos s + d)
    by (Z.div_mod_to_equations; lia).
  rewrite Hq, Hr, Hbyte. f_equal. lia.
Qed.

(** The read loop on a cursor with the remaining bits inside the buffer:
    it ends without an exception within the fuel, having read all
    [bit_count] bits, moves the cursor by the bits that were left, and
    puts the bits of the buffer into the result, first bit highest. *)
Lemma read_loop_spec (fuel : nat) :
  forall (n acc k : Z) (s : BitStream.t),
    BitStream.cursor_ok s -> 0 <= k <= n ->
    position s + (n - k) <= 8 * len_buffer s ->
    (Z.to_nat (n - k) <= fuel)%nat ->
    exists r s',
      BitStream.read_loop fuel n (acc, k) s = Some (Return (r, n) s') /\
      BitStream.cursor_ok s' /\
      position s' = position s + (n - k) /\
      bit_length s' = bit_length s /\
      buffer s' = buffer s /\
      forall i, 0 <= i ->
        Z.testbit r i
        = Z.testbit acc i
          || ((i <? n - k) && BitStream.bit_at (buffer s) (position s + (n - k - 1 - i))).
Proof.
  induction fuel as [| fuel IH]; intros n acc k s Hc Hk Hroom Hfuel.
  - assert (k = n) by lia. subst k. exists acc, s. simpl.
    rewrite Z.ltb_irrefl. repeat split; try apply Hc; try lia.
    intros i Hi. replace (i <? n - n) with false by lia. simpl.
    rewrite orb_false_r. reflexivity.
  - destruct (Z.ltb_spec k n) as [Hlt | Hge].
    2:{ assert (k = n) by lia. subst k. exists acc, s. simpl.
        rewrite Z.ltb_irrefl. repeat split; try apply Hc; try lia.
        intros i Hi. replace (i <? n - n) with false by lia. simpl.
        rewrite orb_false_r. reflexivity. }
    pose proof Hc as [Hy Hb].
    assert (Hin : 0 <= byte_pos s < Z.of_nat (length (buffer s))).
    { unfold BitStream.position, BitStream.len_buffer in Hroom. lia. }
    destruct (lookup_in_range _ _ Hin) as [byte Hbyte].
    set (btr := Z.min (n - k) (8 - bit_pos s)).
    assert (Hbtr : 1 <= btr /\ btr <= n - k /\ bit_pos s + btr <= 8) by lia.
    set (chunk := Z.land (Z.shiftr byte (8 - bit_pos s - btr)) (Z.shiftl 1 btr - 1)).
    set (acc1 := Z.lor acc (Z.shiftl chunk (n - k - btr))).
    set (s1 := BitStream.advance s btr).
    assert (Hbody : BitStream.read_body n (acc, k) s = Next (acc1, k + btr) s1).
    { apply read_body_next; try assumption.
      - unfold BitStream.len_buffer. lia.
      - rewrite getitem_in_range by lia. exact Hbyte. }
    destruct (advance_fields s btr) as (Hbuf1 & Hbl1 & Hpos1).
    fold s1 in Hbuf1, Hbl1, Hpos1.
    assert (Hc1 : BitStream.cursor_ok s1).
    { split.
      - pose proof (advance_byte_pos s btr) as Hmono. fold s1 in Hmono. lia.
      - apply advance_bit_pos; lia. }
    destruct (IH n acc1 (k + btr) s1 Hc1)
      as (r & s' & Hrun & Hc' & Hpos' & Hbl' & Hbuf' & Hbits);
      [lia | unfold BitStream.len_buffer in *; rewrite Hbuf1; lia | lia |].
    exists r, s'.
    change (BitStream.read_loop (S fuel) n (acc, k) s)
      with (if k <? n
            then match BitStream.read_body n (acc, k) s with
                 | Next acc' s0 => BitStream.read_loop fuel n acc' s0
                 | Break s0 => Some (Return (acc, k) s0)
                 | Throw e s0 => Some (Raise e s0)
                 end
            else Some (Return (acc, k) s)).
    replace (k <? n) with true by lia. rewrite Hbody.
    split; [exact Hrun |]. split; [exact Hc' |].
    split; [lia |]. split; [congruence |]. split; [congruence |].
    intros i Hi. rewrite Hbits by assumption. rewrite Hbuf1, Hpos1.
    unfold acc1. rewrite Z.lor_spec, Z.shiftl_spec by lia.
    destruct (Z.ltb_spec i (n - k - btr)) as [Hlow | Hhigh].
    + rewrite (Z.testbit_neg_r chunk) by lia.
      replace (i <? n - (k + btr)) with true by lia.
      replace (i <? n - k) with true by lia.
      rewrite orb_false_r. simpl. do 2 f_equal. lia.
    + replace (i <? n - (k + btr)) with false by lia. simpl.
      rewrite orb_false_r. unfold chunk.
      rewrite extracted_testbit by lia.
      destruct (Z.ltb_spec i (n - k)) as [Hmid | Hout].
      * replace (i - (n - k - btr) <? btr) with true by lia.
        rewrite andb_true_r. simpl.
        rewrite (bit_at_current s byte) by (try assumption; lia).
        do 2 f_equal. lia.
      * replace (i - (n - k - btr) <? btr) with false by lia.
        rewrite andb_false_r. reflexivity.
Qed.

Lemma bit_at_extend (b : list Z) (m q : Z) :
  0 <= q ->
  BitStream.bit_at (bytearray_extend_zeros b m) q = BitStream.bit_at b q.
Proof.
  intros Hq. unfold BitStream.bit_at, bytearray_extend_zeros.
  destruct (Nat.lt_ge_cases (Z.to_nat (q / 8)) (length b)) as [Hin | Hout].
  - rewrite lookup_app_l by assumption. reflexivity.
  - rewrite lookup_app_r by assumption.
    rewrite (proj2 (lookup_ge_None b _) Hout).
    destruct (replicate (Z.to_nat m) 0 !! _) as [z |] eqn:E; [| reflexivity].
    apply lookup_replicate in E as [-> _]. apply Z.bits_0.
Qed.

Lemma set_position_cursor (s : BitStream.t) (byte bit : Z) :
  0 <= bit < 8 -> byte * 8 + bit <= bit_length s ->
  BitStream.set_position s (byte * 8 + bit)
  = Return tt (BitStream.with_cursor s byte bit).
Proof.
  intros Hb Hle. unfold BitStream.set_position.
  replace (byte * 8 + bit >? bit_length s) with false by lia.
  assert (Hq : (byte * 8 + bit) / 8 = byte) by (Z.div_mod_to_equations; lia).
  assert (Hr : (byte * 8 + bit) mod 8 = bit) by (Z.div_mod_to_equations; lia).
  rewrite Hq, Hr. reflexivity.
Qed.

(** [write_bits] on a cursor of the data model. *)
Lemma write_bits_spec (s : BitStream.t) (value n : Z) :
  BitStream.cursor_ok s -> 1 <= n <= 64 ->
  exists s',
    BitStream.write_bits s value n = Some (Return tt s') /\
    BitStream.cursor_ok s' /\
    position s' = position s + n /\
    bit_length s' = Z.max (bit_length s) (position s + n) /\
    position s' <= 8 * len_buffer s' /\
    forall q, 0 <= q ->
      BitStream.bit_at (buffer s') q
      = if (position s <=? q) && (q <? position s + n)
        then Z.testbit value (n - 1 - (q - position s))
        else BitStream.bit_at (buffer s) q.
Proof.
  intros Hc Hn. unfold BitStream.write_bits.
  replace ((n <=? 0) || (n >? 64)) with false by lia.
  set (required := (position s + n + 7) / 8).
  set (s0 := if required >? len_buffer s
             then BitStream.with_buffer s
                    (bytearray_extend_zeros (buffer s) (required - len_buffer s))
             else s).
  assert (Hreq : position s + n <= 8 * required)
    by (unfold required; Z.div_mod_to_equations; lia).
  assert (H0 : BitStream.cursor_ok s0 /\ position s0 = position s /\
               bit_length s0 = bit_length s /\ required <= len_buffer s0 /\
               forall q, 0 <= q ->
                 BitStream.bit_at (buffer s0) q = BitStream.bit_at (buffer s) q).
  { unfold s0. destruct (Z.gtb_spec required (len_buffer s)) as [Hgt | Hle].
    - repeat split; try apply Hc.
      + unfold BitStream.len_buffer, bytearray_extend_zeros in *. simpl.
        rewrite length_app, length_replicate. lia.
      + intros q Hq. simpl. apply bit_at_extend. assumption.
    - repeat split; try apply Hc. lia. }
  destruct H0 as (Hc0 & Hpos0 & Hbl0 & Hlen0 & Hbits0).
  destruct (write_loop_spec (Z.to_nat n) value n 0 s0 Hc0)
    as (s1 & Hrun & Hc1 & Hpos1 & Hbl1 & Hlen1 & Hbits1); [lia | lia | lia |].
  rewrite Hrun. rewrite Z.sub_0_r in *.
  exists (if position s1 >? bit_length s1
          then BitStream.with_bit_length s1 (position s1) else s1).
  split; [reflexivity |].
  assert (Hfinal : forall q, 0 <= q ->
            BitStream.bit_at (buffer s1) q
            = if (position s <=? q) && (q <? position s + n)
              then Z.testbit value (n - 1 - (q - position s))
              else BitStream.bit_at (buffer s) q).
  { intros q Hq. rewrite Hbits1, Hpos0, Hbits0 by assumption. reflexivity. }
  destruct (Z.gtb_spec (position s1) (bit_length s1)) as [Hgt | Hle].
  - repeat split; try apply Hc1; simpl;
      try (unfold BitStream.position, BitStream.len_buffer in *; simpl; lia).
    exact Hfinal.
  - repeat split; try apply Hc1; try lia. exact Hfinal.
Qed.

(** [read_bits] on a cursor of the data model with the bits in reach. *)
Lemma read_bits_spec (s : BitStream.t) (n : Z) :
  BitStream.cursor_ok s -> 1 <= n <= 64 ->
  position s + n <= bit_length s -> position s + n <= 8 * len_buffer s ->
  exists r s',
    BitStream.read_bits s n = Some (Return r s') /\
    BitStream.cursor_ok s' /\
    position s' = position s + n /\
    bit_length s' = bit_length s /\
    buffer s' = buffer s /\
    forall i, 0 <= i ->
      Z.testbit r i
      = (i <? n) && BitStream.bit_at (buffer s) (position s + (n - 1 - i)).
Proof.
  intros Hc Hn Hbl Hroom. unfold BitStream.read_bits.
  replace ((n <=? 0) || (n >? 64)) with false by lia.
  replace (position s + n >? bit_length s) with false by lia.
  destruct (read_loop_spec (Z.to_nat n) n 0 0 s Hc)
    as (r & s' & Hrun & Hc' & Hpos' & Hbl' & Hbuf' & Hbits); [lia | lia | lia |].
  rewrite Hrun. rewrite Z.sub_0_r in *. exists r, s'.
  repeat split; try apply Hc'; try assumption.
  intros i Hi. rewrite Hbits, Z.bits_0 by assumption. reflexivity.
Qed.

(** A number whose bits below [n] are those of [value] and whose other
    bits are clear is [value mod 2^n]. *)
Lemma low_bits_mod (r value n : Z) :
  0 <= n ->
  (forall i, 0 <= i -> Z.testbit r i = (i <? n) && Z.testbit value i) ->
  r = value mod 2 ^ n.
Proof.
  intros Hn Hbits. apply Z.bits_inj'. intros i Hi.
  rewrite Hbits, Z.testbit_mod_pow2 by lia. reflexivity.
Qed.

(** [write_bits_u128]: the same contract as [write_bits], up to 128 bits. *)
Lemma write_bits_u128_spec (s : BitStream.t) (value n : Z) :
  BitStream.cursor_ok s -> 1 <= n <= 128 ->
  exists s',
    BitStream.write_bits_u128 s value n = Some (Return tt s') /\
    BitStream.cursor_ok s' /\
    position s' = position s + n /\
    bit_length s' = Z.max (bit_length s) (position s + n) /\
    position s' <= 8 * len_buffer s' /\
    forall q, 0 <= q ->
      BitStream.bit_at (buffer s') q
      = if (position s <=? q) && (q <? position s + n)
        then Z.testbit value (n - 1 - (q - position s))
        else BitStream.bit_at (buffer s) q.
Proof.
  intros Hc Hn. unfold BitStream.write_bits_u128.
  replace ((n <=? 0) || (n >? 128)) with false by lia.
  destruct (Z.leb_spec n 64) as [Hsmall | Hbig].
  { apply write_bits_spec; [assumption | lia]. }
  destruct (write_bits_spec s (Z.shiftr value 64) (n - 64) Hc)
    as (s1 & Hw1 & Hc1 & Hpos1 & Hbl1 & Hroom1 & Hbits1); [lia |].
  destruct (write_bits_spec s1 (Z.land value (Z.shiftl 1 64 - 1)) 64 Hc1)
    as (s2 & Hw2 & Hc2 & Hpos2 & Hbl2 & Hroom2 & Hbits2); [lia |].
  rewrite Hw1. exists s2. split; [exact Hw2 |]. split; [exact Hc2 |].
  split; [lia |]. split; [lia |]. split; [lia |].
  intros q Hq. rewrite Hbits2, Hbits1, Hpos1 by assumption.
  destruct (Z.leb_spec (position s + (n - 64)) q) as [Hlow | Hhigh];
    destruct (Z.ltb_spec q (position s + (n - 64) + 64)) as [Hin | Hout]; simpl.
  - replace ((position s <=? q) && (q <? position s + n)) with true by lia.
    rewrite Z.land_spec.
    change (Z.shiftl 1 64 - 1) with (Z.ones 64).
    rewrite Z.testbit_ones_nonneg by lia.
    replace (64 - 1 - (q - (position s + (n - 64)))) with (n - 1 - (q - position s))
      by lia.
    replace (n - 1 - (q - position s) <? 64) with true by lia.
    apply andb_true_r.
  - replace ((position s <=? q) && (q <? position s + (n - 64))) with false by lia.
    replace ((position s <=? q) && (q <? position s + n)) with false by lia.
    reflexivity.
  - destruct (Z.leb_spec (position s) q) as [Hge | Hlt]; simpl.
    + replace (q <? position s + (n - 64)) with true by lia.
      replace (q <? position s + n) with true by lia.
      rewrite Z.shiftr_spec by lia. f_equal. lia.
    + reflexivity.
  - lia.
Qed.

(** [read_bits_u128]: the same contract as [read_bits], up to 128 bits. *)
Lemma read_bits_u128_spec (s : BitStream.t) (n : Z) :
  BitStream.cursor_ok s -> 1 <= n <= 128 ->
  position s + n <= bit_length s -> position s + n <= 8 * len_buffer s ->
  exists r s',
    BitStream.read_bits_u128 s n = Some (Return r s') /\
    BitStream.cursor_ok s' /\
    position s' = position s + n /\
    bit_length s' = bit_length s /\
    buffer s' = buffer s /\
    forall i, 0 <= i ->
      Z.testbit r i
      = (i <? n) && BitStream.bit_at (buffer s) (position s + (n - 1 - i)).
Proof.
  intros Hc Hn Hbl Hroom. unfold BitStream.read_bits_u128.
  replace ((n <=? 0) || (n >? 128)) with false by lia.
  destruct (Z.leb_spec n 64) as [Hsmall | Hbig].
  { apply read_bits_spec; try assumption. lia. }
  replace (position s + n >? bit_length s) with false by lia.
  destruct (read_bits_spec s (n - 64) Hc)
    as (high & s1 & Hr1 & Hc1 & Hpos1 & Hbl1 & Hbuf1 & Hbits1); [lia | lia | lia |].
  destruct (read_bits_spec s1 64 Hc1)
    as (low & s2 & Hr2 & Hc2 & Hpos2 & Hbl2 & Hbuf2 & Hbits2);
    [lia | lia | unfold BitStream.len_buffer in *; rewrite Hbuf1; lia |].
  rewrite Hr1, Hr2. exists (Z.lor (Z.shiftl high 64) low), s2.
  split; [reflexivity |]. split; [exact Hc2 |]. split; [lia |].
  split; [congruence |]. split; [congruence |].
  intros i Hi. rewrite Z.lor_spec, Z.shiftl_spec, Hbits2 by assumption.
  rewrite Hbuf1, Hpos1.
  destruct (Z.ltb_spec i 64) as [Hlow | Hhigh]; simpl.
  - rewrite (Z.testbit_neg_r high) by lia. simpl.
    replace (i <? n) with true by lia. simpl. f_equal. lia.
  - rewrite orb_false_r, Hbits1 by lia.
    replace (i - 64 <? n - 64) with (i <? n) by lia.
    do 2 f_equal. lia.
Qed.

End BitStreamLoops.

(** ** Round trips through the in-memory stream *)

Section RoundTrip.

(** What comes back when [n] bits are read again at the position where
    [value] was written, for any writer and reader that keep the contracts
    above: the low [n] bits of [value]. *)
Lemma reread_after_write (s s1 : BitStream.t) (value n : Z)
      (read : BitStream.t -> Z -> option (outcome BitStream.t Z)) :
  BitStream.cursor_ok s -> 1 <= n ->
  BitStream.cursor_ok s1 ->
  BitStream.position s1 = BitStream.position s + n ->
  BitStream._bit_length s1
    = Z.max (BitStream._bit_length s) (BitStream.position s + n) ->
  BitStream.position s1 <= 8 * BitStream.len_buffer s1 ->
  (forall q, 0 <= q ->
     BitStream.bit_at (BitStream._buffer s1) q
     = if (BitStream.position s <=? q) && (q <? BitStream.position s + n)
       then Z.testbit value (n - 1 - (q - BitStream.position s))
       else BitStream.bit_at (BitStream._buffer s) q) ->
  (forall s2, BitStream.cursor_ok s2 ->
     BitStream.position s2 + n <= BitStream._bit_length s2 ->
     BitStream.position s2 + n <= 8 * BitStream.len_buffer s2 ->
     exists r s3,
       read s2 n = Some (Return r s3) /\
       forall i, 0 <= i ->
         Z.testbit r i
         = (i <? n) && BitStream.bit_at (BitStream._buffer s2)
                                        (BitStream.position s2 + (n - 1 - i))) ->
  exists s2 s3,
    BitStream.set_position s1 (BitStream.position s) = Return tt s2 /\
    read s2 n = Some (Return (value mod 2 ^ n) s3).
Proof.
  intros [Hy Hb] Hn Hc1 Hpos1 Hbl1 Hroom1 Hbits1 Hread.
  set (s2 := BitStream.with_cursor s1 (BitStream._byte_pos s) (BitStream._bit_pos s)).
  assert (Hset : BitStream.set_position s1 (BitStream.position s) = Return tt s2).
  { unfold BitStream.position at 1. apply set_position_cursor; [lia |].
    fold (BitStream.position s). lia. }
  assert (Hpos2 : BitStream.position s2 = BitStream.position s) by reflexivity.
  destruct (Hread s2) as (r & s3 & Hr & Hbits).
  - split; simpl; lia.
  - rewrite Hpos2. simpl. lia.
  - rewrite Hpos2. unfold BitStream.len_buffer in *. simpl. lia.
  - exists s2, s3. split; [exact Hset |].
    rewrite Hr. do 3 f_equal. apply low_bits_mod; [lia |].
    intros i Hi. rewrite Hbits by assumption. rewrite Hpos2. simpl.
    destruct (Z.ltb_spec i n) as [Hlt | Hge]; simpl; [| reflexivity].
    rewrite Hbits1 by (unfold BitStream.position; lia).
    replace ((BitStream.position s <=? BitStream.position s + (n - 1 - i))
             && (BitStream.position s + (n - 1 - i) <? BitStream.position s + n))
      with true by lia.
    f_equal. lia.
Qed.

(** [set_position] has no lower bound: a negative offset is accepted, and
    the negative byte index it leaves then counts from the end of the
    buffer, as Python indexes do. Such a cursor is outside the data model
    (a byte index and a bit index within the byte); on a one-byte stream
    sixteen bits written at offset -8 land twice in the same byte. *)
Example negative_offset_cursor :
  BitStream.set_position (BitStream.init (Some [0])) (-8)
    = Return tt (BitStream.mk [0] (-1) 0 8) /\
  BitStream.write_bits (BitStream.mk [0] (-1) 0 8) 4660 16
    = Some (Return tt (BitStream.mk [52] 1 0 8)) /\
  BitStream.set_position (BitStream.mk [52] 1 0 8) (-8)
    = Return tt (BitStream.mk [52] (-1) 0 8) /\
  BitStream.read_bits (BitStream.mk [52] (-1) 0 8) 16
    = Some (Return 13364 (BitStream.mk [52] 1 0 8)).
Proof.
  repeat split; vm_compute; reflexivity.
Qed.

(** C10 (with the condition it needs): at a cursor with a non-negative
    byte index and a bit index in 0..7, that is at any position [p >= 0],
    for any integer [value], negative or wider than [n] bits,
    [write_bits(value, n)] with [n] in 1..64 returns without an exception
    (no range error in particular), the [n] bits from the old position on
    are the low [n] bits of [value], most significant first, and reading
    [n] bits again from that position gives [value mod 2^n]. *)
Theorem C10_write_bits_keeps_low_bits (s : BitStream.t) (value n : Z) :
  BitStream.cursor_ok s -> 1 <= n <= 64 ->
  exists s1 s2 s3,
    BitStream.write_bits s value n = Some (Return tt s1) /\
    (forall d, 0 <= d < n ->
       BitStream.bit_at (BitStream._buffer s1) (BitStream.position s + d)
       = Z.testbit value (n - 1 - d)) /\
    BitStream.set_position s1 (BitStream.position s) = Return tt s2 /\
    BitStream.read_bits s2 n = Some (Return (value mod 2 ^ n) s3).
Proof.
  intros Hc Hn.
  destruct (write_bits_spec s value n Hc Hn)
    as (s1 & Hw & Hc1 & Hpos1 & Hbl1 & Hroom1 & Hbits1).
  destruct (reread_after_write s s1 value n BitStream.read_bits)
    as (s2 & s3 & Hset & Hread); try assumption; try lia.
  { intros s2 Hc2 Hbl2 Hroom2.
    destruct (read_bits_spec s2 n Hc2 Hn Hbl2 Hroom2)
      as (r & s3 & Hr & _ & _ & _ & _ & Hbits).
    exists r, s3. split; assumption. }
  exists s1, s2, s3. split; [exact Hw |]. split; [| split; assumption].
  intros d Hd. destruct Hc as [Hy Hb].
  rewrite Hbits1 by (unfold BitStream.position; lia).
  replace ((BitStream.position s <=? BitStream.position s + d)
           && (BitStream.position s + d <? BitStream.position s + n))
    with true by lia.
  f_equal. lia.
Qed.

(** C2 (with the condition it needs): a value in [0, 2^n) written with
    [write_bits] at a cursor with a non-negative byte index and a bit
    index in 0..7, that is at any position [p >= 0], and read again with
    [read_bits] from the same position comes back unchanged, for [n] in
    1..64; likewise with [write_bits_u128] and [read_bits_u128] for [n]
    in 1..128. *)
Theorem C2_write_read_round_trip (s : BitStream.t) (value n : Z) :
  BitStream.cursor_ok s -> 0 <= value < 2 ^ n ->
  (1 <= n <= 64 ->
   exists s1 s2 s3,
     BitStream.write_bits s value n = Some (Return tt s1) /\
     BitStream.set_position s1 (BitStream.position s) = Return tt s2 /\
     BitStream.read_bits s2 n = Some (Return value s3)) /\
  (1 <= n <= 128 ->
   exists s1 s2 s3,
     BitStream.write_bits_u128 s value n = Some (Return tt s1) /\
     BitStream.set_position s1 (BitStream.position s) = Return tt s2 /\
     BitStream.read_bits_u128 s2 n = Some (Return value s3)).
Proof.
  intros Hc Hv. split; intros Hn.
  - destruct (write_bits_spec s value n Hc Hn)
      as (s1 & Hw & Hc1 & Hpos1 & Hbl1 & Hroom1 & Hbits1).
    destruct (reread_after_write s s1 value n BitStream.read_bits)
      as (s2 & s3 & Hset & Hread); try assumption; try lia.
    { intros s2 Hc2 Hbl2 Hroom2.
      destruct (read_bits_spec s2 n Hc2 Hn Hbl2 Hroom2)
        as (r & s3 & Hr & _ & _ & _ & _ & Hbits).
      exists r, s3. split; assumption. }
    exists s1, s2, s3. rewrite Z.mod_small in Hread by assumption.
    repeat split; assumption.
  - destruct (write_bits_u128_spec s value n Hc Hn)
      as (s1 & Hw & Hc1 & Hpos1 & Hbl1 & Hroom1 & Hbits1).
    destruct (reread_after_write s s1 value n BitStream.read_bits_u128)
      as (s2 & s3 & Hset & Hread); try assumption; try lia.
    { intros s2 Hc2 Hbl2 Hroom2.
      destruct (read_bits_u128_spec s2 n Hc2 Hn Hbl2 Hroom2)
        as (r & s3 & Hr & _ & _ & _ & _ & Hbits).
      exists r, s3. split; assumption. }
    exists s1, s2, s3. rewrite Z.mod_small in Hread by assumption.
    repeat split; assumption.
Qed.

(** C2 as stated, at any position, fails: [set_position(-8)] is accepted
    on the one-byte stream [0x00] (it only checks [p > bit_length]) and
    leaves the byte index -1, which indexes from the end of the buffer.
    0x1234 written there on 16 bits puts 0x12 and then 0x34 into the same
    byte, and the 16 bits read again from position -8 are 0x3434. *)
Lemma C2_negative_position_breaks_round_trip :
  ~ (forall (s : BitStream.t) (value n : Z),
       BitStream.reachable s -> 1 <= n <= 64 -> 0 <= value < 2 ^ n ->
       exists s1 s2 s3,
         BitStream.write_bits s value n = Some (Return tt s1) /\
         BitStream.set_position s1 (BitStream.position s) = Return tt s2 /\
         BitStream.read_bits s2 n = Some (Return value s3)).
Proof.
  intros H.
  destruct negative_offset_cursor as (Hset & Hwrite & Hback & Hread).
  destruct (H (BitStream.mk [0] (-1) 0 8) 4660 16) as (s1 & s2 & s3 & Hw & Hs & Hr).
  - apply (BitStream.reach_set_position (BitStream.init (Some [0])) (-8));
      [apply BitStream.reach_init | exact Hset].
  - lia.
  - simpl. lia.
  - rewrite Hwrite in Hw. inversion Hw; subst s1.
    change (BitStream.position (BitStream.mk [0] (-1) 0 8)) with (-8) in Hs.
    rewrite Hback in Hs. inversion Hs; subst s2.
    rewrite Hread in Hr. discriminate.
Qed.

(** C10 as stated, at any position, fails twice. On the empty stream
    [set_position(-16)] is accepted and leaves the byte index -2; there
    [write_bits(1, 8)] raises [IndexError], the index being out of the
    range of the empty buffer. On the one-byte stream [0x00] at position
    -8, -2 written on 16 bits returns, but both of its bytes went to the
    same byte, and the 16 bits read again from position -8 are 0xFEFE,
    not [-2 mod 2^16 = 0xFFFE]. *)
Lemma C10_negative_position_breaks_write :
  BitStream.set_position (BitStream.init None) (-16)
    = Return tt (BitStream.mk [] (-2) 0 0) /\
  BitStream.write_bits (BitStream.mk [] (-2) 0 0) 1 8
    = Some (Raise IndexError (BitStream.mk [] (-2) 0 0)) /\
  BitStream.write_bits (BitStream.mk [0] (-1) 0 8) (-2) 16
    = Some (Return tt (BitStream.mk [254] 1 0 8)) /\
  BitStream.read_bits (BitStream.mk [254] (-1) 0 8) 16
    = Some (Return 65278 (BitStream.mk [254] 1 0 8)) /\
  ~ (forall (s : BitStream.t) (value n : Z),
       BitStream.reachable s -> 1 <= n <= 64 ->
       exists s1 s2 s3,
         BitStream.write_bits s value n = Some (Return tt s1) /\
         BitStream.set_position s1 (BitStream.position s) = Return tt s2 /\
         BitStream.read_bits s2 n = Some (Return (value mod 2 ^ n) s3)).
Proof.
  assert (Hset : BitStream.set_position (BitStream.init None) (-16)
                 = Return tt (BitStream.mk [] (-2) 0 0)) by (vm_compute; reflexivity).
  assert (Hwrite : BitStream.write_bits (BitStream.mk [] (-2) 0 0) 1 8
                   = Some (Raise IndexError (BitStream.mk [] (-2) 0 0)))
    by (vm_compute; reflexivity).
  split; [exact Hset |]. split; [exact Hwrite |].
  split; [vm_compute; reflexivity |]. split; [vm_compute; reflexivity |].
  intros H.
  destruct (H (BitStream.mk [] (-2) 0 0) 1 8) as (s1 & _ & _ & Hw & _).
  - apply (BitStream.reach_set_position (BitStream.init None) (-16));
      [apply BitStream.reach_init | exact Hset].
  - lia.
  - rewrite Hwrite in Hw. discriminate.
Qed.

End RoundTrip.

(** ** Invariant and atomicity of the in-memory stream *)

Section Invariant.

Local Abbreviation byte_pos := BitStream._byte_pos.
Local Abbreviation bit_pos := BitStream._bit_pos.
Local Abbreviation buffer := BitStream._buffer.
Local Abbreviation bit_length := BitStream._bit_length.
Local Abbreviation position := BitStream.position.
Local Abbreviation len_buffer := BitStream.len_buffer.

Lemma setitem_error (b : list Z) (i x : Z) (e : exn) :
  bytearray_setitem b i x = inl e -> e = IndexError \/ e = ValueError.
Proof.
  unfold bytearray_setitem. destruct (py_index _ i).
  - destruct ((0 <=? x) && (x <? 256)); [discriminate |].
    intros H; inversion H; auto.
  - intros H; inversion H; auto.
Qed.

(** Whatever the cursor, one pass of the write loop either stores into the
    buffer without resizing it and moves on by the chunk, or raises
    [IndexError] or [ValueError]. *)
Lemma write_body_cases (value n k : Z) (s : BitStream.t) :
  match BitStream.write_body value n k s with
  | Next k' s1 =>
    let btw := Z.min (n - k) (8 - bit_pos s) in
    0 <= btw /\ k' = k + btw /\
    exists b, len_buffer (BitStream.with_buffer s b) = len_buffer s /\
              s1 = BitStream.advance (BitStream.with_buffer s b) btw
  | Break _ => False
  | Throw e _ => e = IndexError \/ e = ValueError
  end.
Proof.
  unfold BitStream.write_body.
  destruct (Z.ltb_spec (Z.min (n - k) (8 - bit_pos s)) 0) as [Hneg | Hpos]; [auto |].
  destruct (bytearray_getitem (buffer s) (byte_pos s)); [| auto].
  destruct (bytearray_setitem (buffer s) (byte_pos s) _) as [e | buf1] eqn:E1;
    [eapply setitem_error; eassumption |].
  destruct (bytearray_getitem buf1 (byte_pos s)); [| auto].
  destruct (bytearray_setitem buf1 (byte_pos s) _) as [e | buf2] eqn:E2;
    [eapply setitem_error; eassumption |].
  simpl. split; [lia |]. split; [reflexivity |]. exists buf2. split; [| reflexivity].
  unfold BitStream.len_buffer. simpl.
  apply setitem_length in E1, E2. congruence.
Qed.

Lemma write_loop_cases (fuel : nat) :
  forall (value n k : Z) (s : BitStream.t),
    0 <= bit_pos s < 8 -> k <= n ->
    match BitStream.write_loop fuel value n k s with
    | Some (Return _ s') =>
      0 <= bit_pos s' < 8 /\ position s' = position s + (n - k) /\
      bit_length s' = bit_length s /\ len_buffer s' = len_buffer s
    | Some (Raise e _) => e = IndexError \/ e = ValueError
    | None => True
    end.
Proof.
  induction fuel as [| fuel IH]; intros value n k s Hb Hk; simpl.
  - destruct (Z.ltb_spec k n); [exact I |]. repeat split; lia.
  - destruct (Z.ltb_spec k n) as [Hlt | Hge]; [| repeat split; lia].
    pose proof (write_body_cases value n k s) as Hbody.
    destruct (BitStream.write_body value n k s) as [k' s1 | s1 | e s1];
      [| contradiction | exact Hbody].
    destruct Hbody as (Hbtw & -> & b & Hlen & ->).
    set (btw := Z.min (n - k) (8 - bit_pos s)) in *.
    set (sb := BitStream.with_buffer s b) in *.
    destruct (advance_fields sb btw) as (Hbuf1 & Hbl1 & Hpos1).
    assert (Hb1 : 0 <= bit_pos (BitStream.advance sb btw) < 8)
      by (apply advance_bit_pos; simpl; lia).
    specialize (IH value n (k + btw) (BitStream.advance sb btw) Hb1 ltac:(lia)).
    destruct (BitStream.write_loop fuel value n (k + btw) (BitStream.advance sb btw))
      as [[[] s' | e s'] |]; [| exact IH | exact I].
    destruct IH as (Hb' & Hpos' & Hbl' & Hlen').
    split; [exact Hb' |].
    change (position sb) with (position s) in Hpos1.
    change (bit_length sb) with (bit_length s) in Hbl1.
    unfold BitStream.len_buffer in *. rewrite Hbuf1 in Hlen'.
    repeat split; try lia; congruence.
Qed.

(** One pass of the read loop with a remaining bit inside the buffer. *)
Lemma read_body_cases (n acc k : Z) (s : BitStream.t) :
  0 <= bit_pos s < 8 -> k < n -> position s + (n - k) <= 8 * len_buffer s ->
  match BitStream.read_body n (acc, k) s with
  | Next (_, k') s1 =>
    let btr := Z.min (n - k) (8 - bit_pos s) in
    k' = k + btr /\ s1 = BitStream.advance s btr
  | Break _ => False
  | Throw e s1 => e = IndexError
  end.
Proof.
  intros Hb Hk Hroom. unfold BitStream.read_body.
  unfold BitStream.position in Hroom.
  replace (byte_pos s >=? len_buffer s) with false by lia.
  destruct (bytearray_getitem (buffer s) (byte_pos s)); [| reflexivity].
  replace (Z.min (n - k) (8 - bit_pos s) <? 0) with false by lia.
  split; reflexivity.
Qed.

Lemma read_loop_cases (fuel : nat) :
  forall (n acc k : Z) (s : BitStream.t),
    0 <= bit_pos s < 8 -> k <= n -> position s + (n - k) <= 8 * len_buffer s ->
    match BitStream.read_loop fuel n (acc, k) s with
    | Some (Return _ s') =>
      0 <= bit_pos s' < 8 /\ position s' = position s + (n - k) /\
      bit_length s' = bit_length s /\ buffer s' = buffer s
    | Some (Raise e _) => e = IndexError
    | None => True
    end.
Proof.
  induction fuel as [| fuel IH]; intros n acc k s Hb Hk Hroom.
  - simpl. destruct (Z.ltb_spec k n); [exact I |]. repeat split; lia.
  - change (BitStream.read_loop (S fuel) n (acc, k) s)
      with (if k <? n
            then match BitStream.read_body n (acc, k) s with
                 | Next acc' s0 => BitStream.read_loop fuel n acc' s0
                 | Break s0 => Some (Return (acc, k) s0)
                 | Throw e s0 => Some (Raise e s0)
                 end
            else Some (Return (acc, k) s)).
    destruct (Z.ltb_spec k n) as [Hlt | Hge]; [| repeat split; lia].
    pose proof (read_body_cases n acc k s Hb Hlt Hroom) as Hbody.
    destruct (BitStream.read_body n (acc, k) s) as [[acc1 k'] s1 | s1 | e s1];
      [| contradiction | exact Hbody].
    destruct Hbody as (-> & ->).
    set (btr := Z.min (n - k) (8 - bit_pos s)) in *.
    destruct (advance_fields s btr) as (Hbuf1 & Hbl1 & Hpos1).
    assert (Hb1 : 0 <= bit_pos (BitStream.advance s btr) < 8)
      by (apply advance_bit_pos; lia).
    specialize (IH n acc1 (k + btr) (BitStream.advance s btr) Hb1 ltac:(lia)).
    unfold BitStream.len_buffer in *. rewrite Hbuf1, Hpos1 in IH.
    specialize (IH ltac:(lia)).
    destruct (BitStream.read_loop fuel n (acc1, k + btr) (BitStream.advance s btr))
      as [[out s' | e s'] |]; [| exact IH | exact I].
    destruct IH as (Hb' & Hpos' & Hbl' & Hbuf').
    repeat split; try lia; congruence.
Qed.

(** What [read_bits] can do to a stream that satisfies the invariant. *)
Lemma read_bits_outcome (s : BitStream.t) (n : Z) :
  BitStream.invariant s ->
  match BitStream.read_bits s n with
  | Some (Return _ s') =>
    BitStream.invariant s' /\ position s' = position s + n /\
    bit_length s' = bit_length s /\ buffer s' = buffer s /\ 1 <= n
  | Some (Raise e s') =>
    e = IndexError \/
    (s' = s /\ (~ 1 <= n <= 64 \/ position s + n > bit_length s))
  | None => True
  end.
Proof.
  intros (Hb & Hbl & Hpos). unfold BitStream.read_bits.
  destruct (Z.leb_spec n 0) as [H0 | H0]; simpl; [right; split; [reflexivity | lia] |].
  destruct (Z.gtb_spec n 64) as [H64 | H64]; [right; split; [reflexivity | lia] |].
  destruct (Z.gtb_spec (position s + n) (bit_length s)) as [Hend | Hend];
    [right; split; [reflexivity | lia] |].
  pose proof (read_loop_cases (Z.to_nat n) n 0 0 s Hb ltac:(lia) ltac:(lia)) as Hloop.
  destruct (BitStream.read_loop (Z.to_nat n) n (0, 0) s) as [[[r k] s' | e s'] |];
    [| left; exact Hloop | exact I].
  destruct Hloop as (Hb' & Hpos' & Hbl' & Hbuf').
  rewrite Z.sub_0_r in Hpos'.
  repeat split; try lia; try assumption;
    unfold BitStream.len_buffer in *; rewrite ?Hbuf'; lia.
Qed.

Lemma read_bits_u128_outcome (s : BitStream.t) (n : Z) :
  BitStream.invariant s ->
  match BitStream.read_bits_u128 s n with
  | Some (Return _ s') => BitStream.invariant s'
  | Some (Raise e s') => e = IndexError \/ s' = s
  | None => True
  end.
Proof.
  intros Hinv. unfold BitStream.read_bits_u128.
  destruct ((n <=? 0) || (n >? 128)); [right; reflexivity |].
  destruct (Z.leb_spec n 64) as [Hsmall | Hbig].
  { pose proof (read_bits_outcome s n Hinv) as H.
    destruct (BitStream.read_bits s n) as [[r s' | e s'] |]; [apply H | | exact I].
    destruct H as [H | [H _]]; auto. }
  destruct (Z.gtb_spec (position s + n) (bit_length s)) as [Hend | Hend];
    [right; reflexivity |].
  pose proof (read_bits_outcome s (n - 64) Hinv) as H1.
  destruct (BitStream.read_bits s (n - 64)) as [[high s1 | e s1] |]; [| | exact I].
  2:{ destruct H1 as [H1 | [H1 _]]; auto. }
  destruct H1 as (Hinv1 & Hpos1 & Hbl1 & Hbuf1 & _).
  pose proof (read_bits_outcome s1 64 Hinv1) as H2.
  destruct (BitStream.read_bits s1 64) as [[low s2 | e s2] |]; [apply H2 | | exact I].
  destruct H2 as [H2 | [_ H2]]; [left; exact H2 | lia].
Qed.

(** What [write_bits] can do to a stream that satisfies the invariant. *)
Lemma write_bits_outcome (s : BitStream.t) (value n : Z) :
  BitStream.invariant s ->
  match BitStream.write_bits s value n with
  | Some (Return _ s') => BitStream.invariant s'
  | Some (Raise e s') =>
    (e = IndexError \/ e = ValueError) \/ (s' = s /\ ~ 1 <= n <= 64)
  | None => True
  end.
Proof.
  intros (Hb & Hbl & Hpos). unfold BitStream.write_bits.
  destruct (Z.leb_spec n 0) as [H0 | H0]; simpl; [right; split; [reflexivity | lia] |].
  destruct (Z.gtb_spec n 64) as [H64 | H64]; [right; split; [reflexivity | lia] |].
  set (required := (position s + n + 7) / 8).
  set (s0 := if required >? len_buffer s
             then BitStream.with_buffer s
                    (bytearray_extend_zeros (buffer s) (required - len_buffer s))
             else s).
  assert (Hreq : position s + n <= 8 * required)
    by (unfold required; Z.div_mod_to_equations; lia).
  assert (H0' : bit_pos s0 = bit_pos s /\ position s0 = position s /\
                bit_length s0 = bit_length s /\ required <= len_buffer s0 /\
                len_buffer s <= len_buffer s0).
  { unfold s0. destruct (Z.gtb_spec required (len_buffer s)) as [Hgt | Hle].
    - repeat split;
        unfold BitStream.len_buffer, bytearray_extend_zeros in *; simpl;
        rewrite length_app, length_replicate; lia.
    - repeat split; lia. }
  destruct H0' as (Hb0 & Hpos0 & Hbl0 & Hlen0 & Hgrow).
  pose proof (write_loop_cases (Z.to_nat n) value n 0 s0 ltac:(lia) ltac:(lia)) as Hloop.
  destruct (BitStream.write_loop (Z.to_nat n) value n 0 s0) as [[[] s1 | e s1] |];
    [| left; exact Hloop | exact I].
  destruct Hloop as (Hb1 & Hpos1 & Hbl1 & Hlen1).
  rewrite Z.sub_0_r in Hpos1.
  destruct (Z.gtb_spec (position s1) (bit_length s1)) as [Hgt | Hle].
  - unfold BitStream.invariant.
    change (bit_pos (BitStream.with_bit_length s1 (position s1))) with (bit_pos s1).
    change (len_buffer (BitStream.with_bit_length s1 (position s1)))
      with (len_buffer s1).
    change (position (BitStream.with_bit_length s1 (position s1)))
      with (position s1).
    change (bit_length (BitStream.with_bit_length s1 (position s1)))
      with (position s1).
    lia.
  - unfold BitStream.invariant. lia.
Qed.

Lemma write_bits_u128_outcome (s : BitStream.t) (value n : Z) :
  BitStream.invariant s ->
  match BitStream.write_bits_u128 s value n with
  | Some (Return _ s') => BitStream.invariant s'
  | Some (Raise e s') => (e = IndexError \/ e = ValueError) \/ s' = s
  | None => True
  end.
Proof.
  intros Hinv. unfold BitStream.write_bits_u128.
  destruct ((n <=? 0) || (n >? 128)); [right; reflexivity |].
  destruct (Z.leb_spec n 64) as [Hsmall | Hbig].
  { pose proof (write_bits_outcome s value n Hinv) as H.
    destruct (BitStream.write_bits s value n) as [[[] s' | e s'] |];
      [exact H | | exact I].
    destruct H as [H | [H _]]; auto. }
  pose proof (write_bits_outcome s (Z.shiftr value 64) (n - 64) Hinv) as H1.
  destruct (BitStream.write_bits s (Z.shiftr value 64) (n - 64))
    as [[[] s1 | e s1] |]; [| | exact I].
  2:{ destruct H1 as [H1 | [H1 _]]; auto. }
  pose proof (write_bits_outcome s1 (Z.land value (Z.shiftl 1 64 - 1)) 64 H1) as H2.
  destruct (BitStream.write_bits s1 (Z.land value (Z.shiftl 1 64 - 1)) 64)
    as [[[] s2 | e s2] |]; [exact H2 | | exact I].
  destruct H2 as [H2 | [_ H2]]; [left; exact H2 | lia].
Qed.

Lemma set_position_outcome (s : BitStream.t) (p : Z) :
  BitStream.invariant s ->
  match BitStream.set_position s p with
  | Return _ s' => BitStream.invariant s'
  | Raise e s' => s' = s
  end.
Proof.
  intros (Hb & Hbl & Hpos). unfold BitStream.set_position.
  destruct (Z.gtb_spec p (bit_length s)) as [Hgt | Hle]; [reflexivity |].
  unfold BitStream.invariant, BitStream.position, BitStream.len_buffer in *. simpl.
  pose proof (Z.div_mod p 8 ltac:(lia)).
  pose proof (Z.mod_pos_bound p 8 ltac:(lia)). lia.
Qed.

(** The fuel of the loops is enough on every cursor with a bit index in
    0..7, also on one with a negative byte index: no call is cut short. *)
Lemma read_loop_terminates (fuel : nat) :
  forall (n acc k : Z) (s : BitStream.t),
    0 <= bit_pos s < 8 -> (Z.to_nat (n - k) <= fuel)%nat ->
    BitStream.read_loop fuel n (acc, k) s <> None.
Proof.
  induction fuel as [| fuel IH]; intros n acc k s Hb Hfuel.
  - simpl. replace (k <? n) with false by lia. discriminate.
  - change (BitStream.read_loop (S fuel) n (acc, k) s)
      with (if k <? n
            then match BitStream.read_body n (acc, k) s with
                 | Next acc' s0 => BitStream.read_loop fuel n acc' s0
                 | Break s0 => Some (Return (acc, k) s0)
                 | Throw e s0 => Some (Raise e s0)
                 end
            else Some (Return (acc, k) s)).
    destruct (Z.ltb_spec k n) as [Hlt | Hge]; [| discriminate].
    unfold BitStream.read_body.
    destruct (byte_pos s >=? len_buffer s);
      [destruct (k =? 0); discriminate |].
    destruct (bytearray_getitem _ _); [| discriminate].
    set (btr := Z.min (n - k) (8 - bit_pos s)).
    replace (btr <? 0) with false by lia.
    apply IH; [apply advance_bit_pos; lia | lia].
Qed.

Lemma write_loop_terminates (fuel : nat) :
  forall (value n k : Z) (s : BitStream.t),
    0 <= bit_pos s < 8 -> (Z.to_nat (n - k) <= fuel)%nat ->
    BitStream.write_loop fuel value n k s <> None.
Proof.
  induction fuel as [| fuel IH]; intros value n k s Hb Hfuel; simpl.
  - replace (k <? n) with false by lia. discriminate.
  - destruct (Z.ltb_spec k n) as [Hlt | Hge]; [| discriminate].
    pose proof (write_body_cases value n k s) as Hbody.
    destruct (BitStream.write_body value n k s) as [k' s1 | s1 | e s1];
      [| discriminate | discriminate].
    destruct Hbody as (Hbtw & -> & b & Hlen & ->).
    apply IH; [apply advance_bit_pos; simpl; lia | lia].
Qed.

Lemma calls_terminate (s : BitStream.t) (value n : Z) :
  BitStream.invariant s ->
  BitStream.read_bits s n <> None /\
  BitStream.read_bits_u128 s n <> None /\
  BitStream.write_bits s value n <> None /\
  BitStream.write_bits_u128 s value n <> None.
Proof.
  intros Hinv.
  assert (Hread : forall s0 m, BitStream.invariant s0 ->
                    BitStream.read_bits s0 m <> None).
  { intros s0 m (Hb0 & _). unfold BitStream.read_bits.
    destruct (_ || _); [discriminate |].
    destruct (_ >? _); [discriminate |].
    pose proof (read_loop_terminates (Z.to_nat m) m 0 0 s0 Hb0 ltac:(lia)) as Hloop.
    destruct (BitStream.read_loop _ m (0, 0) s0) as [[[r k] s1 | e s1] |];
      [discriminate | discriminate | contradiction]. }
  assert (Hwrite : forall s0 v m, BitStream.invariant s0 ->
                     BitStream.write_bits s0 v m <> None).
  { intros s0 v m (Hb0 & _). unfold BitStream.write_bits.
    destruct (_ || _); [discriminate |].
    set (s1 := if _ >? _ then _ else s0).
    assert (Hb1 : 0 <= bit_pos s1 < 8) by (unfold s1; destruct (_ >? _); exact Hb0).
    pose proof (write_loop_terminates (Z.to_nat m) v m 0 s1 Hb1 ltac:(lia)) as Hloop.
    destruct (BitStream.write_loop _ v m 0 s1) as [[[] s2 | e s2] |];
      [discriminate | discriminate | contradiction]. }
  split; [apply Hread; assumption |].
  split; [| split; [apply Hwrite; assumption |]].
  - unfold BitStream.read_bits_u128.
    destruct (_ || _); [discriminate |].
    destruct (n <=? 64); [apply Hread; assumption |].
    destruct (_ >? _); [discriminate |].
    pose proof (read_bits_outcome s (n - 64) Hinv) as H1.
    pose proof (Hread s (n - 64) Hinv) as T1.
    destruct (BitStream.read_bits s (n - 64)) as [[high s1 | e s1] |];
      [| discriminate | contradiction].
    destruct H1 as (Hinv1 & _).
    pose proof (Hread s1 64 Hinv1) as T2.
    destruct (BitStream.read_bits s1 64) as [[low s2 | e s2] |];
      [discriminate | discriminate | contradiction].
  - unfold BitStream.write_bits_u128.
    destruct (_ || _); [discriminate |].
    destruct (n <=? 64); [apply Hwrite; assumption |].
    pose proof (write_bits_outcome s (Z.shiftr value 64) (n - 64) Hinv) as H1.
    pose proof (Hwrite s (Z.shiftr value 64) (n - 64) Hinv) as T1.
    destruct (BitStream.write_bits s (Z.shiftr value 64) (n - 64))
      as [[[] s1 | e s1] |]; [| discriminate | contradiction].
    apply Hwrite. exact H1.
Qed.

(** Every state a caller can reach satisfies the invariant. *)
Lemma reachable_invariant (s : BitStream.t) :
  BitStream.reachable s -> BitStream.invariant s.
Proof.
  induction 1 as [data | s data _ _ | s n v s' _ IH Hcall | s n v s' _ IH Hcall
                  | s value n s' _ IH Hcall | s value n s' _ IH Hcall
                  | s p s' _ IH Hcall | s _ IH].
  - unfold BitStream.invariant, BitStream.init, BitStream.position,
      BitStream.len_buffer. simpl. lia.
  - unfold BitStream.invariant, BitStream.from_bytes, BitStream.position,
      BitStream.len_buffer. simpl. lia.
  - pose proof (read_bits_outcome s n IH) as H. rewrite Hcall in H. apply H.
  - pose proof (read_bits_u128_outcome s n IH) as H. rewrite Hcall in H. exact H.
  - pose proof (write_bits_outcome s value n IH) as H. rewrite Hcall in H. exact H.
  - pose proof (write_bits_u128_outcome s value n IH) as H. rewrite Hcall in H.
    exact H.
  - pose proof (set_position_outcome s p IH) as H. rewrite Hcall in H. exact H.
  - destruct IH as (Hb & Hbl & Hpos).
    unfold BitStream.invariant, BitStream.reset, BitStream.position,
      BitStream.len_buffer in *. simpl. lia.
Qed.

(** C8: every state reached from construction or [from_bytes] through
    calls of [read_bits], [read_bits_u128], [write_bits],
    [write_bits_u128], [set_position] and [reset] that return without an
    exception has [bit_length <= 8 * len(buffer)] and
    [position() <= bit_length]. *)
Theorem C8_reachable_states_keep_invariant (s : BitStream.t) :
  BitStream.reachable s ->
  BitStream._bit_length s <= 8 * Z.of_nat (length (BitStream._buffer s)) /\
  BitStream.position s <= BitStream._bit_length s.
Proof.
  intros Hreach. destruct (reachable_invariant s Hreach) as (_ & Hbl & Hpos).
  unfold BitStream.len_buffer in Hbl. lia.
Qed.


End Invariant.

(** ** Typed reads *)

Section BitValues.

Lemma shiftl_bounded (x a sh : Z) :
  0 <= a -> 0 <= sh -> 0 <= x < 2 ^ a -> 0 <= Z.shiftl x sh < 2 ^ (a + sh).
Proof.
  intros Ha Hsh Hx. rewrite Z.shiftl_mul_pow2, Z.pow_add_r by lia.
  assert (0 < 2 ^ sh) by (apply Z.pow_pos_nonneg; lia). nia.
Qed.

Lemma pow2_le (a b : Z) : 0 <= a <= b -> 2 ^ a <= 2 ^ b.
Proof. intros H. apply Z.pow_le_mono_r; lia. Qed.

(** The test [value & (1 << m)] of the sign reinterpretation. *)
Lemma sign_bit_test (v m : Z) :
  0 <= m -> negb (Z.land v (Z.shiftl 1 m) =? 0) = Z.testbit v m.
Proof.
  intros Hm. rewrite Z.shiftl_1_l.
  assert (E : Z.land v (2 ^ m) = if Z.testbit v m then 2 ^ m else 0).
  { apply Z.bits_inj'. intros i Hi. rewrite Z.land_spec, Z.pow2_bits_eqb by lia.
    destruct (Z.eqb_spec m i) as [-> | Hne].
    - destruct (Z.testbit v i); simpl.
      + rewrite Z.pow2_bits_eqb, Z.eqb_refl by lia. reflexivity.
      + rewrite Z.bits_0. reflexivity.
    - rewrite andb_false_r. destruct (Z.testbit v m).
      + rewrite Z.pow2_bits_eqb by lia.
        destruct (Z.eqb_spec m i); [contradiction | reflexivity].
      + rewrite Z.bits_0. reflexivity. }
  rewrite E. destruct (Z.testbit v m); [| reflexivity].
  assert (0 < 2 ^ m) by (apply Z.pow_pos_nonneg; lia).
  destruct (Z.eqb_spec (2 ^ m) 0); [lia | reflexivity].
Qed.

(** Whatever the state, the read loop keeps its result below
    [2^bit_count]. *)
Lemma read_loop_range (fuel : nat) :
  forall (n acc k : Z) (s s' : BitStream.t) (r k' : Z),
    0 <= k <= n -> 0 <= acc < 2 ^ n ->
    BitStream.read_loop fuel n (acc, k) s = Some (Return (r, k') s') ->
    0 <= r < 2 ^ n.
Proof.
  induction fuel as [| fuel IH]; intros n acc k s s' r k' Hk Hacc.
  - simpl. destruct (k <? n); [discriminate |].
    intros H; inversion H; subst. exact Hacc.
  - change (BitStream.read_loop (S fuel) n (acc, k) s)
      with (if k <? n
            then match BitStream.read_body n (acc, k) s with
                 | Next acc' s0 => BitStream.read_loop fuel n acc' s0
                 | Break s0 => Some (Return (acc, k) s0)
                 | Throw e s0 => Some (Raise e s0)
                 end
            else Some (Return (acc, k) s)).
    destruct (Z.ltb_spec k n) as [Hlt | Hge];
      [| intros H; inversion H; subst; exact Hacc].
    unfold BitStream.read_body.
    destruct (BitStream._byte_pos s >=? BitStream.len_buffer s).
    { destruct (k =? 0); [discriminate |].
      intros H; inversion H; subst; exact Hacc. }
    destruct (bytearray_getitem _ _) as [byte |]; [| discriminate].
    set (btr := Z.min (n - k) (8 - BitStream._bit_pos s)).
    destruct (Z.ltb_spec btr 0) as [Hneg | Hpos]; [discriminate |].
    apply IH; [lia |].
    apply lor_bounded; [lia | exact Hacc |].
    pose proof (extracted_bounded byte (8 - BitStream._bit_pos s - btr) btr Hpos)
      as Hchunk.
    pose proof (shiftl_bounded _ btr (n - k - btr) Hpos ltac:(lia) Hchunk) as Hsh.
    pose proof (pow2_le (btr + (n - k - btr)) n ltac:(lia)). lia.
Qed.

Lemma read_bits_range (s s' : BitStream.t) (n r : Z) :
  BitStream.read_bits s n = Some (Return r s') -> 1 <= n <= 64 /\ 0 <= r < 2 ^ n.
Proof.
  unfold BitStream.read_bits.
  destruct (Z.leb_spec n 0) as [H0 | H0]; simpl; [discriminate |].
  destruct (Z.gtb_spec n 64) as [H64 | H64]; [discriminate |].
  destruct (_ >? _); [discriminate |].
  destruct (BitStream.read_loop _ n (0, 0) s) as [[[r0 k0] s0 | e s0] |] eqn:E;
    try discriminate.
  intros H; inversion H; subst. split; [lia |].
  eapply read_loop_range; [| | exact E]; [lia |].
  split; [lia | apply Z.pow_pos_nonneg; lia].
Qed.

Lemma read_bits_u128_small (s : BitStream.t) (n : Z) :
  1 <= n <= 64 -> BitStream.read_bits_u128 s n = BitStream.read_bits s n.
Proof.
  intros Hn. unfold BitStream.read_bits_u128.
  replace ((n <=? 0) || (n >? 128)) with false by lia.
  replace (n <=? 64) with true by lia. reflexivity.
Qed.

Lemma read_bits_u128_range (s s' : BitStream.t) (n r : Z) :
  BitStream.read_bits_u128 s n = Some (Return r s') ->
  1 <= n <= 128 /\ 0 <= r < 2 ^ n.
Proof.
  unfold BitStream.read_bits_u128.
  destruct (Z.leb_spec n 0) as [H0 | H0]; simpl; [discriminate |].
  destruct (Z.gtb_spec n 128) as [H128 | H128]; [discriminate |].
  destruct (Z.leb_spec n 64) as [Hsmall | Hbig].
  { intros H. apply read_bits_range in H. lia. }
  destruct (_ >? _); [discriminate |].
  destruct (BitStream.read_bits s (n - 64)) as [[high s1 | e s1] |] eqn:E1;
    try discriminate.
  destruct (BitStream.read_bits s1 64) as [[low s2 | e s2] |] eqn:E2;
    try discriminate.
  intros H; inversion H; subst. split; [lia |].
  apply read_bits_range in E1 as [_ Hhigh], E2 as [_ Hlow].
  apply lor_bounded; [lia | |].
  - pose proof (shiftl_bounded high (n - 64) 64 ltac:(lia) ltac:(lia) Hhigh) as Hsh.
    replace (n - 64 + 64) with n in Hsh by lia. exact Hsh.
  - pose proof (pow2_le 64 n ltac:(lia)). lia.
Qed.

(** The constructor call at the end of [read_bit_value], on a raw value in
    range. *)
Lemma as_bit_value_tags (raw n : Z) (sg : bool) (s s' : BitStream.t) (bv : BitValue.t) :
  1 <= n -> 0 <= raw < 2 ^ n ->
  BitStream.as_bit_value raw n sg s = Return bv s' ->
  s' = s /\
  BitValue.bit_count bv = n /\
  BitValue.to_int bv = (if sg && Z.testbit raw (n - 1) then raw - 2 ^ n else raw) /\
  BitValue.is_signed bv = sg && Z.testbit raw (n - 1).
Proof.
  intros Hn Hraw. unfold BitStream.as_bit_value.
  rewrite sign_bit_test by lia. rewrite Z.shiftl_1_l.
  set (negative := sg && Z.testbit raw (n - 1)).
  set (value := if negative then raw - 2 ^ n else raw).
  assert (Hsign : (value <? 0) = negative).
  { unfold value. destruct negative; lia. }
  destruct (BitValue.init value (Some n)) as [e | bv0] eqn:E; [discriminate |].
  intros H; inversion H; subst. split; [reflexivity |].
  unfold BitValue.init in E. rewrite Hsign in E.
  destruct ((n <=? 0) || (n >? 128)); [discriminate |].
  destruct negative.
  - destruct (_ || _); [discriminate |]. inversion E; subst. simpl. auto.
  - destruct (_ || _); [discriminate |]. inversion E; subst. simpl. auto.
Qed.

(** C4 (as the code has it): a successful [read_bit_value(n, is_signed)]
    has [n] in 1..128 and returns a BitValue with [bit_count = n] whose
    value is the raw read, less [2^n] exactly when [is_signed] is true and
    bit [n-1] of the raw read is set; its [is_signed] tag is true exactly
    in that case, as the constructor derives it from the sign of the
    value. *)
Theorem C4_read_bit_value_result
        (s s' : BitStream.t) (n : Z) (is_signed : bool) (bv : BitValue.t) :
  BitStream.read_bit_value s n is_signed = Some (Return bv s') ->
  exists raw,
    BitStream.read_bits_u128 s n = Some (Return raw s') /\
    1 <= n <= 128 /\
    BitValue.bit_count bv = n /\
    BitValue.to_int bv
      = (if is_signed && Z.testbit raw (n - 1) then raw - 2 ^ n else raw) /\
    BitValue.is_signed bv = is_signed && Z.testbit raw (n - 1).
Proof.
  unfold BitStream.read_bit_value.
  destruct (Z.leb_spec n 64) as [Hsmall | Hbig].
  - destruct (BitStream.read_bits s n) as [[raw s1 | e s1] |] eqn:E;
      try discriminate.
    intros H; inversion H as [Hbv]; clear H.
    pose proof (read_bits_range _ _ _ _ E) as [Hn Hraw].
    apply as_bit_value_tags in Hbv as (-> & Hcount & Hval & Htag); [| lia | exact Hraw].
    exists raw. rewrite read_bits_u128_small by lia.
    repeat split; try assumption; lia.
  - destruct (BitStream.read_bits_u128 s n) as [[raw s1 | e s1] |] eqn:E;
      try discriminate.
    intros H; inversion H as [Hbv]; clear H.
    pose proof (read_bits_u128_range _ _ _ _ E) as [Hn Hraw].
    apply as_bit_value_tags in Hbv as (-> & Hcount & Hval & Htag); [| lia | exact Hraw].
    exists raw. repeat split; try assumption; lia.
Qed.

(** C4 as stated fails: over the byte [0x00], [read_bit_value(8, True)]
    succeeds and its BitValue is tagged unsigned. *)
Lemma C4_tag_is_not_the_requested_flag :
  ~ (forall (s s' : BitStream.t) (n : Z) (is_signed : bool) (bv : BitValue.t),
       1 <= n <= 128 ->
       BitStream.read_bit_value s n is_signed = Some (Return bv s') ->
       BitValue.is_signed bv = is_signed).
Proof.
  intros H.
  specialize (H (BitStream.init (Some [0])) (BitStream.mk [0] 1 0 8) 8 true
                (BitValue.mk 0 8 false) ltac:(lia)).
  assert (E : BitStream.read_bit_value (BitStream.init (Some [0])) 8 true
              = Some (Return (BitValue.mk 0 8 false) (BitStream.mk [0] 1 0 8)))
    by (vm_compute; reflexivity).
  apply H in E. discriminate.
Qed.

End BitValues.

(** ** The reader at the end of its source *)

Section ReaderEnd.

Local Abbreviation available := BitStreamReader.available_bits.
Local Abbreviation buffered := BitStreamReader.buffered_bits.
Local Abbreviation wf := BitStreamReader.well_formed.

Lemma bytesio_read_spec (f : BytesIO.t) (k : Z) :
  0 <= BytesIO.pos f -> 0 <= k ->
  Z.of_nat (length (fst (BytesIO.read f k))) = Z.min k (BytesIO.remaining f) /\
  BytesIO.remaining (snd (BytesIO.read f k))
    = BytesIO.remaining f - Z.min k (BytesIO.remaining f) /\
  0 <= BytesIO.pos (snd (BytesIO.read f k)).
Proof.
  intros Hpos Hk. unfold BytesIO.read, BytesIO.remaining. simpl.
  rewrite !length_drop, length_take, length_drop. lia.
Qed.

Lemma remaining_nonneg (f : BytesIO.t) : 0 <= BytesIO.remaining f.
Proof. unfold BytesIO.remaining. lia. Qed.

Lemma buffered_nonneg (r : BitStreamReader.t) : wf r -> 0 <= buffered r.
Proof.
  intros (Hy & Hb & _). unfold BitStreamReader.buffered_bits.
  destruct (Z.geb_spec (BitStreamReader._byte_pos r) (BitStreamReader._buffer_size r));
    lia.
Qed.

(** A refill from an exhausted source. *)
Lemma fill_buffer_empty (r : BitStreamReader.t) :
  wf r -> BytesIO.remaining (BitStreamReader._stream r) = 0 ->
  let r1 := BitStreamReader._fill_buffer r in
  BitStreamReader._buffer_size r1 = 0 /\
  wf (BitStreamReader.with_eof r1 true) /\
  available (BitStreamReader.with_eof r1 true) = 0.
Proof.
  intros (Hy & Hb & Hsz & Hcap & Hpos & Heof) Hrem.
  pose proof (bytesio_read_spec (BitStreamReader._stream r)
                (Z.of_nat (length (BitStreamReader._buffer r))) Hpos ltac:(lia))
    as (Hlen & Hrem' & Hpos').
  unfold BitStreamReader._fill_buffer.
  destruct (BytesIO.read _ _) as [bytes_read f] eqn:E. simpl in *.
  destruct bytes_read as [| b bs]; [| simpl in Hlen; lia].
  unfold BitStreamReader.well_formed, BitStreamReader.available_bits,
    BitStreamReader.buffered_bits. simpl. repeat split; try lia.
Qed.

(** A refill from a source that still has bytes, by a reader whose buffer
    is drained. *)
Lemma fill_buffer_some (r : BitStreamReader.t) :
  wf r -> 0 < BytesIO.remaining (BitStreamReader._stream r) ->
  BitStreamReader._byte_pos r >= BitStreamReader._buffer_size r ->
  BitStreamReader._eof r = false ->
  let r1 := BitStreamReader._fill_buffer r in
  BitStreamReader._byte_pos r1 < BitStreamReader._buffer_size r1 /\
  wf r1 /\ available r1 = available r.
Proof.
  intros (Hy & Hb & Hsz & Hcap & Hpos & Heof) Hrem Hdrained Hflag.
  pose proof (bytesio_read_spec (BitStreamReader._stream r)
                (Z.of_nat (length (BitStreamReader._buffer r))) Hpos ltac:(lia))
    as (Hlen & Hrem' & Hpos').
  unfold BitStreamReader._fill_buffer.
  destruct (BytesIO.read _ _) as [bytes_read f] eqn:E. simpl in *.
  destruct bytes_read as [| b bs] eqn:Eb; [simpl in Hlen; lia |].
  rewrite <- Eb in *. clear Eb.
  unfold BitStreamReader.well_formed, BitStreamReader.available_bits,
    BitStreamReader.buffered_bits. simpl.
  rewrite Hflag, length_app, length_drop.
  replace (BitStreamReader._byte_pos r >=? BitStreamReader._buffer_size r)
    with true by lia.
  replace (0 >=? Z.of_nat (length bytes_read)) with false by lia.
  repeat split; lia.
Qed.

Lemma reader_advance_fields (r : BitStreamReader.t) (k : Z) :
  BitStreamReader._stream (BitStreamReader.advance r k) = BitStreamReader._stream r /\
  BitStreamReader._buffer (BitStreamReader.advance r k) = BitStreamReader._buffer r /\
  BitStreamReader._buffer_size (BitStreamReader.advance r k)
    = BitStreamReader._buffer_size r /\
  BitStreamReader._eof (BitStreamReader.advance r k) = BitStreamReader._eof r /\
  BitStreamReader._byte_pos (BitStreamReader.advance r k) * 8
    + BitStreamReader._bit_pos (BitStreamReader.advance r k)
  = BitStreamReader._byte_pos r * 8 + BitStreamReader._bit_pos r + k.
Proof.
  unfold BitStreamReader.advance.
  destruct (Z.eqb_spec (BitStreamReader._bit_pos r + k) 8); simpl;
    repeat split; try reflexivity; lia.
Qed.

(** Taking bits from the current byte of a buffer that is not drained. *)
Lemma take_bits_spec (n acc k : Z) (r : BitStreamReader.t) :
  wf r -> BitStreamReader._byte_pos r < BitStreamReader._buffer_size r ->
  0 <= k < n -> 0 <= acc < 2 ^ k ->
  let btr := Z.min (n - k) (8 - BitStreamReader._bit_pos r) in
  exists acc',
    BitStreamReader.take_bits n (acc, k) r
      = Next (acc', k + btr) (BitStreamReader.advance r btr) /\
    0 <= acc' < 2 ^ (k + btr) /\
    1 <= btr <= available r /\
    wf (BitStreamReader.advance r btr) /\
    available (BitStreamReader.advance r btr) = available r - btr.
Proof.
  intros Hwf Hin Hk Hacc btr.
  pose proof Hwf as (Hy & Hb & Hsz & Hcap & Hpos & Heof).
  pose proof (remaining_nonneg (BitStreamReader._stream r)) as Hrem.
  assert (Hbuf : buffered r
                 = 8 * (BitStreamReader._buffer_size r - BitStreamReader._byte_pos r)
                   - BitStreamReader._bit_pos r).
  { unfold BitStreamReader.buffered_bits.
    replace (BitStreamReader._byte_pos r >=? BitStreamReader._buffer_size r)
      with false by lia. reflexivity. }
  assert (Hflag : BitStreamReader._eof r = false).
  { destruct (BitStreamReader._eof r); [| reflexivity].
    specialize (Heof eq_refl). unfold BitStreamReader.available_bits in Heof. lia. }
  destruct (lookup_in_range (BitStreamReader._buffer r) (BitStreamReader._byte_pos r)
              ltac:(lia)) as [byte Hbyte].
  unfold BitStreamReader.take_bits. fold btr.
  rewrite getitem_in_range, Hbyte by lia.
  replace ((btr <? 0) || (BitStreamReader._bit_pos r <? 0)) with false by lia.
  eexists. split; [reflexivity |].
  destruct (reader_advance_fields r btr) as (Hst & Hbf & Hbs & Hef & Hcur).
  assert (Hcur' : 0 <= BitStreamReader._bit_pos (BitStreamReader.advance r btr) < 8
                  /\ BitStreamReader._byte_pos r
                     <= BitStreamReader._byte_pos (BitStreamReader.advance r btr)).
  { unfold BitStreamReader.advance.
    destruct (Z.eqb_spec (BitStreamReader._bit_pos r + btr) 8); simpl; lia. }
  assert (Hbuf' : buffered (BitStreamReader.advance r btr) = buffered r - btr).
  { rewrite Hbuf. unfold BitStreamReader.buffered_bits. rewrite Hbs.
    destruct (Z.geb_spec (BitStreamReader._byte_pos (BitStreamReader.advance r btr))
                         (BitStreamReader._buffer_size r)); lia. }
  split.
  { apply lor_bounded; [lia | |].
    - pose proof (pow2_le k (k + btr) ltac:(lia)). lia.
    - pose proof (extracted_bounded byte (BitStreamReader._bit_pos r) btr ltac:(lia))
        as Hchunk.
      pose proof (shiftl_bounded _ btr k ltac:(lia) ltac:(lia) Hchunk) as Hsh.
      replace (k + btr) with (btr + k) by lia. exact Hsh. }
  split; [unfold BitStreamReader.available_bits; lia |].
  split.
  - unfold BitStreamReader.well_formed. rewrite Hst, Hbf, Hbs, Hef, Hflag.
    repeat split; try lia; try discriminate.
  - unfold BitStreamReader.available_bits. rewrite Hst, Hbuf'. lia.
Qed.

Lemma reader_loop_done (fuel : nat) (n acc k : Z) (r : BitStreamReader.t) :
  n <= k -> BitStreamReader.read_loop fuel n (acc, k) r = Some (Return (acc, k) r).
Proof.
  intros H. destruct fuel; simpl; replace (k <? n) with false by lia; reflexivity.
Qed.

Lemma reader_loop_step (fuel : nat) (n acc k : Z) (r : BitStreamReader.t) :
  k < n ->
  BitStreamReader.read_loop (S fuel) n (acc, k) r
  = match BitStreamReader.read_body n (acc, k) r with
    | Next acc' r' => BitStreamReader.read_loop fuel n acc' r'
    | Break r' => Some (Return (acc, k) r')
    | Throw e r' => Some (Raise e r')
    end.
Proof.
  intros H. simpl. replace (k <? n) with true by lia. reflexivity.
Qed.

(** The read loop of the reader. With [a] bits available and [n - k] bits
    still wanted it reads [m = min (n - k) a] of them; with nothing read
    at all it raises [EndOfStreamError], otherwise it returns what it has,
    short or not. *)
Lemma reader_loop_spec (fuel : nat) :
  forall (n acc k : Z) (r : BitStreamReader.t),
    wf r -> 0 < n -> 0 <= k <= n -> 0 <= acc < 2 ^ k ->
    (Z.to_nat (n - k) <= fuel)%nat ->
    let m := Z.min (n - k) (available r) in
    if k + m =? 0
    then exists r',
        BitStreamReader.read_loop fuel n (acc, k) r
          = Some (Raise EndOfStreamError r') /\
        wf r' /\ available r' = 0 /\ BitStreamReader._eof r' = true
    else exists v r',
        BitStreamReader.read_loop fuel n (acc, k) r = Some (Return (v, k + m) r') /\
        wf r' /\ available r' = available r - m /\ 0 <= v < 2 ^ (k + m) /\
        (m < n - k -> BitStreamReader._eof r' = true).
Proof.
  induction fuel as [| fuel IH]; intros n acc k r Hwf Hn Hk Hacc Hfuel m;
    pose proof (buffered_nonneg r Hwf) as Hbuf0;
    pose proof (remaining_nonneg (BitStreamReader._stream r)) as Hrem0;
    assert (Ha : 0 <= available r)
      by (unfold BitStreamReader.available_bits; lia).
  - assert (k = n) by lia. subst k. assert (Hm : m = 0) by (unfold m; lia).
    rewrite Hm. replace (n + 0 =? 0) with false by lia.
    exists acc, r. rewrite reader_loop_done by lia. rewrite Z.add_0_r, Z.sub_0_r.
    repeat split; try apply Hwf; lia.
  - destruct (Z.ltb_spec k n) as [Hlt | Hge].
    2:{ assert (k = n) by lia. subst k. assert (Hm : m = 0) by (unfold m; lia).
        rewrite Hm. replace (n + 0 =? 0) with false by lia.
        exists acc, r. rewrite reader_loop_done by lia. rewrite Z.add_0_r, Z.sub_0_r.
        repeat split; try apply Hwf; lia. }
    rewrite reader_loop_step by assumption.
    pose (Q := fun res : option (outcome BitStreamReader.t (Z * Z)) =>
                 if k + m =? 0
                 then exists r', res = Some (Raise EndOfStreamError r') /\
                                 wf r' /\ available r' = 0 /\
                                 BitStreamReader._eof r' = true
                 else exists v r', res = Some (Return (v, k + m) r') /\
                                   wf r' /\ available r' = available r - m /\
                                   0 <= v < 2 ^ (k + m) /\
                                   (m < n - k -> BitStreamReader._eof r' = true)).
    change (Q (match BitStreamReader.read_body n (acc, k) r with
               | Next acc' r' => BitStreamReader.read_loop fuel n acc' r'
               | Break r' => Some (Return (acc, k) r')
               | Throw e r' => Some (Raise e r')
               end)).
    (* taking bits from a buffer that has some, then the rest of the loop *)
    assert (Htake : forall r0,
               wf r0 ->
               BitStreamReader._byte_pos r0 < BitStreamReader._buffer_size r0 ->
               available r0 = available r ->
               Q (match BitStreamReader.take_bits n (acc, k) r0 with
                  | Next acc' r' => BitStreamReader.read_loop fuel n acc' r'
                  | Break r' => Some (Return (acc, k) r')
                  | Throw e r' => Some (Raise e r')
                  end)).
    { intros r0 Hwf0 Hin0 Hav0.
      destruct (take_bits_spec n acc k r0 Hwf0 Hin0 ltac:(lia) Hacc)
        as (acc' & Hbody & Hacc' & Hbtr & Hwf1 & Hav1).
      set (btr := Z.min (n - k) (8 - BitStreamReader._bit_pos r0)) in *.
      rewrite Hbody.
      specialize (IH n acc' (k + btr) (BitStreamReader.advance r0 btr)
                     Hwf1 Hn ltac:(lia) Hacc' ltac:(lia)).
      simpl in IH. rewrite Hav1, Hav0 in IH.
      assert (Em : Z.min (n - (k + btr)) (available r - btr) = m - btr)
        by (unfold m; lia).
      rewrite Em in IH.
      replace (k + btr + (m - btr)) with (k + m) in IH by lia.
      assert (Hkm : 0 < k + m) by (unfold m; lia).
      unfold Q. replace (k + m =? 0) with false in * by lia.
      destruct IH as (v & r' & Hrun & Hwf' & Hav' & Hv & Hshort).
      exists v, r'. split; [exact Hrun |]. split; [exact Hwf' |].
      split; [lia |]. split; [exact Hv |]. intros Hlt'. apply Hshort. lia. }
    (* the source is exhausted and the buffer drained *)
    assert (Hend : forall r0,
               wf r0 -> available r0 = 0 -> available r = 0 ->
               BitStreamReader._eof r0 = true ->
               Q (match (if k =? 0 then Throw EndOfStreamError r0 else Break r0) with
                  | Next acc' r' => BitStreamReader.read_loop fuel n acc' r'
                  | Break r' => Some (Return (acc, k) r')
                  | Throw e r' => Some (Raise e r')
                  end)).
    { intros r0 Hwf0 Hav0 Hav Hflag0.
      assert (Hm : m = 0) by (unfold m; lia).
      unfold Q. rewrite Hm, Z.add_0_r.
      destruct (Z.eqb_spec k 0) as [-> | Hk0].
      - exists r0. split; [reflexivity |]. split; [exact Hwf0 |].
        split; assumption.
      - exists acc, r0. rewrite Hav. split; [reflexivity |]. split; [exact Hwf0 |].
        split; [lia |]. split; [lia |]. intros _. exact Hflag0. }
    destruct (Z.geb_spec (BitStreamReader._byte_pos r) (BitStreamReader._buffer_size r))
      as [Hdrained | Hin].
    2:{ assert (Hbody : BitStreamReader.read_body n (acc, k) r
                        = BitStreamReader.take_bits n (acc, k) r).
        { unfold BitStreamReader.read_body.
          replace (BitStreamReader._byte_pos r >=? BitStreamReader._buffer_size r)
            with false by lia. reflexivity. }
        rewrite Hbody. apply Htake; [assumption | lia | reflexivity]. }
    assert (Hbuf : buffered r = 0).
    { unfold BitStreamReader.buffered_bits.
      replace (BitStreamReader._byte_pos r >=? BitStreamReader._buffer_size r)
        with true by lia. reflexivity. }
    destruct (BitStreamReader._eof r) eqn:Hflag.
    { pose proof Hwf as (_ & _ & _ & _ & _ & Heof).
      rewrite Hflag in Heof. specialize (Heof eq_refl).
      assert (Hbody : BitStreamReader.read_body n (acc, k) r
                      = if k =? 0 then Throw EndOfStreamError r else Break r).
      { unfold BitStreamReader.read_body.
        replace (BitStreamReader._byte_pos r >=? BitStreamReader._buffer_size r)
          with true by lia. rewrite Hflag. reflexivity. }
      rewrite Hbody. apply Hend; assumption. }
    destruct (Z.eq_dec (BytesIO.remaining (BitStreamReader._stream r)) 0)
      as [Hnone | Hsome].
    + destruct (fill_buffer_empty r Hwf Hnone) as (Hsz1 & Hwf1 & Hav1).
      set (r2 := BitStreamReader.with_eof (BitStreamReader._fill_buffer r) true) in *.
      assert (Hbody : BitStreamReader.read_body n (acc, k) r
                      = if k =? 0 then Throw EndOfStreamError r2 else Break r2).
      { unfold BitStreamReader.read_body.
        replace (BitStreamReader._byte_pos r >=? BitStreamReader._buffer_size r)
          with true by lia. rewrite Hflag, Hsz1. reflexivity. }
      rewrite Hbody. apply Hend; try assumption; [| reflexivity].
      unfold BitStreamReader.available_bits. lia.
    + destruct (fill_buffer_some r Hwf ltac:(lia) ltac:(lia) Hflag)
        as (Hin1 & Hwf1 & Hav1).
      pose proof Hwf1 as (Hy1 & _).
      assert (Hbody : BitStreamReader.read_body n (acc, k) r
                      = BitStreamReader.take_bits n (acc, k)
                                                  (BitStreamReader._fill_buffer r)).
      { unfold BitStreamReader.read_body.
        replace (BitStreamReader._byte_pos r >=? BitStreamReader._buffer_size r)
          with true by lia. rewrite Hflag.
        replace (BitStreamReader._buffer_size (BitStreamReader._fill_buffer r) =? 0)
          with false by lia.
        reflexivity. }
      rewrite Hbody. apply Htake; assumption.
Qed.

(** What the reader's [read_bits] does near the end of its source: for
    [n] in 1..64, with [a] bits left in the buffer and the source
    together, it raises [EndOfStreamError] when [a = 0]; when [0 < a < n]
    it does not raise but returns the [a] bits it could read, as a value
    below [2^a], and leaves the end-of-source flag set; when [n <= a] it
    returns with exactly [n] bits read. *)
Lemma reader_read_bits_at_end_of_source (r : BitStreamReader.t) (n : Z) :
  BitStreamReader.well_formed r -> 1 <= n <= 64 ->
  let a := BitStreamReader.available_bits r in
  (a = 0 ->
   exists r', BitStreamReader.read_bits r n = Some (Raise EndOfStreamError r')) /\
  (0 < a < n ->
   exists v r',
     BitStreamReader.read_bits_counted r n = Some (Return (v, a) r') /\
     BitStreamReader.read_bits r n = Some (Return v r') /\
     0 <= v < 2 ^ a /\ BitStreamReader._eof r' = true) /\
  (n <= a ->
   exists v r',
     BitStreamReader.read_bits_counted r n = Some (Return (v, n) r') /\
     BitStreamReader.read_bits r n = Some (Return v r')).
Proof.
  intros Hwf Hn a.
  pose proof (reader_loop_spec (Z.to_nat n) n 0 0 r Hwf ltac:(lia) ltac:(lia)
                ltac:(simpl; lia) ltac:(lia)) as Hloop.
  cbv zeta in Hloop. rewrite !Z.sub_0_r, !Z.add_0_l in Hloop.
  change (BitStreamReader.available_bits r) with a in Hloop.
  assert (Hcounted : BitStreamReader.read_bits_counted r n
                     = BitStreamReader.read_loop (Z.to_nat n) n (0, 0) r).
  { unfold BitStreamReader.read_bits_counted.
    replace ((n <=? 0) || (n >? 64)) with false by lia. reflexivity. }
  unfold BitStreamReader.read_bits. rewrite Hcounted.
  split; [| split].
  - intros Ha. replace (Z.min n a) with 0 in Hloop by lia.
    rewrite Z.eqb_refl in Hloop. destruct Hloop as (r' & Hrun & _).
    exists r'. rewrite Hrun. reflexivity.
  - intros Ha. replace (Z.min n a) with a in Hloop by lia.
    replace (a =? 0) with false in Hloop by lia.
    destruct Hloop as (v & r' & Hrun & _ & _ & Hv & Hshort).
    exists v, r'. rewrite Hrun. repeat split; try lia. apply Hshort. lia.
  - intros Ha. replace (Z.min n a) with n in Hloop by lia.
    replace (n =? 0) with false in Hloop by lia.
    destruct Hloop as (v & r' & Hrun & _).
    exists v, r'. rewrite Hrun. split; reflexivity.
Qed.

(** C5: over the one-byte source [0xFF], [read_bits(16)] raises nothing.
    After the eight bits of the byte the refill finds the source empty;
    with [bits_read = 8] the loop leaves through [break], and the call
    returns 0xFF with only eight bits read, which the caller cannot tell
    from a sixteen-bit result. The same request on the in-memory stream
    raises [EndOfStreamError]. So a non-error return need not deliver
    [n] bits. *)
Theorem C5_short_read_is_returned :
  BitStreamReader.read_bits_counted (BitStreamReader.init (BytesIO.mk [255] 0) 4) 16
    = Some (Return (255, 8)
              (BitStreamReader.mk (BytesIO.mk [255] 1) [255; 0; 0; 0] 0 0 0 true)) /\
  BitStreamReader.read_bits (BitStreamReader.init (BytesIO.mk [255] 0) 4) 16
    = Some (Return 255
              (BitStreamReader.mk (BytesIO.mk [255] 1) [255; 0; 0; 0] 0 0 0 true)) /\
  BitStream.read_bits (BitStream.init (Some [255])) 16
    = Some (Raise EndOfStreamError (BitStream.init (Some [255]))) /\
  ~ (forall (r r' : BitStreamReader.t) (n v k : Z),
       1 <= n <= 64 ->
       BitStreamReader.read_bits_counted r n = Some (Return (v, k) r') ->
       k = n).
Proof.
  assert (E : BitStreamReader.read_bits_counted
                (BitStreamReader.init (BytesIO.mk [255] 0) 4) 16
              = Some (Return (255, 8)
                        (BitStreamReader.mk (BytesIO.mk [255] 1) [255; 0; 0; 0]
                                            0 0 0 true)))
    by (vm_compute; reflexivity).
  split; [exact E |]. split; [vm_compute; reflexivity |].
  split; [vm_compute; reflexivity |].
  intros H. apply H in E; [discriminate | lia].
Qed.

End ReaderEnd.

(** ** The theorems at concrete inputs *)

(** C2 on an empty stream: 5 on 3 bits, and a 96-bit value through the
    128-bit calls. *)
Lemma C2_round_trip_witness :
  (exists s1 s2 s3,
     BitStream.write_bits (BitStream.init None) 5 3 = Some (Return tt s1) /\
     BitStream.set_position s1 (BitStream.position (BitStream.init None))
       = Return tt s2 /\
     BitStream.read_bits s2 3 = Some (Return 5 s3)) /\
  (exists s1 s2 s3,
     BitStream.write_bits_u128 (BitStream.init None) (2 ^ 95 + 1) 96
       = Some (Return tt s1) /\
     BitStream.set_position s1 (BitStream.position (BitStream.init None))
       = Return tt s2 /\
     BitStream.read_bits_u128 s2 96 = Some (Return (2 ^ 95 + 1) s3)).
Proof.
  assert (Hc : BitStream.cursor_ok (BitStream.init None))
    by (split; simpl; lia).
  split.
  - apply (proj1 (C2_write_read_round_trip (BitStream.init None) 5 3 Hc
                    ltac:(simpl; lia))).
    lia.
  - apply (proj2 (C2_write_read_round_trip (BitStream.init None) (2 ^ 95 + 1) 96 Hc
                    ltac:(simpl; lia))).
    lia.
Defined.

(** C4 over the byte 0xD6: eight bits read as signed give -42. *)
Lemma C4_read_bit_value_witness :
  exists raw,
    BitStream.read_bits_u128 (BitStream.init (Some [214])) 8
      = Some (Return raw (BitStream.mk [214] 1 0 8)) /\
    1 <= 8 <= 128 /\
    BitValue.bit_count (BitValue.mk (-42) 8 true) = 8 /\
    BitValue.to_int (BitValue.mk (-42) 8 true)
      = (if true && Z.testbit raw (8 - 1) then raw - 2 ^ 8 else raw) /\
    BitValue.is_signed (BitValue.mk (-42) 8 true) = true && Z.testbit raw (8 - 1).
Proof.
  apply (C4_read_bit_value_result (BitStream.init (Some [214]))
           (BitStream.mk [214] 1 0 8) 8 true (BitValue.mk (-42) 8 true)).
  vm_compute. reflexivity.
Defined.

(** The same over the one-byte source [0xFF]: sixteen bits are asked for,
    eight come back. *)
Lemma reader_read_bits_at_end_of_source_witness :
  exists v r',
    BitStreamReader.read_bits_counted
      (BitStreamReader.init (BytesIO.mk [255] 0) 4) 16 = Some (Return (v, 8) r') /\
    BitStreamReader.read_bits (BitStreamReader.init (BytesIO.mk [255] 0) 4) 16
      = Some (Return v r') /\
    0 <= v < 2 ^ 8 /\ BitStreamReader._eof r' = true.
Proof.
  assert (Hwf : BitStreamReader.well_formed
                  (BitStreamReader.init (BytesIO.mk [255] 0) 4)).
  { unfold BitStreamReader.well_formed, BitStreamReader.available_bits,
      BitStreamReader.buffered_bits, BytesIO.remaining. simpl.
    repeat split; try lia; discriminate. }
  apply (proj1 (proj2 (reader_read_bits_at_end_of_source
                         (BitStreamReader.init (BytesIO.mk [255] 0) 4) 16 Hwf
                         ltac:(lia)))).
  vm_compute. split; reflexivity.
Defined.

(** C8 on the stream left by writing 5 on 3 bits into an empty stream. *)
Lemma C8_invariant_witness :
  BitStream._bit_length (BitStream.mk [160] 0 3 3)
    <= 8 * Z.of_nat (length (BitStream._buffer (BitStream.mk [160] 0 3 3))) /\
  BitStream.position (BitStream.mk [160] 0 3 3)
    <= BitStream._bit_length (BitStream.mk [160] 0 3 3).
Proof.
  apply C8_reachable_states_keep_invariant.
  apply (BitStream.reach_write_bits (BitStream.init None) 5 3).
  - apply BitStream.reach_init.
  - vm_compute. reflexivity.
Defined.


(** C10 on an empty stream: -1 on 4 bits reads back as 15. *)
Lemma C10_low_bits_witness :
  exists s1 s2 s3,
    BitStream.write_bits (BitStream.init None) (-1) 4 = Some (Return tt s1) /\
    (forall d, 0 <= d < 4 ->
       BitStream.bit_at (BitStream._buffer s1)
                        (BitStream.position (BitStream.init None) + d)
       = Z.testbit (-1) (4 - 1 - d)) /\
    BitStream.set_position s1 (BitStream.position (BitStream.init None))
      = Return tt s2 /\
    BitStream.read_bits s2 4 = Some (Return ((-1) mod 2 ^ 4) s3).
Proof.
  apply (C10_write_bits_keeps_low_bits (BitStream.init None) (-1) 4).
  - split; simpl; lia.
  - lia.
Defined.

(** * Further properties of the code *)

(** ** Construction of a BitValue *)

Section BitValueConstruction.

Lemma shiftl_one (n : Z) : 0 <= n -> Z.shiftl 1 n = 2 ^ n.
Proof. intros Hn. apply Z.shiftl_1_l. Qed.

Lemma int_bit_length_spec (v : Z) :
  v <> 0 ->
  1 <= BitValue.int_bit_length v /\
  2 ^ (BitValue.int_bit_length v - 1) <= Z.abs v < 2 ^ BitValue.int_bit_length v.
Proof.
  intros Hv. unfold BitValue.int_bit_length.
  destruct (Z.eqb_spec v 0) as [E | _]; [contradiction |].
  pose proof (Z.log2_nonneg (Z.abs v)) as Hlog.
  pose proof (Z.log2_spec (Z.abs v) ltac:(lia)) as Hspec.
  replace (Z.log2 (Z.abs v) + 1 - 1) with (Z.log2 (Z.abs v)) by lia.
  replace (Z.log2 (Z.abs v) + 1) with (Z.succ (Z.log2 (Z.abs v))) by lia.
  split; [lia | exact Hspec].
Qed.

(** X1: [BitValue(value, n)] checks the width first and the value second:
    it raises [InvalidBitCountError] exactly when [n] is outside 1..128,
    [ValueError] exactly when [n] is in 1..128 and [value] is below
    [-2^(n-1)] or not below [2^n], and otherwise builds the value with
    width [n] and the tag [value < 0]. *)
Theorem bit_value_init_cases (value n : Z) :
  match BitValue.init value (Some n) with
  | inr bv =>
    1 <= n <= 128 /\ - 2 ^ (n - 1) <= value < 2 ^ n /\
    bv = BitValue.mk value n (value <? 0)
  | inl InvalidBitCountError => n <= 0 \/ 128 < n
  | inl ValueError => 1 <= n <= 128 /\ (value < - 2 ^ (n - 1) \/ 2 ^ n <= value)
  | inl _ => False
  end.
Proof.
  unfold BitValue.init.
  destruct (Z.leb_spec n 0) as [H0 | H0]; simpl; [lia |].
  destruct (Z.gtb_spec n 128) as [H128 | H128]; [lia |].
  rewrite !shiftl_one by lia.
  assert (Hpow : 0 < 2 ^ (n - 1)) by (apply Z.pow_pos_nonneg; lia).
  assert (Hdouble : 2 ^ n = 2 * 2 ^ (n - 1)).
  { replace n with (Z.succ (n - 1)) at 1 by lia. apply Z.pow_succ_r. lia. }
  destruct (Z.ltb_spec value 0) as [Hneg | Hpos].
  - destruct (Z.ltb_spec value (- 2 ^ (n - 1))) as [Hlow | Hlow]; simpl; [lia |].
    destruct (Z.gtb_spec value (2 ^ (n - 1) - 1)) as [Hhigh | Hhigh]; [lia |].
    repeat split; try lia.
  - simpl. destruct (Z.gtb_spec value (2 ^ n - 1)) as [Hhigh | Hhigh]; [lia |].
    repeat split; try lia.
Qed.

(** X2: [BitValue(value)] without a width. A value in [0, 2^128) gets the
    width [max(1, bit_length)], the least one it fits in as unsigned; a
    negative value above [-2^127] gets [bit_length(|value|) + 1], so that
    [-2^(n-1) < value <= -2^(n-2)] (a negative power of two gets one bit
    more than two's complement needs); any other value is refused with
    [InvalidBitCountError], the inferred width being above 128. *)
Theorem bit_value_inferred_width (value : Z) :
  (0 <= value < 2 ^ 128 ->
   exists n,
     BitValue.init value None = inr (BitValue.mk value n false) /\
     1 <= n <= 128 /\ value < 2 ^ n /\ (1 < n -> 2 ^ (n - 1) <= value)) /\
  (- 2 ^ 127 < value < 0 ->
   exists n,
     BitValue.init value None = inr (BitValue.mk value n true) /\
     2 <= n <= 128 /\ - 2 ^ (n - 1) < value <= - 2 ^ (n - 2)) /\
  (2 ^ 128 <= value \/ value <= - 2 ^ 127 ->
   BitValue.init value None = inl InvalidBitCountError).
Proof.
  split; [| split].
  - intros Hv.
    set (n := Z.max 1 (BitValue.int_bit_length value)).
    assert (Hn : 1 <= n <= 128 /\ value < 2 ^ n /\ (1 < n -> 2 ^ (n - 1) <= value)).
    { destruct (Z.eq_dec value 0) as [-> | Hne].
      - unfold n. change (Z.max 1 (BitValue.int_bit_length 0)) with 1.
        change (2 ^ 1) with 2. lia.
      - destruct (int_bit_length_spec value Hne) as (Hbl & Hlo & Hhi).
        rewrite Z.abs_eq in Hlo, Hhi by lia.
        assert (BitValue.int_bit_length value <= 128).
        { destruct (Z.le_gt_cases (BitValue.int_bit_length value) 128); [assumption |].
          pose proof (Z.pow_le_mono_r 2 128 (BitValue.int_bit_length value - 1)
                        ltac:(lia) ltac:(lia)). lia. }
        unfold n. rewrite Z.max_r by lia. repeat split; try lia. }
    exists n. split; [| exact Hn].
    unfold BitValue.init. replace (value <? 0) with false by lia.
    fold n. destruct Hn as (Hrange & Hfit & _).
    replace ((n <=? 0) || (n >? 128)) with false by lia.
    rewrite shiftl_one by lia.
    replace (false || (value >? 2 ^ n - 1)) with false by lia.
    reflexivity.
  - intros Hv.
    destruct (int_bit_length_spec value ltac:(lia)) as (Hbl & Hlo & Hhi).
    rewrite Z.abs_neq in Hlo, Hhi by lia.
    set (bl := BitValue.int_bit_length value) in *.
    assert (bl <= 127).
    { destruct (Z.le_gt_cases bl 127); [assumption |].
      pose proof (Z.pow_le_mono_r 2 127 (bl - 1) ltac:(lia) ltac:(lia)). lia. }
    exists (bl + 1).
    replace (bl + 1 - 1) with bl by lia. replace (bl + 1 - 2) with (bl - 1) by lia.
    split; [| lia].
    unfold BitValue.init. replace (value <? 0) with true by lia. fold bl.
    replace ((bl + 1 <=? 0) || (bl + 1 >? 128)) with false by lia.
    replace (bl + 1 - 1) with bl by lia. rewrite shiftl_one by lia.
    replace ((value <? - 2 ^ bl) || (value >? 2 ^ bl - 1)) with false by lia.
    reflexivity.
  - intros Hv.
    assert (Hne : value <> 0) by lia.
    destruct (int_bit_length_spec value Hne) as (Hbl & Hlo & Hhi).
    set (bl := BitValue.int_bit_length value) in *.
    unfold BitValue.init. fold bl.
    destruct (Z.ltb_spec value 0) as [Hneg | Hpos].
    + rewrite Z.abs_neq in Hlo, Hhi by lia.
      assert (128 <= bl).
      { destruct (Z.le_gt_cases 128 bl); [assumption |].
        pose proof (Z.pow_le_mono_r 2 bl 127 ltac:(lia) ltac:(lia)). lia. }
      replace ((bl + 1 <=? 0) || (bl + 1 >? 128)) with true by lia. reflexivity.
    + rewrite Z.abs_eq in Hlo, Hhi by lia.
      assert (129 <= bl).
      { destruct (Z.le_gt_cases 129 bl); [assumption |].
        pose proof (Z.pow_le_mono_r 2 bl 128 ltac:(lia) ltac:(lia)). lia. }
      rewrite Z.max_r by lia.
      replace ((bl <=? 0) || (bl >? 128)) with true by lia. reflexivity.
Qed.

(** X2 at 42 and at -42: widths 6 and 7. *)
Lemma bit_value_inferred_width_witness :
  (exists n,
     BitValue.init 42 None = inr (BitValue.mk 42 n false) /\
     1 <= n <= 128 /\ 42 < 2 ^ n /\ (1 < n -> 2 ^ (n - 1) <= 42)) /\
  (exists n,
     BitValue.init (-42) None = inr (BitValue.mk (-42) n true) /\
     2 <= n <= 128 /\ - 2 ^ (n - 1) < -42 <= - 2 ^ (n - 2)) /\
  BitValue.init (- 2 ^ 127) None = inl InvalidBitCountError.
Proof.
  split; [| split].
  - apply (proj1 (bit_value_inferred_width 42)). lia.
  - apply (proj1 (proj2 (bit_value_inferred_width (-42)))). lia.
  - apply (proj2 (proj2 (bit_value_inferred_width (- 2 ^ 127)))). lia.
Defined.

End BitValueConstruction.

(** ** Calls on the in-memory stream, case by case *)

Section BitStreamCalls.

Local Abbreviation byte_pos := BitStream._byte_pos.
Local Abbreviation bit_pos := BitStream._bit_pos.
Local Abbreviation buffer := BitStream._buffer.
Local Abbreviation bit_length := BitStream._bit_length.
Local Abbreviation position := BitStream.position.
Local Abbreviation len_buffer := BitStream.len_buffer.

(** A state is its buffer, its bit length and its position. *)
Lemma state_by_position (s s' : BitStream.t) (p : Z) :
  BitStream.cursor_ok s' -> position s' = p ->
  bit_length s' = bit_length s -> buffer s' = buffer s ->
  s' = BitStream.with_cursor s (p / 8) (p mod 8).
Proof.
  intros [Hy Hb] Hp Hbl Hbuf. destruct s' as [b y i l]. destruct s as [b0 y0 i0 l0].
  unfold BitStream.position, BitStream.with_cursor in *. simpl in *. subst.
  assert (Hq : (y * 8 + i) / 8 = y) by (Z.div_mod_to_equations; lia).
  assert (Hr : (y * 8 + i) mod 8 = i) by (Z.div_mod_to_equations; lia).
  rewrite Hq, Hr. reflexivity.
Qed.

Lemma read_bits_return_pre (s s' : BitStream.t) (n r : Z) :
  BitStream.read_bits s n = Some (Return r s') ->
  1 <= n <= 64 /\ position s + n <= bit_length s.
Proof.
  unfold BitStream.read_bits.
  destruct (Z.leb_spec n 0) as [H0 | H0]; simpl; [discriminate |].
  destruct (Z.gtb_spec n 64) as [H64 | H64]; [discriminate |].
  destruct (Z.gtb_spec (position s + n) (bit_length s)); [discriminate |].
  intros _. lia.
Qed.

Lemma read_bits_u128_return_pre (s s' : BitStream.t) (n r : Z) :
  BitStream.read_bits_u128 s n = Some (Return r s') ->
  1 <= n <= 128 /\ position s + n <= bit_length s.
Proof.
  unfold BitStream.read_bits_u128.
  destruct (Z.leb_spec n 0) as [H0 | H0]; simpl; [discriminate |].
  destruct (Z.gtb_spec n 128) as [H128 | H128]; [discriminate |].
  destruct (Z.leb_spec n 64) as [Hsmall | Hbig].
  { intros H. apply read_bits_return_pre in H. lia. }
  destruct (Z.gtb_spec (position s + n) (bit_length s)); [discriminate |].
  intros _. lia.
Qed.

Lemma invariant_room (s : BitStream.t) (n : Z) :
  BitStream.invariant s -> position s + n <= bit_length s ->
  position s + n <= 8 * len_buffer s.
Proof. intros (_ & Hbl & _) H. lia. Qed.

(** X3: on a stream that satisfies the invariant, with a cursor inside the
    data model, [read_bits(n)] has exactly three outcomes:
    [InvalidBitCountError] for [n] outside 1..64, [EndOfStreamError] when
    [n] bits from the cursor go past [bit_length], both with the stream
    untouched, and otherwise a value in [0, 2^n) with the cursor moved on
    by exactly [n] bits and nothing else changed. *)
Theorem read_bits_three_outcomes (s : BitStream.t) (n : Z) :
  BitStream.invariant s -> 0 <= BitStream._byte_pos s ->
  match BitStream.read_bits s n with
  | Some (Return r s') =>
    1 <= n <= 64 /\ BitStream.position s + n <= BitStream._bit_length s /\
    0 <= r < 2 ^ n /\
    s' = BitStream.with_cursor s ((BitStream.position s + n) / 8)
                                 ((BitStream.position s + n) mod 8)
  | Some (Raise e s') =>
    s' = s /\
    ((e = InvalidBitCountError /\ (n <= 0 \/ 64 < n)) \/
     (e = EndOfStreamError /\ 1 <= n <= 64 /\
      BitStream.position s + n > BitStream._bit_length s))
  | None => False
  end.
Proof.
  intros Hinv Hy. pose proof Hinv as (Hb & Hbl & Hpos).
  destruct (Z.leb_spec n 0) as [H0 | H0].
  { unfold BitStream.read_bits. replace (n <=? 0) with true by lia. simpl.
    split; [reflexivity | left; split; [reflexivity | lia]]. }
  destruct (Z.gtb_spec n 64) as [H64 | H64].
  { unfold BitStream.read_bits. replace (n <=? 0) with false by lia.
    replace (n >? 64) with true by lia. simpl.
    split; [reflexivity | left; split; [reflexivity | lia]]. }
  destruct (Z.gtb_spec (position s + n) (bit_length s)) as [Hend | Hroom].
  { unfold BitStream.read_bits. replace ((n <=? 0) || (n >? 64)) with false by lia.
    replace (position s + n >? bit_length s) with true by lia.
    split; [reflexivity | right; split; [reflexivity | lia]]. }
  destruct (read_bits_spec s n ltac:(split; assumption) ltac:(lia) Hroom
              ltac:(lia))
    as (r & s' & Hr & Hc' & Hpos' & Hbl' & Hbuf' & _).
  rewrite Hr. pose proof (read_bits_range _ _ _ _ Hr) as [_ Hrange].
  repeat split; try lia. apply state_by_position; assumption.
Qed.

(** X3 on the two bytes [0xA5, 0x5A]: four bits are read. *)
Lemma read_bits_three_outcomes_witness :
  match BitStream.read_bits (BitStream.init (Some [165; 90])) 4 with
  | Some (Return r s') =>
    1 <= 4 <= 64 /\
    BitStream.position (BitStream.init (Some [165; 90])) + 4
      <= BitStream._bit_length (BitStream.init (Some [165; 90])) /\
    0 <= r < 2 ^ 4 /\
    s' = BitStream.with_cursor (BitStream.init (Some [165; 90]))
           ((BitStream.position (BitStream.init (Some [165; 90])) + 4) / 8)
           ((BitStream.position (BitStream.init (Some [165; 90])) + 4) mod 8)
  | Some (Raise e s') =>
    s' = BitStream.init (Some [165; 90]) /\
    ((e = InvalidBitCountError /\ (4 <= 0 \/ 64 < 4)) \/
     (e = EndOfStreamError /\ 1 <= 4 <= 64 /\
      BitStream.position (BitStream.init (Some [165; 90])) + 4
        > BitStream._bit_length (BitStream.init (Some [165; 90]))))
  | None => False
  end.
Proof.
  apply (read_bits_three_outcomes (BitStream.init (Some [165; 90])) 4).
  - unfold BitStream.invariant, BitStream.position, BitStream.len_buffer. simpl. lia.
  - simpl. lia.
Defined.

(** X4: the same for [read_bits_u128(n)], with widths 1..128. *)
Theorem read_bits_u128_three_outcomes (s : BitStream.t) (n : Z) :
  BitStream.invariant s -> 0 <= BitStream._byte_pos s ->
  match BitStream.read_bits_u128 s n with
  | Some (Return r s') =>
    1 <= n <= 128 /\ BitStream.position s + n <= BitStream._bit_length s /\
    0 <= r < 2 ^ n /\
    s' = BitStream.with_cursor s ((BitStream.position s + n) / 8)
                                 ((BitStream.position s + n) mod 8)
  | Some (Raise e s') =>
    s' = s /\
    ((e = InvalidBitCountError /\ (n <= 0 \/ 128 < n)) \/
     (e = EndOfStreamError /\ 1 <= n <= 128 /\
      BitStream.position s + n > BitStream._bit_length s))
  | None => False
  end.
Proof.
  intros Hinv Hy. pose proof Hinv as (Hb & Hbl & Hpos).
  destruct (Z.leb_spec n 0) as [H0 | H0].
  { unfold BitStream.read_bits_u128. replace (n <=? 0) with true by lia. simpl.
    split; [reflexivity | left; split; [reflexivity | lia]]. }
  destruct (Z.gtb_spec n 128) as [H128 | H128].
  { unfold BitStream.read_bits_u128. replace (n <=? 0) with false by lia.
    replace (n >? 128) with true by lia. simpl.
    split; [reflexivity | left; split; [reflexivity | lia]]. }
  destruct (Z.gtb_spec (position s + n) (bit_length s)) as [Hend | Hroom].
  { unfold BitStream.read_bits_u128.
    replace ((n <=? 0) || (n >? 128)) with false by lia.
    destruct (Z.leb_spec n 64) as [Hsmall | Hbig].
    - unfold BitStream.read_bits. replace ((n <=? 0) || (n >? 64)) with false by lia.
      replace (position s + n >? bit_length s) with true by lia.
      split; [reflexivity | right; split; [reflexivity | lia]].
    - replace (position s + n >? bit_length s) with true by lia.
      split; [reflexivity | right; split; [reflexivity | lia]]. }
  destruct (read_bits_u128_spec s n ltac:(split; assumption) ltac:(lia) Hroom
              ltac:(lia))
    as (r & s' & Hr & Hc' & Hpos' & Hbl' & Hbuf' & _).
  rewrite Hr. pose proof (read_bits_u128_range _ _ _ _ Hr) as [_ Hrange].
  repeat split; try lia. apply state_by_position; assumption.
Qed.

(** X4 on a one-byte stream: 96 bits are more than it holds. *)
Lemma read_bits_u128_three_outcomes_witness :
  match BitStream.read_bits_u128 (BitStream.init (Some [165])) 96 with
  | Some (Return r s') =>
    1 <= 96 <= 128 /\
    BitStream.position (BitStream.init (Some [165])) + 96
      <= BitStream._bit_length (BitStream.init (Some [165])) /\
    0 <= r < 2 ^ 96 /\
    s' = BitStream.with_cursor (BitStream.init (Some [165]))
           ((BitStream.position (BitStream.init (Some [165])) + 96) / 8)
           ((BitStream.position (BitStream.init (Some [165])) + 96) mod 8)
  | Some (Raise e s') =>
    s' = BitStream.init (Some [165]) /\
    ((e = InvalidBitCountError /\ (96 <= 0 \/ 128 < 96)) \/
     (e = EndOfStreamError /\ 1 <= 96 <= 128 /\
      BitStream.position (BitStream.init (Some [165])) + 96
        > BitStream._bit_length (BitStream.init (Some [165]))))
  | None => False
  end.
Proof.
  apply (read_bits_u128_three_outcomes (BitStream.init (Some [165])) 96).
  - unfold BitStream.invariant, BitStream.position, BitStream.len_buffer. simpl. lia.
  - simpl. lia.
Defined.

(** X5: on a stream that satisfies the invariant, with a non-negative
    byte index, a value that [read_bits] or [read_bits_u128] returns is
    the bit string of the buffer from the cursor on, first bit most
    significant: bit [i] of the value is the buffer bit at offset
    [position + (n - 1 - i)]. (With a negative byte index, which
    [set_position] accepts, the bytes are taken from the end of the
    buffer instead.) *)
Theorem read_value_is_big_endian (s s' : BitStream.t) (n r : Z) :
  BitStream.invariant s -> 0 <= BitStream._byte_pos s ->
  BitStream.read_bits s n = Some (Return r s') \/
  BitStream.read_bits_u128 s n = Some (Return r s') ->
  forall i, 0 <= i < n ->
    Z.testbit r i
    = BitStream.bit_at (BitStream._buffer s) (BitStream.position s + (n - 1 - i)).
Proof.
  intros Hinv Hy Hcall i Hi. pose proof Hinv as (Hb & Hbl & Hpos).
  assert (Hc : BitStream.cursor_ok s) by (split; assumption).
  destruct Hcall as [Hcall | Hcall].
  - pose proof (read_bits_return_pre _ _ _ _ Hcall) as [Hn Hroom].
    destruct (read_bits_spec s n Hc Hn Hroom (invariant_room s n Hinv Hroom))
      as (r0 & s0 & Hr & _ & _ & _ & _ & Hbits).
    rewrite Hr in Hcall. inversion Hcall; subst.
    rewrite Hbits by lia. replace (i <? n) with true by lia. reflexivity.
  - pose proof (read_bits_u128_return_pre _ _ _ _ Hcall) as [Hn Hroom].
    destruct (read_bits_u128_spec s n Hc Hn Hroom (invariant_room s n Hinv Hroom))
      as (r0 & s0 & Hr & _ & _ & _ & _ & Hbits).
    rewrite Hr in Hcall. inversion Hcall; subst.
    rewrite Hbits by lia. replace (i <? n) with true by lia. reflexivity.
Qed.

(** X5 over the byte 0xA5: the first four bits, 1010, read as 10. *)
Lemma read_value_is_big_endian_witness :
  Z.testbit 10 3
  = BitStream.bit_at (BitStream._buffer (BitStream.init (Some [165])))
                     (BitStream.position (BitStream.init (Some [165])) + (4 - 1 - 3)) /\
  Z.testbit 10 0
  = BitStream.bit_at (BitStream._buffer (BitStream.init (Some [165])))
                     (BitStream.position (BitStream.init (Some [165])) + (4 - 1 - 0)).
Proof.
  split;
    apply (read_value_is_big_endian (BitStream.init (Some [165]))
             (BitStream.mk [165] 0 4 8) 4 10);
    try (unfold BitStream.invariant, BitStream.position, BitStream.len_buffer;
         simpl; lia);
    left; vm_compute; reflexivity.
Defined.

(** What a [write_bits] that returns has done to the cursor, the bit
    length and the size of the buffer, on any cursor with a bit index in
    0..7. *)
Lemma write_bits_return_effect (s s' : BitStream.t) (value n : Z) :
  0 <= bit_pos s < 8 ->
  BitStream.write_bits s value n = Some (Return tt s') ->
  1 <= n <= 64 /\ 0 <= bit_pos s' < 8 /\
  position s' = position s + n /\
  bit_length s' = Z.max (bit_length s) (position s + n) /\
  len_buffer s' = Z.max (len_buffer s) ((position s + n + 7) / 8).
Proof.
  intros Hb. unfold BitStream.write_bits.
  destruct (Z.leb_spec n 0) as [H0 | H0]; simpl; [discriminate |].
  destruct (Z.gtb_spec n 64) as [H64 | H64]; [discriminate |].
  set (required := (position s + n + 7) / 8).
  set (s0 := if required >? len_buffer s
             then BitStream.with_buffer s
                    (bytearray_extend_zeros (buffer s) (required - len_buffer s))
             else s).
  assert (H0' : bit_pos s0 = bit_pos s /\ position s0 = position s /\
                bit_length s0 = bit_length s /\
                len_buffer s0 = Z.max (len_buffer s) required).
  { unfold s0. destruct (Z.gtb_spec required (len_buffer s)) as [Hgt | Hle].
    - repeat split;
        unfold BitStream.len_buffer, bytearray_extend_zeros in *; simpl;
        rewrite length_app, length_replicate; lia.
    - repeat split; lia. }
  destruct H0' as (Hb0 & Hpos0 & Hbl0 & Hlen0).
  pose proof (write_loop_cases (Z.to_nat n) value n 0 s0 ltac:(lia) ltac:(lia)) as Hloop.
  destruct (BitStream.write_loop (Z.to_nat n) value n 0 s0) as [[[] s1 | e s1] |];
    try discriminate.
  destruct Hloop as (Hb1 & Hpos1 & Hbl1 & Hlen1). rewrite Z.sub_0_r in Hpos1.
  intros H; inversion H; subst s'; clear H.
  destruct (Z.gtb_spec (position s1) (bit_length s1)) as [Hgt | Hle].
  - change (bit_pos (BitStream.with_bit_length s1 (position s1))) with (bit_pos s1).
    change (len_buffer (BitStream.with_bit_length s1 (position s1)))
      with (len_buffer s1).
    change (position (BitStream.with_bit_length s1 (position s1)))
      with (position s1).
    change (bit_length (BitStream.with_bit_length s1 (position s1)))
      with (position s1).
    lia.
  - lia.
Qed.

Lemma write_bits_u128_small (s : BitStream.t) (value n : Z) :
  1 <= n <= 64 -> BitStream.write_bits_u128 s value n = BitStream.write_bits s value n.
Proof.
  intros Hn. unfold BitStream.write_bits_u128.
  replace ((n <=? 0) || (n >? 128)) with false by lia.
  replace (n <=? 64) with true by lia. reflexivity.
Qed.

Lemma write_bits_u128_return_effect (s s' : BitStream.t) (value n : Z) :
  0 <= bit_pos s < 8 ->
  BitStream.write_bits_u128 s value n = Some (Return tt s') ->
  1 <= n <= 128 /\ 0 <= bit_pos s' < 8 /\
  position s' = position s + n /\
  bit_length s' = Z.max (bit_length s) (position s + n) /\
  len_buffer s' = Z.max (len_buffer s) ((position s + n + 7) / 8).
Proof.
  intros Hb. unfold BitStream.write_bits_u128.
  destruct (Z.leb_spec n 0) as [H0 | H0]; simpl; [discriminate |].
  destruct (Z.gtb_spec n 128) as [H128 | H128]; [discriminate |].
  destruct (Z.leb_spec n 64) as [Hsmall | Hbig].
  { intros H. apply write_bits_return_effect in H; [| assumption]. lia. }
  destruct (BitStream.write_bits s (Z.shiftr value 64) (n - 64))
    as [[[] s1 | e s1] |] eqn:E1; try discriminate.
  intros E2.
  apply write_bits_return_effect in E1 as (_ & Hb1 & Hpos1 & Hbl1 & Hlen1);
    [| assumption].
  apply write_bits_return_effect in E2 as (_ & Hb2 & Hpos2 & Hbl2 & Hlen2);
    [| assumption].
  rewrite Hpos1 in *.
  replace (position s + (n - 64) + 64) with (position s + n) in * by lia.
  repeat split; try lia.
  rewrite Hlen2, Hlen1. Z.div_mod_to_equations. lia.
Qed.

(** X6: [write_bits_u128(value, n)] (and [write_bits] for [n <= 64]) on a
    cursor of the data model always returns; it moves the cursor on by
    [n], raises [bit_length] to the new position when that is larger,
    grows the buffer to just the bytes the new position needs, puts the
    low [n] bits of [value] at the offsets from the old position on, and
    leaves every other bit of the buffer as it was. *)
Theorem write_bits_effect (s : BitStream.t) (value n : Z) :
  BitStream.cursor_ok s -> 1 <= n <= 128 ->
  exists s',
    BitStream.write_bits_u128 s value n = Some (Return tt s') /\
    (n <= 64 -> BitStream.write_bits s value n = Some (Return tt s')) /\
    BitStream.position s' = BitStream.position s + n /\
    BitStream._bit_length s'
      = Z.max (BitStream._bit_length s) (BitStream.position s + n) /\
    BitStream.len_buffer s'
      = Z.max (BitStream.len_buffer s) ((BitStream.position s + n + 7) / 8) /\
    forall q, 0 <= q ->
      BitStream.bit_at (BitStream._buffer s') q
      = if (BitStream.position s <=? q) && (q <? BitStream.position s + n)
        then Z.testbit value (n - 1 - (q - BitStream.position s))
        else BitStream.bit_at (BitStream._buffer s) q.
Proof.
  intros Hc Hn.
  destruct (write_bits_u128_spec s value n Hc Hn)
    as (s' & Hw & Hc' & Hpos' & Hbl' & _ & Hbits).
  pose proof (write_bits_u128_return_effect s s' value n ltac:(apply Hc) Hw)
    as (_ & _ & _ & _ & Hlen).
  exists s'. split; [exact Hw |].
  split; [intros Hsmall; rewrite <- write_bits_u128_small by lia; exact Hw |].
  repeat split; assumption.
Qed.

(** X6 on an empty stream: 5 on 3 bits. *)
Lemma write_bits_effect_witness :
  exists s',
    BitStream.write_bits_u128 (BitStream.init None) 5 3 = Some (Return tt s') /\
    (3 <= 64 -> BitStream.write_bits (BitStream.init None) 5 3 = Some (Return tt s')) /\
    BitStream.position s' = BitStream.position (BitStream.init None) + 3 /\
    BitStream._bit_length s'
      = Z.max (BitStream._bit_length (BitStream.init None))
              (BitStream.position (BitStream.init None) + 3) /\
    BitStream.len_buffer s'
      = Z.max (BitStream.len_buffer (BitStream.init None))
              ((BitStream.position (BitStream.init None) + 3 + 7) / 8) /\
    forall q, 0 <= q ->
      BitStream.bit_at (BitStream._buffer s') q
      = if (BitStream.position (BitStream.init None) <=? q)
           && (q <? BitStream.position (BitStream.init None) + 3)
        then Z.testbit 5 (3 - 1 - (q - BitStream.position (BitStream.init None)))
        else BitStream.bit_at (BitStream._buffer (BitStream.init None)) q.
Proof.
  apply (write_bits_effect (BitStream.init None) 5 3).
  - split; simpl; lia.
  - lia.
Defined.

(** X7: [set_position(p)] raises [EndOfStreamError] exactly when
    [p > bit_length], leaving the stream as it was; otherwise it returns
    with [position() = p], the bit index in 0..7, buffer and bit length
    untouched, and [is_eof()] true exactly for [p = bit_length]. *)
Theorem set_position_cases (s : BitStream.t) (p : Z) :
  match BitStream.set_position s p with
  | Return _ s' =>
    p <= BitStream._bit_length s /\
    BitStream.position s' = p /\ 0 <= BitStream._bit_pos s' < 8 /\
    BitStream._buffer s' = BitStream._buffer s /\
    BitStream._bit_length s' = BitStream._bit_length s /\
    BitStream.is_eof s' = (p =? BitStream._bit_length s)
  | Raise e s' => e = EndOfStreamError /\ s' = s /\ p > BitStream._bit_length s
  end.
Proof.
  unfold BitStream.set_position.
  destruct (Z.gtb_spec p (bit_length s)) as [Hgt | Hle]; [repeat split; lia |].
  pose proof (Z.div_mod p 8 ltac:(lia)).
  pose proof (Z.mod_pos_bound p 8 ltac:(lia)).
  assert (Hpos : BitStream.position (BitStream.with_cursor s (p / 8) (p mod 8)) = p)
    by (unfold BitStream.position; simpl; lia).
  unfold BitStream.is_eof. rewrite Hpos. simpl.
  repeat split; try lia.
Qed.

End BitStreamCalls.

(** ** Bytes in, bytes out *)

Section BitStreamBytes.

Local Abbreviation is_byte := (fun b : Z => 0 <= b < 256).

(** Eight bits read at the start of a byte are that byte. *)
Lemma read_whole_byte (data : list Z) (j : nat) (b bl : Z) :
  data !! j = Some b -> 0 <= b < 256 ->
  8 * Z.of_nat j + 8 <= bl -> bl <= 8 * Z.of_nat (length data) ->
  BitStream.read_bits (BitStream.mk data (Z.of_nat j) 0 bl) 8
  = Some (Return b (BitStream.mk data (Z.of_nat (S j)) 0 bl)).
Proof.
  intros Hb Hrange Hbl Hlen.
  set (s := BitStream.mk data (Z.of_nat j) 0 bl).
  assert (Hc : BitStream.cursor_ok s) by (split; simpl; lia).
  assert (Hpos : BitStream.position s = 8 * Z.of_nat j)
    by (unfold BitStream.position; simpl; lia).
  destruct (read_bits_spec s 8 Hc ltac:(lia))
    as (r & s' & Hr & Hc' & Hpos' & Hbl' & Hbuf' & Hbits).
  { rewrite Hpos. simpl. lia. }
  { rewrite Hpos. unfold BitStream.len_buffer. simpl. lia. }
  rewrite Hr. f_equal.
  assert (Er : r = b).
  { rewrite <- (Z.mod_small b (2 ^ 8)) by (simpl; lia).
    apply low_bits_mod; [lia |]. intros i Hi. rewrite Hbits by assumption.
    destruct (Z.ltb_spec i 8) as [Hlt | Hge]; [| reflexivity].
    rewrite (bit_at_current s b (8 - 1 - i)).
    - rewrite !andb_true_l. f_equal. simpl. lia.
    - exact Hc.
    - simpl. rewrite Nat2Z.id. exact Hb.
    - lia.
    - simpl. lia. }
  assert (Es : s' = BitStream.mk data (Z.of_nat (S j)) 0 bl).
  { rewrite (state_by_position s s' (BitStream.position s + 8)) by assumption.
    rewrite Hpos. unfold BitStream.with_cursor. simpl.
    assert (Hq : (8 * Z.of_nat j + 8) / 8 = Z.of_nat (S j))
      by (Z.div_mod_to_equations; lia).
    assert (Hm : (8 * Z.of_nat j + 8) mod 8 = 0) by (Z.div_mod_to_equations; lia).
    rewrite Hq, Hm. reflexivity. }
  rewrite Er, Es. reflexivity.
Qed.

Lemma read_all_bytes (data : list Z) (k : nat) :
  forall j : nat,
    (j + k = length data)%nat -> Forall is_byte data ->
    BitStream.read_all
      (BitStream.mk data (Z.of_nat j) 0 (Z.of_nat (length data) * 8))
      (replicate k 8)
    = Some (Return (drop j data)
                   (BitStream.mk data (Z.of_nat (length data)) 0
                                 (Z.of_nat (length data) * 8))).
Proof.
  induction k as [| k IH]; intros j Hjk Hbytes.
  - simpl. rewrite Nat.add_0_r in Hjk. subst j.
    rewrite drop_all. reflexivity.
  - assert (Hj : (j < length data)%nat) by lia.
    destruct (proj2 (lookup_lt_is_Some data j) Hj) as [b Hb].
    pose proof (Forall_lookup_1 _ _ _ _ Hbytes Hb) as Hrange.
    change (replicate (S k) 8) with (8 :: replicate k 8).
    change (BitStream.read_all ?s (8 :: ?rest))
      with (match BitStream.read_bits s 8 with
            | Some (Return v s') =>
              match BitStream.read_all s' rest with
              | Some (Return vs s'') => Some (Return (v :: vs) s'')
              | x => x
              end
            | Some (Raise e s') => Some (Raise e s')
            | None => None
            end).
    rewrite (read_whole_byte data j b) by (try assumption; lia).
    rewrite IH by (try assumption; lia).
    rewrite (drop_S data b j Hb). reflexivity.
Qed.

(** X8: a stream loaded from bytes gives them back: after
    [from_bytes(data)] (or construction from [data]) reading eight bits
    at a time returns the bytes of [data] in order, ends at the end of the
    stream, and leaves [to_bytes()] equal to [data]. *)
Theorem bytes_read_back (s : BitStream.t) (data : list Z) :
  Forall (fun b => 0 <= b < 256) data ->
  BitStream.init (Some data) = BitStream.from_bytes s data /\
  exists s',
    BitStream.read_all (BitStream.from_bytes s data) (replicate (length data) 8)
      = Some (Return data s') /\
    BitStream.is_eof s' = true /\
    BitStream.to_bytes s' = data.
Proof.
  intros Hbytes. split; [reflexivity |].
  exists (BitStream.mk data (Z.of_nat (length data)) 0 (Z.of_nat (length data) * 8)).
  split.
  - exact (read_all_bytes data (length data) 0%nat ltac:(lia) Hbytes).
  - split; [| reflexivity].
    unfold BitStream.is_eof, BitStream.position. simpl. lia.
Qed.

(** X8 on the bytes [0xA5, 0x5A]. *)
Lemma bytes_read_back_witness :
  BitStream.init (Some [165; 90]) = BitStream.from_bytes (BitStream.init None) [165; 90] /\
  exists s',
    BitStream.read_all (BitStream.from_bytes (BitStream.init None) [165; 90])
                       (replicate (length [165; 90]) 8)
      = Some (Return [165; 90] s') /\
    BitStream.is_eof s' = true /\
    BitStream.to_bytes s' = [165; 90].
Proof.
  apply (bytes_read_back (BitStream.init None) [165; 90]).
  repeat constructor; lia.
Defined.

End BitStreamBytes.

(** ** BitValues through the in-memory stream *)

Section TypedRoundTrip.

Lemma bit_value_init_inr (value n : Z) (bv : BitValue.t) :
  BitValue.init value (Some n) = inr bv ->
  1 <= n <= 128 /\ - 2 ^ (n - 1) <= value < 2 ^ n /\
  bv = BitValue.mk value n (value <? 0).
Proof.
  unfold BitValue.init.
  destruct (Z.leb_spec n 0) as [H0 | H0]; simpl; [discriminate |].
  destruct (Z.gtb_spec n 128) as [H128 | H128]; [discriminate |].
  rewrite !Z.shiftl_1_l.
  assert (Hpow : 0 < 2 ^ (n - 1)) by (apply Z.pow_pos_nonneg; lia).
  assert (Hdouble : 2 ^ n = 2 * 2 ^ (n - 1)).
  { replace n with (Z.succ (n - 1)) at 1 by lia. apply Z.pow_succ_r. lia. }
  destruct (Z.ltb_spec value 0) as [Hneg | Hpos].
  - destruct (Z.ltb_spec value (- 2 ^ (n - 1))) as [Hlow | Hlow]; simpl;
      [discriminate |].
    destruct (Z.gtb_spec value (2 ^ (n - 1) - 1)) as [Hhigh | Hhigh]; [discriminate |].
    intros H; inversion H; subst. repeat split; lia.
  - simpl. destruct (Z.gtb_spec value (2 ^ n - 1)) as [Hhigh | Hhigh];
      [discriminate |].
    intros H; inversion H; subst. repeat split; lia.
Qed.

Lemma top_bit_set (raw n : Z) :
  1 <= n -> 2 ^ (n - 1) <= raw < 2 ^ n -> Z.testbit raw (n - 1) = true.
Proof.
  intros Hn Hraw.
  assert (Hpow : 0 < 2 ^ (n - 1)) by (apply Z.pow_pos_nonneg; lia).
  assert (Hdouble : 2 ^ n = 2 * 2 ^ (n - 1)).
  { replace n with (Z.succ (n - 1)) at 1 by lia. apply Z.pow_succ_r. lia. }
  apply Z.testbit_true; [lia |].
  assert (E : raw / 2 ^ (n - 1) = 1) by (Z.div_mod_to_equations; nia).
  rewrite E. reflexivity.
Qed.

Lemma top_bit_clear (raw n : Z) :
  1 <= n -> 0 <= raw < 2 ^ (n - 1) -> Z.testbit raw (n - 1) = false.
Proof.
  intros Hn Hraw. apply (bits_above raw (n - 1)); [assumption | lia].
Qed.

(** The read half of the round trip: what [read_bit_value] makes of the
    low [n] bits of a value that fits [n] bits. *)
Lemma as_bit_value_of_low_bits (value n : Z) (s : BitStream.t) :
  1 <= n <= 128 -> - 2 ^ (n - 1) <= value < 2 ^ n ->
  BitStream.as_bit_value (value mod 2 ^ n) n (value <? 0) s
  = Return (BitValue.mk value n (value <? 0)) s.
Proof.
  intros Hn Hv.
  assert (Hpow : 0 < 2 ^ (n - 1)) by (apply Z.pow_pos_nonneg; lia).
  assert (Hdouble : 2 ^ n = 2 * 2 ^ (n - 1)).
  { replace n with (Z.succ (n - 1)) at 1 by lia. apply Z.pow_succ_r. lia. }
  unfold BitStream.as_bit_value. rewrite sign_bit_test by lia.
  rewrite Z.shiftl_1_l.
  destruct (Z.ltb_spec value 0) as [Hneg | Hpos].
  - assert (Hmod : value mod 2 ^ n = value + 2 ^ n).
    { symmetry. apply (Z.mod_unique value (2 ^ n) (-1)); lia. }
    rewrite Hmod, top_bit_set by lia. simpl.
    replace (value + 2 ^ n - 2 ^ n) with value by lia.
    unfold BitValue.init. replace (value <? 0) with true by lia.
    replace ((n <=? 0) || (n >? 128)) with false by lia.
    rewrite !Z.shiftl_1_l.
    replace ((value <? - 2 ^ (n - 1)) || (value >? 2 ^ (n - 1) - 1)) with false by lia.
    reflexivity.
  - rewrite Z.mod_small by lia. simpl.
    unfold BitValue.init. replace (value <? 0) with false by lia.
    replace ((n <=? 0) || (n >? 128)) with false by lia.
    rewrite Z.shiftl_1_l.
    replace (false || (value >? 2 ^ n - 1)) with false by lia.
    reflexivity.
Qed.

(** X9: a BitValue written with [write_bit_value] at a cursor of the data
    model and read again from the same position with [read_bit_value],
    with its own width and its own signedness, comes back as the same
    BitValue: a negative value is stored as its two's complement and
    reinterpreted on the way back, for every width 1..128. *)
Theorem bit_value_round_trip (s : BitStream.t) (bv : BitValue.t) (value n : Z) :
  BitStream.cursor_ok s -> BitValue.init value (Some n) = inr bv ->
  exists s1 s2 s3,
    BitStream.write_bit_value s bv None = Some (Return tt s1) /\
    BitStream.set_position s1 (BitStream.position s) = Return tt s2 /\
    BitStream.read_bit_value s2 (BitValue.bit_count bv) (BitValue.is_signed bv)
      = Some (Return bv s3).
Proof.
  intros Hc Hbv.
  apply bit_value_init_inr in Hbv as (Hn & Hv & ->).
  destruct (write_bits_u128_spec s value n Hc Hn)
    as (s1 & Hw & Hc1 & Hpos1 & Hbl1 & Hroom1 & Hbits1).
  destruct (reread_after_write s s1 value n BitStream.read_bits_u128)
    as (s2 & s3 & Hset & Hread); try assumption; try lia.
  { intros s2 Hc2 Hbl2 Hroom2.
    destruct (read_bits_u128_spec s2 n Hc2 Hn Hbl2 Hroom2)
      as (r & s3 & Hr & _ & _ & _ & _ & Hbits).
    exists r, s3. split; assumption. }
  exists s1, s2, s3. split; [| split; [exact Hset |]].
  - unfold BitStream.write_bit_value, BitValue.bit_count, BitValue.to_int. simpl.
    destruct (Z.leb_spec n 64) as [Hsmall | Hbig]; [| exact Hw].
    rewrite <- write_bits_u128_small by lia. exact Hw.
  - unfold BitStream.read_bit_value, BitValue.bit_count, BitValue.is_signed. simpl.
    destruct (Z.leb_spec n 64) as [Hsmall | Hbig].
    + rewrite <- read_bits_u128_small by lia. rewrite Hread.
      rewrite as_bit_value_of_low_bits by assumption. reflexivity.
    + rewrite Hread. rewrite as_bit_value_of_low_bits by assumption. reflexivity.
Qed.

(** X9 with -42 on eight bits, on an empty stream. *)
Lemma bit_value_round_trip_witness :
  exists s1 s2 s3,
    BitStream.write_bit_value (BitStream.init None) (BitValue.mk (-42) 8 true) None
      = Some (Return tt s1) /\
    BitStream.set_position s1 (BitStream.position (BitStream.init None))
      = Return tt s2 /\
    BitStream.read_bit_value s2 (BitValue.bit_count (BitValue.mk (-42) 8 true))
                             (BitValue.is_signed (BitValue.mk (-42) 8 true))
      = Some (Return (BitValue.mk (-42) 8 true) s3).
Proof.
  apply (bit_value_round_trip (BitStream.init None) (BitValue.mk (-42) 8 true) (-42) 8).
  - split; simpl; lia.
  - vm_compute. reflexivity.
Defined.

End TypedRoundTrip.

(** ** The reader between calls *)

Section ReaderStates.

Local Abbreviation available := BitStreamReader.available_bits.
Local Abbreviation wf := BitStreamReader.well_formed.

Lemma reader_init_well_formed (f : BytesIO.t) (buffer_size : Z) :
  0 <= BytesIO.pos f -> 0 < buffer_size -> wf (BitStreamReader.init f buffer_size).
Proof.
  intros Hpos Hsize.
  unfold BitStreamReader.well_formed, BitStreamReader.init. simpl.
  rewrite length_replicate. repeat split; try lia; try discriminate.
Qed.

(** What the loop of [read_bits] gives on a well-formed reader, with both
    loop variables. *)
Lemma read_bits_counted_cases (r : BitStreamReader.t) (n : Z) :
  wf r -> 1 <= n <= 64 ->
  let m := Z.min n (available r) in
  (m = 0 /\ exists r',
      BitStreamReader.read_bits_counted r n = Some (Raise EndOfStreamError r') /\
      wf r' /\ available r' = 0 /\ BitStreamReader._eof r' = true) \/
  (0 < m /\ exists v r',
      BitStreamReader.read_bits_counted r n = Some (Return (v, m) r') /\
      wf r' /\ available r' = available r - m /\ 0 <= v < 2 ^ m /\
      (m < n -> BitStreamReader._eof r' = true)).
Proof.
  intros Hwf Hn m.
  pose proof (buffered_nonneg r Hwf) as Hbuf.
  pose proof (remaining_nonneg (BitStreamReader._stream r)) as Hrem.
  assert (Ha : 0 <= available r) by (unfold BitStreamReader.available_bits; lia).
  pose proof (reader_loop_spec (Z.to_nat n) n 0 0 r Hwf ltac:(lia) ltac:(lia)
                ltac:(simpl; lia) ltac:(lia)) as Hloop.
  cbv zeta in Hloop. rewrite !Z.sub_0_r, !Z.add_0_l in Hloop. fold m in Hloop.
  assert (Hcounted : BitStreamReader.read_bits_counted r n
                     = BitStreamReader.read_loop (Z.to_nat n) n (0, 0) r).
  { unfold BitStreamReader.read_bits_counted.
    replace ((n <=? 0) || (n >? 64)) with false by lia. reflexivity. }
  rewrite Hcounted.
  destruct (Z.eqb_spec m 0) as [Hm | Hm].
  - left. split; [exact Hm |]. exact Hloop.
  - right. split; [unfold m in *; lia |]. exact Hloop.
Qed.

Lemma read_bits_of_counted (r : BitStreamReader.t) (n : Z) :
  BitStreamReader.read_bits r n
  = match BitStreamReader.read_bits_counted r n with
    | Some (Return (result, _) r') => Some (Return result r')
    | Some (Raise e r') => Some (Raise e r')
    | None => None
    end.
Proof. reflexivity. Qed.

Lemma read_bits_invalid (r : BitStreamReader.t) (n : Z) :
  n <= 0 \/ 64 < n ->
  BitStreamReader.read_bits r n = Some (Raise InvalidBitCountError r).
Proof.
  intros Hn. unfold BitStreamReader.read_bits, BitStreamReader.read_bits_counted.
  replace ((n <=? 0) || (n >? 64)) with true by lia. reflexivity.
Qed.

(** [read_bits] always ends, and leaves a well-formed reader well-formed. *)
Lemma reader_read_bits_keeps (r : BitStreamReader.t) (n : Z) :
  wf r ->
  exists o, BitStreamReader.read_bits r n = Some o /\ wf (outcome_state o).
Proof.
  intros Hwf.
  destruct (Z.leb_spec n 0) as [H0 | H0];
    [rewrite read_bits_invalid by lia; eexists; split; [reflexivity | exact Hwf] |].
  destruct (Z.ltb_spec 64 n) as [H64 | H64];
    [rewrite read_bits_invalid by lia; eexists; split; [reflexivity | exact Hwf] |].
  rewrite read_bits_of_counted.
  destruct (read_bits_counted_cases r n Hwf ltac:(lia))
    as [(_ & r' & Hrun & Hwf' & _) | (_ & v & r' & Hrun & Hwf' & _)];
    rewrite Hrun; eexists; (split; [reflexivity | exact Hwf']).
Qed.

Lemma reader_read_bits_u128_keeps (r : BitStreamReader.t) (n : Z) :
  wf r ->
  exists o, BitStreamReader.read_bits_u128 r n = Some o /\ wf (outcome_state o).
Proof.
  intros Hwf. unfold BitStreamReader.read_bits_u128.
  destruct ((n <=? 0) || (n >? 128));
    [eexists; split; [reflexivity | exact Hwf] |].
  destruct (n <=? 64); [apply reader_read_bits_keeps; exact Hwf |].
  destruct (reader_read_bits_keeps r 64 Hwf) as ([low r1 | e r1] & H1 & Hwf1);
    rewrite H1; [| eexists; split; [reflexivity | exact Hwf1]].
  destruct (reader_read_bits_keeps r1 (n - 64) Hwf1) as ([high r2 | e r2] & H2 & Hwf2);
    rewrite H2; eexists; (split; [reflexivity | exact Hwf2]).
Qed.

Lemma reader_as_bit_value_state (value n : Z) (sg : bool) (r : BitStreamReader.t) :
  outcome_state (BitStreamReader.as_bit_value value n sg r) = r.
Proof.
  unfold BitStreamReader.as_bit_value. destruct (BitValue.init _ _); reflexivity.
Qed.

Lemma reader_is_eof_on_well_formed (r : BitStreamReader.t) :
  wf r -> BitStreamReader.is_eof r = (BitStreamReader._eof r, r).
Proof.
  intros Hwf. pose proof Hwf as (Hy & Hb & Hsz & Hcap & Hpos & Heof).
  unfold BitStreamReader.is_eof.
  destruct (BitStreamReader._eof r) eqn:Hflag; simpl; [| reflexivity].
  specialize (Heof eq_refl).
  pose proof (remaining_nonneg (BitStreamReader._stream r)) as Hrem.
  unfold BitStreamReader.available_bits, BitStreamReader.buffered_bits in Heof.
  destruct (Z.geb_spec (BitStreamReader._byte_pos r) (BitStreamReader._buffer_size r));
    [reflexivity | lia].
Qed.

Lemma reachable_reader_well_formed (r : BitStreamReader.t) :
  BitStreamReader.reachable r -> wf r.
Proof.
  induction 1 as [f size Hpos Hsize | r n o _ IH Hcall | r n o _ IH Hcall
                  | r n sg o _ IH Hcall | r _ IH].
  - apply reader_init_well_formed; assumption.
  - destruct (reader_read_bits_keeps r n IH) as (o' & Hcall' & Hwf').
    rewrite Hcall in Hcall'. inversion Hcall'; subst. exact Hwf'.
  - destruct (reader_read_bits_u128_keeps r n IH) as (o' & Hcall' & Hwf').
    rewrite Hcall in Hcall'. inversion Hcall'; subst. exact Hwf'.
  - unfold BitStreamReader.read_bit_value in Hcall.
    destruct (n <=? 64).
    + destruct (reader_read_bits_keeps r n IH) as (o' & Hcall' & Hwf').
      rewrite Hcall' in Hcall. destruct o' as [v r' | e r'];
        inversion Hcall; subst; simpl in *;
        rewrite ?reader_as_bit_value_state; exact Hwf'.
    + destruct (reader_read_bits_u128_keeps r n IH) as (o' & Hcall' & Hwf').
      rewrite Hcall' in Hcall. destruct o' as [v r' | e r'];
        inversion Hcall; subst; simpl in *;
        rewrite ?reader_as_bit_value_state; exact Hwf'.
  - rewrite reader_is_eof_on_well_formed by assumption. exact IH.
Qed.

(** Once the end-of-source flag is set, a read raises at once. *)
Lemma read_bits_after_end (r : BitStreamReader.t) (n : Z) :
  wf r -> BitStreamReader._eof r = true -> 1 <= n <= 64 ->
  BitStreamReader.read_bits r n = Some (Raise EndOfStreamError r).
Proof.
  intros Hwf Hflag Hn. pose proof Hwf as (Hy & Hb & Hsz & Hcap & Hpos & Heof).
  specialize (Heof Hflag).
  pose proof (remaining_nonneg (BitStreamReader._stream r)) as Hrem.
  assert (Hdrained : BitStreamReader._byte_pos r >= BitStreamReader._buffer_size r).
  { unfold BitStreamReader.available_bits, BitStreamReader.buffered_bits in Heof.
    destruct (Z.geb_spec (BitStreamReader._byte_pos r)
                         (BitStreamReader._buffer_size r)); lia. }
  rewrite read_bits_of_counted. unfold BitStreamReader.read_bits_counted.
  replace ((n <=? 0) || (n >? 64)) with false by lia.
  destruct (Z.to_nat n) as [| fuel] eqn:Hfuel; [lia |].
  rewrite reader_loop_step by lia.
  unfold BitStreamReader.read_body.
  replace (BitStreamReader._byte_pos r >=? BitStreamReader._buffer_size r)
    with true by lia.
  rewrite Hflag. reflexivity.
Qed.

(** X10: on every reader a caller can have, [is_eof()] consumes nothing
    and changes nothing, answers with the end-of-source flag, and is never
    true while a bit is left in the buffer or the source. *)
Theorem reader_is_eof_consumes_nothing (r : BitStreamReader.t) :
  BitStreamReader.reachable r ->
  snd (BitStreamReader.is_eof r) = r /\
  fst (BitStreamReader.is_eof r) = BitStreamReader._eof r /\
  (fst (BitStreamReader.is_eof r) = true -> BitStreamReader.available_bits r = 0).
Proof.
  intros Hreach. pose proof (reachable_reader_well_formed r Hreach) as Hwf.
  rewrite reader_is_eof_on_well_formed by assumption. simpl.
  split; [reflexivity |]. split; [reflexivity |].
  apply Hwf.
Qed.

(** X10 on a fresh reader over the byte [0xFF]. *)
Lemma reader_is_eof_consumes_nothing_witness :
  let r := BitStreamReader.init (BytesIO.mk [255] 0) 4 in
  snd (BitStreamReader.is_eof r) = r /\
  fst (BitStreamReader.is_eof r) = BitStreamReader._eof r /\
  (fst (BitStreamReader.is_eof r) = true -> BitStreamReader.available_bits r = 0).
Proof.
  intros r. apply (reader_is_eof_consumes_nothing r).
  apply BitStreamReader.reach_init; simpl; lia.
Defined.

(** X11: on a reader made with a positive buffer size, after any calls,
    a read that asks for more bits than the buffer and the source
    still hold sets the end-of-source flag, whether it raises (nothing
    was left) or returns short; from then on [is_eof()] is true, and
    [read_bits] and [read_bits_u128] with a valid width raise
    [EndOfStreamError] and leave the reader as it is. *)
Theorem reader_past_the_end (r : BitStreamReader.t) (n : Z) :
  BitStreamReader.reachable r -> 1 <= n <= 64 ->
  BitStreamReader.available_bits r < n ->
  exists o,
    BitStreamReader.read_bits r n = Some o /\
    fst (BitStreamReader.is_eof (outcome_state o)) = true /\
    forall k, 1 <= k <= 128 ->
      BitStreamReader.read_bits_u128 (outcome_state o) k
        = Some (Raise EndOfStreamError (outcome_state o)) /\
      (k <= 64 ->
       BitStreamReader.read_bits (outcome_state o) k
         = Some (Raise EndOfStreamError (outcome_state o))).
Proof.
  intros Hreach Hn Hshort. pose proof (reachable_reader_well_formed r Hreach) as Hwf.
  assert (Hend : exists o, BitStreamReader.read_bits r n = Some o /\
                           wf (outcome_state o) /\
                           BitStreamReader._eof (outcome_state o) = true).
  { rewrite read_bits_of_counted.
    destruct (read_bits_counted_cases r n Hwf Hn)
      as [(_ & r' & Hrun & Hwf' & _ & Hflag) | (Hm & v & r' & Hrun & Hwf' & _ & _ & Hflag)];
      rewrite Hrun; eexists; (split; [reflexivity |]); simpl; split; try assumption.
    apply Hflag. lia. }
  destruct Hend as (o & Hcall & Hwf' & Hflag).
  exists o. split; [exact Hcall |].
  split; [rewrite reader_is_eof_on_well_formed by assumption; exact Hflag |].
  intros k Hk. split.
  - unfold BitStreamReader.read_bits_u128.
    replace ((k <=? 0) || (k >? 128)) with false by lia.
    destruct (Z.leb_spec k 64); [apply read_bits_after_end; try assumption; lia |].
    rewrite read_bits_after_end by (try assumption; lia). reflexivity.
  - intros Hk64. apply read_bits_after_end; try assumption; lia.
Qed.

(** X11 over the one-byte source [0xFF]: sixteen bits are asked for. *)
Lemma reader_past_the_end_witness :
  let r := BitStreamReader.init (BytesIO.mk [255] 0) 4 in
  exists o,
    BitStreamReader.read_bits r 16 = Some o /\
    fst (BitStreamReader.is_eof (outcome_state o)) = true /\
    forall k, 1 <= k <= 128 ->
      BitStreamReader.read_bits_u128 (outcome_state o) k
        = Some (Raise EndOfStreamError (outcome_state o)) /\
      (k <= 64 ->
       BitStreamReader.read_bits (outcome_state o) k
         = Some (Raise EndOfStreamError (outcome_state o))).
Proof.
  intros r. apply (reader_past_the_end r 16).
  - apply BitStreamReader.reach_init; simpl; lia.
  - lia.
  - vm_compute. reflexivity.
Defined.

End ReaderStates.

(** ** The bit order of the reader *)

Section ReaderBits.

Local Abbreviation available := BitStreamReader.available_bits.
Local Abbreviation wf := BitStreamReader.well_formed.
Local Abbreviation unread := BitStreamReader.unread_value.

Lemma le_value_testbit_cons (b : Z) (l : list Z) (j : Z) :
  0 <= j ->
  Z.testbit (le_value (b :: l)) j
  = if j <? 8 then Z.testbit b j else Z.testbit (le_value l) (j - 8).
Proof.
  intros Hj. simpl. rewrite Z.lor_spec, Z.land_spec, byte_mask_testbit by lia.
  destruct (Z.ltb_spec j 8) as [Hlt | Hge].
  - rewrite Z.shiftl_spec_low by lia. rewrite andb_true_r, orb_false_r. reflexivity.
  - rewrite Z.shiftl_spec by lia. rewrite andb_false_r. reflexivity.
Qed.

Lemma le_value_shiftr_cons (b : Z) (l : list Z) :
  Z.shiftr (le_value (b :: l)) 8 = le_value l.
Proof.
  apply Z.bits_inj'. intros i Hi.
  rewrite Z.shiftr_spec, le_value_testbit_cons by lia.
  replace (i + 8 <? 8) with false by lia. f_equal. lia.
Qed.

Lemma le_value_high_bits (l : list Z) :
  forall i, 8 * Z.of_nat (length l) <= i -> Z.testbit (le_value l) i = false.
Proof.
  induction l as [| b l IH]; intros i Hi.
  - apply Z.testbit_0_l.
  - simpl length in Hi. rewrite le_value_testbit_cons by lia.
    replace (i <? 8) with false by lia. apply IH. lia.
Qed.

Lemma le_value_range (l : list Z) :
  0 <= le_value l < 2 ^ (8 * Z.of_nat (length l)).
Proof.
  apply bounded_by_bits; [lia |]. apply le_value_high_bits.
Qed.

(** The low [a + b] bits are the low [a] bits, then the next [b]. *)
Lemma low_bits_split (V a b : Z) :
  0 <= a -> 0 <= b ->
  Z.lor (V mod 2 ^ a) (Z.shiftl ((Z.shiftr V a) mod 2 ^ b) a) = V mod 2 ^ (a + b).
Proof.
  intros Ha Hb. apply Z.bits_inj'. intros i Hi.
  rewrite Z.lor_spec, !Z.testbit_mod_pow2 by lia.
  destruct (Z.ltb_spec i a) as [Hlt | Hge].
  - rewrite Z.shiftl_spec_low by lia.
    replace (i <? a + b) with true by lia. rewrite orb_false_r. reflexivity.
  - rewrite Z.shiftl_spec, Z.testbit_mod_pow2, Z.shiftr_spec by lia.
    replace (i - a + a) with i by lia.
    destruct (Z.ltb_spec (i - a) b), (Z.ltb_spec i (a + b)); try lia; reflexivity.
Qed.

(** The byte under the cursor heads the pending bytes. *)
Lemma pending_current (r : BitStreamReader.t) :
  wf r -> BitStreamReader._byte_pos r < BitStreamReader._buffer_size r ->
  exists byte,
    BitStreamReader._buffer r !! Z.to_nat (BitStreamReader._byte_pos r) = Some byte /\
    BitStreamReader.pending r
    = byte :: BitStreamReader.pending
                (BitStreamReader.with_cursor r (BitStreamReader._byte_pos r + 1) 0).
Proof.
  intros (Hy & Hb & Hsz & Hcap & Hpos & Heof) Hin.
  destruct (lookup_in_range (BitStreamReader._buffer r) (BitStreamReader._byte_pos r)
              ltac:(lia)) as [byte Hbyte].
  exists byte. split; [exact Hbyte |].
  unfold BitStreamReader.pending. simpl.
  replace (Z.to_nat (BitStreamReader._byte_pos r + 1))
    with (S (Z.to_nat (BitStreamReader._byte_pos r))) by lia.
  rewrite (drop_S _ byte (Z.to_nat (BitStreamReader._byte_pos r))).
  - reflexivity.
  - rewrite lookup_take_lt by lia. exact Hbyte.
Qed.

Lemma unread_value_range (r : BitStreamReader.t) :
  wf r -> 0 <= unread r < 2 ^ available r.
Proof.
  intros (Hy & Hb & Hsz & Hcap & Hpos & Heof).
  pose proof (remaining_nonneg (BitStreamReader._stream r)) as Hrem.
  unfold BitStreamReader.unread_value, BitStreamReader.available_bits,
    BitStreamReader.buffered_bits.
  destruct (Z.geb_spec (BitStreamReader._byte_pos r) (BitStreamReader._buffer_size r))
    as [Hdrained | Hin].
  - apply bounded_by_bits; [lia |]. intros i Hi. apply le_value_high_bits.
    unfold BitStreamReader.pending. rewrite length_app, !length_drop, length_take.
    unfold BytesIO.remaining in *. rewrite length_drop in *. lia.
  - apply bounded_by_bits; [lia |]. intros i Hi.
    rewrite Z.shiftr_spec by lia. apply le_value_high_bits.
    unfold BitStreamReader.pending. rewrite length_app, !length_drop, length_take.
    unfold BytesIO.remaining in *. rewrite length_drop in *. lia.
Qed.

(** A refill moves bytes from the source into the buffer; what is still
    to be read stays the same. *)
Lemma fill_buffer_pending (r : BitStreamReader.t) :
  wf r -> BitStreamReader._byte_pos r >= BitStreamReader._buffer_size r ->
  BitStreamReader.pending (BitStreamReader._fill_buffer r) = BitStreamReader.pending r.
Proof.
  intros (Hy & Hb & Hsz & Hcap & Hpos & Heof) Hdrained.
  unfold BitStreamReader._fill_buffer, BytesIO.read.
  set (L := Z.to_nat (Z.of_nat (length (BitStreamReader._buffer r)))).
  set (X := drop (Z.to_nat (BytesIO.pos (BitStreamReader._stream r)))
                 (BytesIO.content (BitStreamReader._stream r))).
  assert (Hdrop : drop (Z.to_nat (BitStreamReader._byte_pos r))
                       (take (Z.to_nat (BitStreamReader._buffer_size r))
                             (BitStreamReader._buffer r)) = []).
  { apply drop_ge. rewrite length_take. lia. }
  assert (Hsplit : take L X ++ drop (length (take L X)) X = X).
  { rewrite length_take. destruct (Nat.le_gt_cases L (length X)) as [Hle | Hgt].
    - rewrite Nat.min_l by lia. apply take_drop.
    - rewrite Nat.min_r by lia. rewrite take_ge, drop_ge by lia. apply app_nil_r. }
  assert (Hrest : forall k : nat,
             drop (Z.to_nat (BytesIO.pos (BitStreamReader._stream r) + Z.of_nat k))
                  (BytesIO.content (BitStreamReader._stream r)) = drop k X).
  { intros k. unfold X. rewrite drop_drop. f_equal. lia. }
  destruct (take L X) as [| b bs] eqn:Etake; unfold BitStreamReader.pending; simpl;
    rewrite Hdrop; fold X.
  - rewrite (Hrest 0%nat). reflexivity.
  - rewrite (Hrest (S (length bs))). rewrite Nat2Z.id.
    change (Z.to_nat 0) with 0%nat. rewrite drop_0.
    change (take (S (length bs))
                 (b :: bs ++ drop (S (length bs)) (BitStreamReader._buffer r)))
      with (take (length (b :: bs))
                 ((b :: bs) ++ drop (S (length bs)) (BitStreamReader._buffer r))).
    rewrite take_app_length. exact Hsplit.
Qed.

Lemma fill_buffer_unread (r : BitStreamReader.t) :
  wf r -> BitStreamReader._byte_pos r >= BitStreamReader._buffer_size r ->
  unread (BitStreamReader._fill_buffer r) = unread r /\
  unread (BitStreamReader.with_eof (BitStreamReader._fill_buffer r) true) = unread r.
Proof.
  intros Hwf Hdrained. pose proof (fill_buffer_pending r Hwf Hdrained) as Hpend.
  assert (Hcur : BitStreamReader._bit_pos (BitStreamReader._fill_buffer r) = 0).
  { unfold BitStreamReader._fill_buffer.
    destruct (BytesIO.read _ _) as [[| b bs] f]; reflexivity. }
  assert (Heq : unread (BitStreamReader._fill_buffer r) = unread r).
  { unfold BitStreamReader.unread_value. rewrite Hpend, Hcur, Z.shiftr_0_r.
    replace (BitStreamReader._byte_pos r >=? BitStreamReader._buffer_size r)
      with true by lia.
    destruct (_ >=? _); reflexivity. }
  split; [exact Heq |]. rewrite <- Heq. reflexivity.
Qed.

(** One pass through the lower half of the loop body: the chunk is the
    low end of what is unread, and the rest moves down. *)
Lemma take_bits_value (n acc k : Z) (r : BitStreamReader.t) :
  wf r -> BitStreamReader._byte_pos r < BitStreamReader._buffer_size r ->
  0 <= k < n ->
  let btr := Z.min (n - k) (8 - BitStreamReader._bit_pos r) in
  BitStreamReader.take_bits n (acc, k) r
    = Next (Z.lor acc (Z.shiftl (unread r mod 2 ^ btr) k), k + btr)
           (BitStreamReader.advance r btr) /\
  unread (BitStreamReader.advance r btr) = Z.shiftr (unread r) btr.
Proof.
  intros Hwf Hin Hk btr.
  pose proof Hwf as (Hy & Hb & Hsz & Hcap & Hpos & Heof).
  destruct (pending_current r Hwf Hin) as (byte & Hbyte & Hpend).
  assert (Hunread : unread r
                    = Z.shiftr (le_value (BitStreamReader.pending r))
                               (BitStreamReader._bit_pos r)).
  { unfold BitStreamReader.unread_value.
    replace (BitStreamReader._byte_pos r >=? BitStreamReader._buffer_size r)
      with false by lia. reflexivity. }
  split.
  - unfold BitStreamReader.take_bits. fold btr.
    rewrite getitem_in_range, Hbyte by lia.
    replace ((btr <? 0) || (BitStreamReader._bit_pos r <? 0)) with false by lia.
    assert (Hchunk : Z.land (Z.shiftr byte (BitStreamReader._bit_pos r))
                            (Z.shiftl 1 btr - 1) = unread r mod 2 ^ btr);
      [| rewrite Hchunk; reflexivity].
    apply Z.bits_inj'. intros j Hj.
    rewrite extracted_testbit, Z.testbit_mod_pow2 by lia.
    rewrite Hunread, Z.shiftr_spec, Hpend, le_value_testbit_cons by lia.
    destruct (Z.ltb_spec j btr) as [Hlt | Hge];
      [| rewrite andb_false_r; reflexivity].
    replace (j + BitStreamReader._bit_pos r <? 8) with true by lia.
    rewrite andb_true_r. reflexivity.
  - rewrite Hunread, Z.shiftr_shiftr by lia.
    unfold BitStreamReader.advance, BitStreamReader.unread_value.
    destruct (Z.eqb_spec (BitStreamReader._bit_pos r + btr) 8) as [Hfull | Hpart].
    + rewrite Hfull, Hpend, le_value_shiftr_cons. simpl.
      rewrite Z.shiftr_0_r. destruct (_ >=? _); reflexivity.
    + simpl.
      replace (BitStreamReader._byte_pos r >=? BitStreamReader._buffer_size r)
        with false by lia. reflexivity.
Qed.

(** The value the loop builds: whatever it returns, the bits it added are
    the low end of what was unread, and the rest moved down. *)
Lemma reader_loop_value (fuel : nat) :
  forall (n acc k : Z) (r : BitStreamReader.t) (v k' : Z) (r' : BitStreamReader.t),
    wf r -> 0 <= k ->
    BitStreamReader.read_loop fuel n (acc, k) r = Some (Return (v, k') r') ->
    k <= k' /\
    v = Z.lor acc (Z.shiftl (unread r mod 2 ^ (k' - k)) k) /\
    unread r' = Z.shiftr (unread r) (k' - k).
Proof.
  assert (Hstop : forall acc k r,
             k <= k /\
             acc = Z.lor acc (Z.shiftl (unread r mod 2 ^ (k - k)) k) /\
             unread r = Z.shiftr (unread r) (k - k)).
  { intros acc k r. rewrite Z.sub_diag, Z.pow_0_r, Z.mod_1_r, Z.shiftl_0_l,
      Z.lor_0_r, Z.shiftr_0_r. repeat split; lia. }
  induction fuel as [| fuel IH]; intros n acc k r v k' r' Hwf Hk Hrun.
  - simpl in Hrun. destruct (k <? n); [discriminate |].
    inversion Hrun; subst. apply Hstop.
  - destruct (Z.ltb_spec k n) as [Hlt | Hge];
      [| rewrite reader_loop_done in Hrun by lia; inversion Hrun; subst; apply Hstop].
    rewrite reader_loop_step in Hrun by assumption.
    assert (Htake : forall r1,
               wf r1 -> BitStreamReader._byte_pos r1 < BitStreamReader._buffer_size r1 ->
               unread r1 = unread r ->
               match BitStreamReader.take_bits n (acc, k) r1 with
               | Next acc' r2 => BitStreamReader.read_loop fuel n acc' r2
               | Break r2 => Some (Return (acc, k) r2)
               | Throw e r2 => Some (Raise e r2)
               end = Some (Return (v, k') r') ->
               k <= k' /\
               v = Z.lor acc (Z.shiftl (unread r mod 2 ^ (k' - k)) k) /\
               unread r' = Z.shiftr (unread r) (k' - k)).
    { intros r1 Hwf1 Hin1 Hsame Hrun1.
      pose proof Hwf1 as (_ & Hb1 & _).
      destruct (take_bits_value n acc k r1 Hwf1 Hin1 ltac:(lia)) as (Hstep & Hrest).
      destruct (take_bits_spec n 0 k r1 Hwf1 Hin1 ltac:(lia)
                  ltac:(split; [lia | apply Z.pow_pos_nonneg; lia]))
        as (_ & _ & _ & Hbtr & Hwf2 & _).
      cbv zeta in Hstep, Hrest, Hbtr, Hwf2.
      set (btr := Z.min (n - k) (8 - BitStreamReader._bit_pos r1)) in *.
      rewrite Hstep in Hrun1.
      apply IH in Hrun1 as (Hle & Hv & Hr'); [| exact Hwf2 | lia].
      rewrite Hrest, Hsame in Hr', Hv.
      split; [lia |]. split.
      - rewrite Hv, <- Z.lor_assoc. f_equal.
        replace (k' - k) with (btr + (k' - (k + btr))) by lia.
        rewrite <- (low_bits_split (unread r) btr (k' - (k + btr))) by lia.
        rewrite Z.shiftl_lor, Z.shiftl_shiftl by lia.
        rewrite (Z.add_comm btr k). reflexivity.
      - rewrite Hr', Z.shiftr_shiftr by lia. f_equal. lia. }
    unfold BitStreamReader.read_body in Hrun. simpl snd in Hrun.
    destruct (Z.geb_spec (BitStreamReader._byte_pos r) (BitStreamReader._buffer_size r))
      as [Hdrained | Hin].
    + destruct (BitStreamReader._eof r) eqn:Hflag.
      * destruct (k =? 0); [discriminate |]. inversion Hrun; subst. apply Hstop.
      * destruct (fill_buffer_unread r Hwf ltac:(lia)) as (Hfill & Hfill').
        destruct (Z.eqb_spec (BitStreamReader._buffer_size (BitStreamReader._fill_buffer r)) 0)
          as [Hempty | Hsome].
        -- destruct (k =? 0); [discriminate |]. inversion Hrun; subst.
           rewrite Hfill'. apply Hstop.
        -- assert (Hrem : 0 < BytesIO.remaining (BitStreamReader._stream r)).
           { pose proof (remaining_nonneg (BitStreamReader._stream r)) as Hrem0.
             destruct (Z.eq_dec (BytesIO.remaining (BitStreamReader._stream r)) 0)
               as [Hz | Hnz]; [| lia].
             destruct (fill_buffer_empty r Hwf Hz) as (Hsize & _). contradiction. }
           destruct (fill_buffer_some r Hwf Hrem ltac:(lia) Hflag) as (Hin1 & Hwf1 & _).
           apply (Htake _ Hwf1 Hin1 Hfill Hrun).
    + apply (Htake r Hwf Hin eq_refl Hrun).
Qed.

(** [read_bits] on a well-formed reader with something left to read. *)
Lemma reader_read_bits_value (r : BitStreamReader.t) (n : Z) :
  wf r -> 1 <= n <= 64 -> 0 < available r ->
  exists r',
    BitStreamReader.read_bits r n = Some (Return (unread r mod 2 ^ n) r') /\
    wf r' /\
    unread r' = Z.shiftr (unread r) n /\
    available r' = available r - Z.min n (available r).
Proof.
  intros Hwf Hn Hsome.
  pose proof (unread_value_range r Hwf) as HV.
  destruct (read_bits_counted_cases r n Hwf Hn)
    as [(Hm & _) | (Hm & v & r' & Hrun & Hwf' & Havail & _ & _)]; [lia |].
  pose proof (unread_value_range r' Hwf') as HV'.
  pose proof Hrun as Hloop. unfold BitStreamReader.read_bits_counted in Hloop.
  replace ((n <=? 0) || (n >? 64)) with false in Hloop by lia.
  apply reader_loop_value in Hloop as (_ & Hv & Hrest); [| exact Hwf | lia].
  rewrite Z.sub_0_r, Z.shiftl_0_r, Z.lor_0_l in Hv. rewrite Z.sub_0_r in Hrest.
  assert (Hvalue : unread r mod 2 ^ Z.min n (available r) = unread r mod 2 ^ n
                   /\ Z.shiftr (unread r) (Z.min n (available r))
                      = Z.shiftr (unread r) n).
  { destruct (Z.le_ge_cases n (available r)) as [Hfull | Hshort];
      [rewrite Z.min_l by lia; split; reflexivity |].
    rewrite Z.min_r by lia.
    assert (2 ^ available r <= 2 ^ n) by (apply Z.pow_le_mono_r; lia).
    rewrite !Z.mod_small, !Z.shiftr_div_pow2, !Z.div_small by lia.
    split; reflexivity. }
  destruct Hvalue as (Hlow & Hhigh).
  exists r'. rewrite read_bits_of_counted, Hrun, Hv, Hlow.
  split; [reflexivity |]. split; [exact Hwf' |].
  split; [rewrite Hrest; exact Hhigh | exact Havail].
Qed.

(** X12: the bit order of [BitStreamReader.read_bits], on a reader made
    with a positive buffer size, after any calls. What a reader has
    not read yet is one integer: the rest of its buffer followed by the
    rest of the source, first byte least significant, less the bits
    already taken from the current byte. With at least one bit left,
    [read_bits(n)] returns the low [n] bits of that integer, also across
    byte boundaries and refills of the buffer, and leaves the integer
    shifted down by [n]; a read with fewer than [n] bits left returns the
    bits there are, zero-extended. *)
Theorem reader_read_bits_lsb_first (r : BitStreamReader.t) (n : Z) :
  BitStreamReader.reachable r -> 1 <= n <= 64 ->
  0 < BitStreamReader.available_bits r ->
  exists r',
    BitStreamReader.read_bits r n
      = Some (Return (BitStreamReader.unread_value r mod 2 ^ n) r') /\
    BitStreamReader.unread_value r' = Z.shiftr (BitStreamReader.unread_value r) n /\
    BitStreamReader.available_bits r'
      = BitStreamReader.available_bits r - Z.min n (BitStreamReader.available_bits r).
Proof.
  intros Hreach Hn Hsome.
  destruct (reader_read_bits_value r n (reachable_reader_well_formed r Hreach) Hn Hsome)
    as (r' & Hcall & _ & Hrest & Havail).
  exists r'. repeat split; assumption.
Qed.

(** X12 on the source [0x34 0x12] with a one-byte buffer: twelve bits. *)
Lemma reader_read_bits_lsb_first_witness :
  let r := BitStreamReader.init (BytesIO.mk [52; 18] 0) 1 in
  exists r',
    BitStreamReader.read_bits r 12
      = Some (Return (BitStreamReader.unread_value r mod 2 ^ 12) r') /\
    BitStreamReader.unread_value r' = Z.shiftr (BitStreamReader.unread_value r) 12 /\
    BitStreamReader.available_bits r'
      = BitStreamReader.available_bits r - Z.min 12 (BitStreamReader.available_bits r).
Proof.
  intros r. apply (reader_read_bits_lsb_first r 12).
  - apply BitStreamReader.reach_init; simpl; lia.
  - lia.
  - vm_compute. reflexivity.
Defined.

(** [read_bits_u128] on a well-formed reader that has all the bits. *)
Lemma reader_read_bits_u128_value (r : BitStreamReader.t) (n : Z) :
  wf r -> 1 <= n <= 128 -> n <= available r ->
  exists r',
    BitStreamReader.read_bits_u128 r n = Some (Return (unread r mod 2 ^ n) r') /\
    wf r' /\
    unread r' = Z.shiftr (unread r) n /\
    available r' = available r - n.
Proof.
  intros Hwf Hn Hall.
  unfold BitStreamReader.read_bits_u128.
  replace ((n <=? 0) || (n >? 128)) with false by lia.
  destruct (Z.leb_spec n 64) as [Hsmall | Hwide].
  - destruct (reader_read_bits_value r n Hwf ltac:(lia) ltac:(lia))
      as (r' & Hcall & Hwf' & Hrest & Havail).
    exists r'. rewrite Z.min_l in Havail by lia.
    split; [exact Hcall |]. split; [exact Hwf' |]. split; assumption.
  - destruct (reader_read_bits_value r 64 Hwf ltac:(lia) ltac:(lia))
      as (r1 & Hcall1 & Hwf1 & Hrest1 & Havail1).
    rewrite Z.min_l in Havail1 by lia.
    destruct (reader_read_bits_value r1 (n - 64) Hwf1 ltac:(lia) ltac:(lia))
      as (r2 & Hcall2 & Hwf2 & Hrest2 & Havail2).
    rewrite Z.min_l in Havail2 by lia.
    exists r2. rewrite Hcall1, Hcall2, Hrest1.
    rewrite Z.lor_comm, low_bits_split by lia.
    replace (64 + (n - 64)) with n by lia.
    split; [reflexivity |]. split; [exact Hwf2 |]. split.
    + rewrite Hrest2, Hrest1, Z.shiftr_shiftr by lia. f_equal. lia.
    + lia.
Qed.

(** X13: on a reader made with a positive buffer size, after any calls,
    [BitStreamReader.read_bits_u128(n)] with all [n] bits there
    returns the low [n] bits of the unread integer for every width
    1..128: the two halves of a wide read are put together in the order
    they were read. *)
Theorem reader_read_bits_u128_lsb_first (r : BitStreamReader.t) (n : Z) :
  BitStreamReader.reachable r -> 1 <= n <= 128 ->
  n <= BitStreamReader.available_bits r ->
  exists r',
    BitStreamReader.read_bits_u128 r n
      = Some (Return (BitStreamReader.unread_value r mod 2 ^ n) r') /\
    BitStreamReader.unread_value r' = Z.shiftr (BitStreamReader.unread_value r) n /\
    BitStreamReader.available_bits r' = BitStreamReader.available_bits r - n.
Proof.
  intros Hreach Hn Hall.
  destruct (reader_read_bits_u128_value r n (reachable_reader_well_formed r Hreach)
              Hn Hall) as (r' & Hcall & _ & Hrest & Havail).
  exists r'. repeat split; assumption.
Qed.

(** X13 on a source of sixteen bytes [1..16], buffer of three bytes. *)
Lemma reader_read_bits_u128_lsb_first_witness :
  let r := BitStreamReader.init
             (BytesIO.mk [1; 2; 3; 4; 5; 6; 7; 8; 9; 10; 11; 12; 13; 14; 15; 16] 0) 3 in
  exists r',
    BitStreamReader.read_bits_u128 r 100
      = Some (Return (BitStreamReader.unread_value r mod 2 ^ 100) r') /\
    BitStreamReader.unread_value r' = Z.shiftr (BitStreamReader.unread_value r) 100 /\
    BitStreamReader.available_bits r' = BitStreamReader.available_bits r - 100.
Proof.
  intros r. apply (reader_read_bits_u128_lsb_first r 100).
  - apply BitStreamReader.reach_init; simpl; lia.
  - lia.
  - vm_compute. discriminate.
Defined.

(** The constructor call at the end of the reader's [read_bit_value] on
    the bits just read. *)
Lemma reader_as_bit_value_raw (raw n : Z) (sg : bool) (r : BitStreamReader.t) :
  1 <= n <= 128 -> 0 <= raw < 2 ^ n ->
  let value := if sg && Z.testbit raw (n - 1) then raw - 2 ^ n else raw in
  BitStreamReader.as_bit_value raw n sg r
  = Return (BitValue.mk value n (value <? 0)) r.
Proof.
  intros Hn Hraw value.
  assert (Hpow : 0 < 2 ^ (n - 1)) by (apply Z.pow_pos_nonneg; lia).
  assert (Hdouble : 2 ^ n = 2 * 2 ^ (n - 1)).
  { replace n with (Z.succ (n - 1)) at 1 by lia. apply Z.pow_succ_r. lia. }
  assert (Hvalue : if value <? 0 then - 2 ^ (n - 1) <= value
                   else 0 <= value < 2 ^ n).
  { unfold value. destruct sg; simpl.
    - destruct (Z.testbit raw (n - 1)) eqn:Htop.
      + destruct (Z.lt_ge_cases raw (2 ^ (n - 1))) as [Hlow | Hhigh].
        * rewrite top_bit_clear in Htop by lia. discriminate.
        * replace (raw - 2 ^ n <? 0) with true by lia. lia.
      + replace (raw <? 0) with false by lia. lia.
    - replace (raw <? 0) with false by lia. lia. }
  unfold BitStreamReader.as_bit_value. rewrite sign_bit_test by lia.
  rewrite Z.shiftl_1_l. fold value.
  unfold BitValue.init. replace ((n <=? 0) || (n >? 128)) with false by lia.
  rewrite !Z.shiftl_1_l.
  destruct (value <? 0) eqn:Hsign.
  - replace ((value <? - 2 ^ (n - 1)) || (value >? 2 ^ (n - 1) - 1)) with false by lia.
    reflexivity.
  - replace (false || (value >? 2 ^ n - 1)) with false by lia. reflexivity.
Qed.

(** X14: on a reader made with a positive buffer size, after any calls,
    [BitStreamReader.read_bit_value(n, is_signed)] with all [n]
    bits there, for every width 1..128, consumes [n] bits and returns the
    BitValue of width [n] whose value is the low [n] bits of the unread
    integer, read as two's complement when [is_signed] is given and the
    top bit is set; its tag says whether that value is negative. *)
Theorem reader_read_bit_value_result (r : BitStreamReader.t) (n : Z) (is_signed : bool) :
  BitStreamReader.reachable r -> 1 <= n <= 128 ->
  n <= BitStreamReader.available_bits r ->
  let raw := BitStreamReader.unread_value r mod 2 ^ n in
  let value := if is_signed && Z.testbit raw (n - 1) then raw - 2 ^ n else raw in
  exists r',
    BitStreamReader.read_bit_value r n is_signed
      = Some (Return (BitValue.mk value n (value <? 0)) r') /\
    BitStreamReader.unread_value r' = Z.shiftr (BitStreamReader.unread_value r) n /\
    BitStreamReader.available_bits r' = BitStreamReader.available_bits r - n.
Proof.
  intros Hreach Hn Hall raw value.
  pose proof (reachable_reader_well_formed r Hreach) as Hwf.
  assert (Hraw : 0 <= raw < 2 ^ n)
    by (apply Z.mod_pos_bound, Z.pow_pos_nonneg; lia).
  unfold BitStreamReader.read_bit_value.
  destruct (Z.leb_spec n 64) as [Hsmall | Hwide].
  - destruct (reader_read_bits_value r n Hwf ltac:(lia) ltac:(lia))
      as (r' & Hcall & _ & Hrest & Havail).
    rewrite Z.min_l in Havail by lia.
    exists r'. rewrite Hcall. fold raw.
    rewrite reader_as_bit_value_raw by assumption. repeat split; assumption.
  - destruct (reader_read_bits_u128_value r n Hwf Hn Hall)
      as (r' & Hcall & _ & Hrest & Havail).
    exists r'. rewrite Hcall. fold raw.
    rewrite reader_as_bit_value_raw by assumption. repeat split; assumption.
Qed.

(** X14 on the source [0xFE 0xFF], read as a signed 16-bit value: -2. *)
Lemma reader_read_bit_value_result_witness :
  let r := BitStreamReader.init (BytesIO.mk [254; 255] 0) 1 in
  let raw := BitStreamReader.unread_value r mod 2 ^ 16 in
  let value := if true && Z.testbit raw (16 - 1) then raw - 2 ^ 16 else raw in
  exists r',
    BitStreamReader.read_bit_value r 16 true
      = Some (Return (BitValue.mk value 16 (value <? 0)) r') /\
    BitStreamReader.unread_value r' = Z.shiftr (BitStreamReader.unread_value r) 16 /\
    BitStreamReader.available_bits r' = BitStreamReader.available_bits r - 16.
Proof.
  intros r. apply (reader_read_bit_value_result r 16 true).
  - apply BitStreamReader.reach_init; simpl; lia.
  - lia.
  - vm_compute. discriminate.
Defined.

End ReaderBits.

(** ** The writer between calls *)

Section WriterCalls.

Local Abbreviation wfw := BitStreamWriter.well_formed.
Local Abbreviation taken := BitStreamWriter.bits_taken.
Local Abbreviation complete := BitStreamWriter.complete_bytes.

Lemma writer_init_well_formed (sink : list Z) (buffer_size : Z) :
  0 < buffer_size -> wfw (BitStreamWriter.init sink buffer_size).
Proof.
  intros Hsize. unfold BitStreamWriter.well_formed, BitStreamWriter.init. simpl.
  rewrite length_replicate. lia.
Qed.

(** [_flush_buffer()] on a writer whose cursor may stand at the end of
    the buffer: the bytes before the cursor go to the sink. *)
Lemma writer_flush_buffer (w : BitStreamWriter.t) :
  0 <= BitStreamWriter._byte_pos w <= BitStreamWriter._buffer_size w ->
  0 < BitStreamWriter._buffer_size w ->
  Z.of_nat (length (BitStreamWriter._buffer w)) = BitStreamWriter._buffer_size w ->
  exists w',
    BitStreamWriter._flush_buffer w = Return tt w' /\
    BitStreamWriter._stream w' = complete w /\
    BitStreamWriter._byte_pos w' = 0 /\
    BitStreamWriter._bit_pos w' = BitStreamWriter._bit_pos w /\
    BitStreamWriter._buffer_size w' = BitStreamWriter._buffer_size w /\
    length (BitStreamWriter._buffer w') = length (BitStreamWriter._buffer w).
Proof.
  intros Hy Hsize Hlen. unfold BitStreamWriter._flush_buffer.
  destruct (Z.gtb_spec (BitStreamWriter._byte_pos w) 0) as [Hsome | Hnone].
  - simpl. rewrite setitem_in_range by lia. eexists. split; [reflexivity |].
    simpl. rewrite length_insert. repeat split; reflexivity.
  - exists w. assert (Hzero : BitStreamWriter._byte_pos w = 0) by lia.
    unfold BitStreamWriter.complete_bytes. rewrite Hzero. simpl.
    rewrite take_0, app_nil_r. repeat split; reflexivity.
Qed.

(** One pass through the loop body of [write_bits]. *)
Lemma writer_body_step (value n k : Z) (w : BitStreamWriter.t) :
  wfw w -> 0 <= k < n ->
  let btw := Z.min (n - k) (8 - BitStreamWriter._bit_pos w) in
  let full := BitStreamWriter._bit_pos w + btw =? 8 in
  exists b0 w',
    BitStreamWriter._buffer w !! Z.to_nat (BitStreamWriter._byte_pos w) = Some b0 /\
    BitStreamWriter.write_body value n k w = Next (k + btw) w' /\
    wfw w' /\
    BitStreamWriter._buffer_size w' = BitStreamWriter._buffer_size w /\
    taken w' = taken w + btw /\
    BitStreamWriter._bit_pos w'
      = (if full then 0 else BitStreamWriter._bit_pos w + btw) /\
    complete w'
      = complete w
        ++ (if full
            then [stored_byte b0 value k (8 - BitStreamWriter._bit_pos w - btw) btw]
            else []).
Proof.
  intros (Hy & Hb & Hlen) Hk btw full.
  destruct (lookup_in_range (BitStreamWriter._buffer w) (BitStreamWriter._byte_pos w)
              ltac:(lia)) as [b0 Hb0].
  exists b0.
  set (byte_shift := 8 - BitStreamWriter._bit_pos w - btw).
  set (stored := stored_byte b0 value k byte_shift btw).
  set (buf2 := <[Z.to_nat (BitStreamWriter._byte_pos w) := stored]>
                 (BitStreamWriter._buffer w)).
  set (w2 := BitStreamWriter.with_buffer w buf2).
  assert (Hstored : 0 <= stored < 256)
    by (apply stored_byte_range; unfold byte_shift; lia).
  assert (Hlen2 : length buf2 = length (BitStreamWriter._buffer w))
    by apply length_insert.
  assert (Htake : take (Z.to_nat (BitStreamWriter._byte_pos w)) buf2
                  = take (Z.to_nat (BitStreamWriter._byte_pos w))
                         (BitStreamWriter._buffer w))
    by (apply take_insert_ge; lia).
  assert (Htake1 : take (Z.to_nat (BitStreamWriter._byte_pos w + 1)) buf2
                   = take (Z.to_nat (BitStreamWriter._byte_pos w))
                          (BitStreamWriter._buffer w) ++ [stored]).
  { replace (Z.to_nat (BitStreamWriter._byte_pos w + 1))
      with (S (Z.to_nat (BitStreamWriter._byte_pos w))) by lia.
    rewrite (take_S_r _ _ stored), Htake; [reflexivity |].
    apply list_lookup_insert_eq. lia. }
  assert (Hbody : BitStreamWriter.write_body value n k w
                  = if full then
                      let w3 := BitStreamWriter.with_cursor w2
                                  (BitStreamWriter._byte_pos w + 1) 0 in
                      if BitStreamWriter._byte_pos w + 1 >=? BitStreamWriter._buffer_size w
                      then match BitStreamWriter._flush_buffer w3 with
                           | Return _ w4 => Next (k + btw) w4
                           | Raise e w4 => Throw e w4
                           end
                      else Next (k + btw) w3
                    else Next (k + btw)
                           (BitStreamWriter.with_cursor w2 (BitStreamWriter._byte_pos w)
                              (BitStreamWriter._bit_pos w + btw))).
  { unfold BitStreamWriter.write_body. fold btw.
    replace ((btw <? 0) || (k <? 0)) with false by lia.
    rewrite getitem_in_range, Hb0 by lia.
    rewrite setitem_in_range by (try apply masked_byte_range; lia).
    rewrite getitem_in_range by (rewrite length_insert; lia).
    rewrite list_lookup_insert_eq by lia.
    rewrite setitem_in_range
      by (try (rewrite length_insert; lia); exact Hstored).
    rewrite list_insert_insert_eq. reflexivity. }
  rewrite Hbody. unfold full.
  destruct (Z.eqb_spec (BitStreamWriter._bit_pos w + btw) 8) as [Hfull | Hpart].
  - cbv zeta.
    destruct (Z.geb_spec (BitStreamWriter._byte_pos w + 1)
                         (BitStreamWriter._buffer_size w)) as [Hend | Hroom].
    + destruct (writer_flush_buffer
                  (BitStreamWriter.with_cursor w2 (BitStreamWriter._byte_pos w + 1) 0))
        as (w4 & Hflush & Hsink & Hbp & Hbit & Hsize & Hlen4);
        [simpl; lia | simpl; lia | simpl; rewrite Hlen2; lia |].
      rewrite Hflush. exists w4. simpl in *.
      split; [exact Hb0 |]. split; [reflexivity |].
      split; [unfold BitStreamWriter.well_formed; rewrite Hbp, Hbit, Hsize, Hlen4, Hlen2; lia |].
      split; [exact Hsize |].
      split.
      { unfold BitStreamWriter.bits_taken. rewrite Hsink, Hbp, Hbit.
        unfold BitStreamWriter.complete_bytes. simpl.
        rewrite length_app, length_take, Hlen2. lia. }
      split; [exact Hbit |].
      unfold BitStreamWriter.complete_bytes at 1. rewrite Hsink, Hbp. simpl.
      rewrite take_0, app_nil_r.
      unfold BitStreamWriter.complete_bytes. simpl. rewrite Htake1.
      rewrite <- app_assoc. reflexivity.
    + eexists. split; [exact Hb0 |]. split; [reflexivity |].
      unfold BitStreamWriter.well_formed, BitStreamWriter.bits_taken,
        BitStreamWriter.complete_bytes. simpl. rewrite Hlen2, Htake1, <- app_assoc.
      repeat split; try reflexivity; lia.
  - eexists. split; [exact Hb0 |]. split; [reflexivity |].
    unfold BitStreamWriter.well_formed, BitStreamWriter.bits_taken,
      BitStreamWriter.complete_bytes. simpl. rewrite Hlen2, Htake, app_nil_r.
    repeat split; try reflexivity; lia.
Qed.

Lemma writer_loop_done (fuel : nat) (value n k : Z) (w : BitStreamWriter.t) :
  n <= k -> BitStreamWriter.write_loop fuel value n k w = Some (Return tt w).
Proof.
  intros H. destruct fuel; simpl; replace (k <? n) with false by lia; reflexivity.
Qed.

Lemma writer_loop_step (fuel : nat) (value n k : Z) (w : BitStreamWriter.t) :
  k < n ->
  BitStreamWriter.write_loop (S fuel) value n k w
  = match BitStreamWriter.write_body value n k w with
    | Next k' w' => BitStreamWriter.write_loop fuel value n k' w'
    | Break w' => Some (Return tt w')
    | Throw e w' => Some (Raise e w')
    end.
Proof.
  intros H. simpl. replace (k <? n) with true by lia. reflexivity.
Qed.

(** The write loop of the writer: it ends, takes exactly the bits asked
    for, and only adds to the bytes that are complete. *)
Lemma writer_loop_spec (value n : Z) (fuel : nat) :
  forall (k : Z) (w : BitStreamWriter.t),
    wfw w -> 0 <= k <= n -> (Z.to_nat (n - k) <= fuel)%nat ->
    exists w' more,
      BitStreamWriter.write_loop fuel value n k w = Some (Return tt w') /\
      wfw w' /\
      BitStreamWriter._buffer_size w' = BitStreamWriter._buffer_size w /\
      taken w' = taken w + (n - k) /\
      complete w' = complete w ++ more.
Proof.
  induction fuel as [| fuel IH]; intros k w Hwf Hk Hfuel.
  - exists w, []. rewrite writer_loop_done, app_nil_r by lia.
    repeat split; try apply Hwf; lia.
  - destruct (Z.ltb_spec k n) as [Hlt | Hge].
    2:{ exists w, []. rewrite writer_loop_done, app_nil_r by lia.
        repeat split; try apply Hwf; lia. }
    rewrite writer_loop_step by assumption.
    pose proof Hwf as (_ & Hb & _).
    destruct (writer_body_step value n k w Hwf ltac:(lia))
      as (b0 & w1 & _ & Hbody & Hwf1 & Hsize1 & Htaken1 & _ & Hcomplete1).
    cbv zeta in Hbody, Htaken1, Hcomplete1.
    set (btw := Z.min (n - k) (8 - BitStreamWriter._bit_pos w)) in *.
    rewrite Hbody.
    destruct (IH (k + btw) w1 Hwf1 ltac:(lia) ltac:(lia))
      as (w' & more & Hrun & Hwf' & Hsize' & Htaken' & Hcomplete').
    exists w'. eexists. split; [exact Hrun |]. split; [exact Hwf' |].
    split; [lia |]. split; [lia |].
    rewrite Hcomplete', Hcomplete1, <- app_assoc. reflexivity.
Qed.

(** A whole byte stored at the start of a byte is that byte of the
    value, whatever the buffer held before. *)
Lemma stored_whole_byte (old value k : Z) :
  0 <= k -> stored_byte old value k 0 8 = Z.land (Z.shiftr value k) 255.
Proof.
  intros Hk. apply Z.bits_inj'. intros j Hj.
  rewrite stored_byte_testbit, Z.land_spec, Z.shiftr_spec, byte_mask_testbit by lia.
  replace (j - 0 + k) with (j + k) by lia.
  destruct (Z.ltb_spec j 8) as [Hlt | Hge].
  - replace ((0 <=? j) && (j <? 0 + 8)) with true by lia.
    rewrite andb_true_r. reflexivity.
  - replace ((0 <=? j) && (j <? 0 + 8)) with false by lia.
    rewrite !andb_false_r. reflexivity.
Qed.

(** The loop on whole bytes from a byte boundary. *)
Lemma writer_loop_whole_bytes (value : Z) (fuel : nat) :
  forall (c : nat) (k : Z) (w : BitStreamWriter.t),
    wfw w -> BitStreamWriter._bit_pos w = 0 -> 0 <= k -> (c <= fuel)%nat ->
    exists w',
      BitStreamWriter.write_loop fuel value (k + 8 * Z.of_nat c) k w
        = Some (Return tt w') /\
      wfw w' /\ BitStreamWriter._bit_pos w' = 0 /\
      BitStreamWriter._buffer_size w' = BitStreamWriter._buffer_size w /\
      complete w' = complete w ++ BitStreamWriter.le_bytes_of (Z.shiftr value k) c.
Proof.
  induction fuel as [| fuel IH]; intros c k w Hwf Hbit Hk Hfuel.
  - assert (c = 0%nat) by lia. subst c. exists w.
    rewrite writer_loop_done by lia. simpl. rewrite app_nil_r.
    repeat split; try apply Hwf; assumption.
  - destruct c as [| c].
    { exists w. rewrite writer_loop_done by lia. simpl. rewrite app_nil_r.
      repeat split; try apply Hwf; assumption. }
    rewrite writer_loop_step by lia.
    destruct (writer_body_step value (k + 8 * Z.of_nat (S c)) k w Hwf ltac:(lia))
      as (b0 & w1 & _ & Hbody & Hwf1 & Hsize1 & _ & Hbit1 & Hcomplete1).
    cbv zeta in Hbody, Hbit1, Hcomplete1. rewrite Hbit in *.
    replace (Z.min (k + 8 * Z.of_nat (S c) - k) (8 - 0)) with 8 in * by lia.
    simpl in Hbit1, Hcomplete1. rewrite stored_whole_byte in Hcomplete1 by lia.
    rewrite Hbody.
    replace (k + 8 * Z.of_nat (S c)) with (k + 8 + 8 * Z.of_nat c) by lia.
    destruct (IH c (k + 8) w1 Hwf1 Hbit1 ltac:(lia) ltac:(lia))
      as (w' & Hrun & Hwf' & Hbit' & Hsize' & Hcomplete').
    exists w'. split; [exact Hrun |]. split; [exact Hwf' |].
    split; [exact Hbit' |]. split; [lia |].
    rewrite Hcomplete', Hcomplete1, <- app_assoc. simpl.
    rewrite Z.shiftr_shiftr by lia. reflexivity.
Qed.

Lemma writer_write_bits_loop (w : BitStreamWriter.t) (value n : Z) :
  wfw w -> 1 <= n <= 64 ->
  BitStreamWriter.write_bits w value n
  = BitStreamWriter.write_loop (Z.to_nat n) value n 0 w.
Proof.
  intros (Hy & _) Hn. unfold BitStreamWriter.write_bits.
  replace ((n <=? 0) || (n >? 64)) with false by lia.
  replace (BitStreamWriter._byte_pos w >=? BitStreamWriter._buffer_size w)
    with false by lia.
  reflexivity.
Qed.

Lemma writer_write_bits_spec (w : BitStreamWriter.t) (value n : Z) :
  wfw w -> 1 <= n <= 64 ->
  exists w' more,
    BitStreamWriter.write_bits w value n = Some (Return tt w') /\
    wfw w' /\
    BitStreamWriter._buffer_size w' = BitStreamWriter._buffer_size w /\
    taken w' = taken w + n /\
    complete w' = complete w ++ more.
Proof.
  intros Hwf Hn. rewrite writer_write_bits_loop by assumption.
  destruct (writer_loop_spec value n (Z.to_nat n) 0 w Hwf ltac:(lia) ltac:(lia))
    as (w' & more & Hrun & Hwf' & Hsize & Htaken & Hcomplete).
  exists w', more. rewrite Z.sub_0_r in Htaken.
  split; [exact Hrun |]. split; [exact Hwf' |]. repeat split; assumption.
Qed.

Lemma writer_write_bits_u128_spec (w : BitStreamWriter.t) (value n : Z) :
  wfw w -> 1 <= n <= 128 ->
  exists w' more,
    BitStreamWriter.write_bits_u128 w value n = Some (Return tt w') /\
    wfw w' /\
    BitStreamWriter._buffer_size w' = BitStreamWriter._buffer_size w /\
    taken w' = taken w + n /\
    complete w' = complete w ++ more.
Proof.
  intros Hwf Hn. unfold BitStreamWriter.write_bits_u128.
  replace ((n <=? 0) || (n >? 128)) with false by lia.
  destruct (Z.leb_spec n 64) as [Hsmall | Hwide].
  - apply writer_write_bits_spec; [exact Hwf | lia].
  - destruct (writer_write_bits_spec w (Z.land value (Z.shiftl 1 64 - 1)) 64 Hwf
                ltac:(lia))
      as (w1 & more1 & Hrun1 & Hwf1 & Hsize1 & Htaken1 & Hcomplete1).
    destruct (writer_write_bits_spec w1 (Z.shiftr value 64) (n - 64) Hwf1 ltac:(lia))
      as (w2 & more2 & Hrun2 & Hwf2 & Hsize2 & Htaken2 & Hcomplete2).
    rewrite Hrun1. exists w2, (more1 ++ more2).
    split; [exact Hrun2 |]. split; [exact Hwf2 |].
    split; [lia |]. split; [lia |].
    rewrite Hcomplete2, Hcomplete1, <- app_assoc. reflexivity.
Qed.

(** X15: on a writer made with a positive buffer size, between calls,
    [write_bits_u128(value, n)] with [n] in 1..128 (which is [write_bits]
    for [n] up to 64) returns for every integer [value]: the writer stays
    well-formed with its buffer size, exactly [n] more bits are taken,
    and the bytes that were complete, delivered or still buffered, stay
    as they were: complete bytes are only added. *)
Theorem writer_takes_exactly_n_bits (w : BitStreamWriter.t) (value n : Z) :
  BitStreamWriter.well_formed w -> 1 <= n <= 128 ->
  exists w' more,
    BitStreamWriter.write_bits_u128 w value n = Some (Return tt w') /\
    (n <= 64 -> BitStreamWriter.write_bits w value n = Some (Return tt w')) /\
    BitStreamWriter.well_formed w' /\
    BitStreamWriter._buffer_size w' = BitStreamWriter._buffer_size w /\
    BitStreamWriter.bits_taken w' = BitStreamWriter.bits_taken w + n /\
    BitStreamWriter.complete_bytes w' = BitStreamWriter.complete_bytes w ++ more.
Proof.
  intros Hwf Hn.
  destruct (writer_write_bits_u128_spec w value n Hwf Hn)
    as (w' & more & Hrun & Hwf' & Hsize & Htaken & Hcomplete).
  exists w', more. split; [exact Hrun |]. split.
  - intros Hsmall. rewrite <- Hrun. unfold BitStreamWriter.write_bits_u128.
    replace ((n <=? 0) || (n >? 128)) with false by lia.
    replace (n <=? 64) with true by lia. reflexivity.
  - split; [exact Hwf' |]. repeat split; assumption.
Qed.

(** X15 on a fresh writer with a two-byte buffer: 100 bits of -1. *)
Lemma writer_takes_exactly_n_bits_witness :
  let w := BitStreamWriter.init [] 2 in
  exists w' more,
    BitStreamWriter.write_bits_u128 w (-1) 100 = Some (Return tt w') /\
    (100 <= 64 -> BitStreamWriter.write_bits w (-1) 100 = Some (Return tt w')) /\
    BitStreamWriter.well_formed w' /\
    BitStreamWriter._buffer_size w' = BitStreamWriter._buffer_size w /\
    BitStreamWriter.bits_taken w' = BitStreamWriter.bits_taken w + 100 /\
    BitStreamWriter.complete_bytes w' = BitStreamWriter.complete_bytes w ++ more.
Proof.
  intros w. apply (writer_takes_exactly_n_bits w (-1) 100).
  - apply writer_init_well_formed. lia.
  - lia.
Defined.

Lemma writer_flush_spec (w : BitStreamWriter.t) :
  wfw w ->
  let started := if BitStreamWriter._bit_pos w >? 0 then 1 else 0 in
  exists w',
    BitStreamWriter.flush w = Return tt w' /\
    wfw w' /\
    BitStreamWriter._byte_pos w' = 0 /\ BitStreamWriter._bit_pos w' = 0 /\
    BitStreamWriter._buffer_size w' = BitStreamWriter._buffer_size w /\
    BitStreamWriter._stream w'
      = BitStreamWriter._stream w
        ++ take (Z.to_nat (BitStreamWriter._byte_pos w + started))
                (BitStreamWriter._buffer w).
Proof.
  intros (Hy & Hb & Hlen) started. unfold BitStreamWriter.flush.
  destruct (Z.gtb_spec (BitStreamWriter._bit_pos w) 0) as [Hpart | Hnone].
  - destruct (writer_flush_buffer
                (BitStreamWriter.with_cursor w (BitStreamWriter._byte_pos w + 1) 0))
      as (w' & Hflush & Hsink & Hbp & Hbit & Hsize & Hlen');
      [simpl; lia | simpl; lia | simpl; lia |].
    exists w'. simpl in *. split; [exact Hflush |].
    split; [unfold BitStreamWriter.well_formed; rewrite Hbp, Hbit, Hsize, Hlen'; lia |].
    repeat split; assumption.
  - destruct (writer_flush_buffer w) as (w' & Hflush & Hsink & Hbp & Hbit & Hsize & Hlen');
      [lia | lia | lia |].
    exists w'. split; [exact Hflush |].
    split; [unfold BitStreamWriter.well_formed; rewrite Hbp, Hbit, Hsize, Hlen'; lia |].
    unfold started. rewrite Z.add_0_r. repeat split; try assumption. lia.
Qed.

(** X16: [flush()] on such a writer returns and delivers every byte
    begun: the sink gets the complete bytes of the buffer and the byte
    under way, if any bit of it was written; afterwards the sink holds
    ceil(bits taken / 8) bytes and the cursor is at the start of the
    buffer. *)
Theorem writer_flush_delivers_all (w : BitStreamWriter.t) :
  BitStreamWriter.well_formed w ->
  exists w',
    BitStreamWriter.flush w = Return tt w' /\
    BitStreamWriter.well_formed w' /\
    BitStreamWriter._byte_pos w' = 0 /\ BitStreamWriter._bit_pos w' = 0 /\
    BitStreamWriter._stream w'
      = BitStreamWriter._stream w
        ++ take (Z.to_nat (BitStreamWriter._byte_pos w
                           + (if BitStreamWriter._bit_pos w >? 0 then 1 else 0)))
                (BitStreamWriter._buffer w) /\
    Z.of_nat (length (BitStreamWriter._stream w'))
      = (BitStreamWriter.bits_taken w + 7) / 8.
Proof.
  intros Hwf. pose proof Hwf as (Hy & Hb & Hlen).
  destruct (writer_flush_spec w Hwf) as (w' & Hflush & Hwf' & Hbp & Hbit & _ & Hsink).
  cbv zeta in Hsink.
  exists w'. split; [exact Hflush |]. split; [exact Hwf' |].
  split; [exact Hbp |]. split; [exact Hbit |]. split; [exact Hsink |].
  rewrite Hsink, length_app, length_take. unfold BitStreamWriter.bits_taken.
  destruct (Z.gtb_spec (BitStreamWriter._bit_pos w) 0);
    Z.div_mod_to_equations; lia.
Qed.

(** X16 on a writer that holds eleven bits. *)
Lemma writer_flush_delivers_all_witness :
  let w := BitStreamWriter.mk [] [255; 224; 0; 0] 1 3 4 in
  exists w',
    BitStreamWriter.flush w = Return tt w' /\
    BitStreamWriter.well_formed w' /\
    BitStreamWriter._byte_pos w' = 0 /\ BitStreamWriter._bit_pos w' = 0 /\
    BitStreamWriter._stream w'
      = BitStreamWriter._stream w
        ++ take (Z.to_nat (BitStreamWriter._byte_pos w
                           + (if BitStreamWriter._bit_pos w >? 0 then 1 else 0)))
                (BitStreamWriter._buffer w) /\
    Z.of_nat (length (BitStreamWriter._stream w'))
      = (BitStreamWriter.bits_taken w + 7) / 8.
Proof.
  intros w. apply (writer_flush_delivers_all w).
  unfold BitStreamWriter.well_formed. simpl. lia.
Defined.

(** *** Whole bytes *)

Lemma le_bytes_of_ext (c : nat) :
  forall u v : Z,
    (forall j, 0 <= j < 8 * Z.of_nat c -> Z.testbit u j = Z.testbit v j) ->
    BitStreamWriter.le_bytes_of u c = BitStreamWriter.le_bytes_of v c.
Proof.
  induction c as [| c IH]; intros u v Hsame; [reflexivity |].
  simpl. f_equal.
  - apply Z.bits_inj'. intros j Hj. rewrite !Z.land_spec, byte_mask_testbit by lia.
    destruct (Z.ltb_spec j 8); [| rewrite !andb_false_r; reflexivity].
    rewrite Hsame by lia. reflexivity.
  - apply IH. intros j Hj. rewrite !Z.shiftr_spec by lia. apply Hsame. lia.
Qed.

Lemma le_bytes_of_app (a b : nat) :
  forall v : Z,
    BitStreamWriter.le_bytes_of v (a + b)
    = BitStreamWriter.le_bytes_of v a
      ++ BitStreamWriter.le_bytes_of (Z.shiftr v (8 * Z.of_nat a)) b.
Proof.
  induction a as [| a IH]; intros v.
  - simpl. rewrite Z.shiftr_0_r. reflexivity.
  - simpl BitStreamWriter.le_bytes_of. simpl app. rewrite IH. do 3 f_equal.
    rewrite Z.shiftr_shiftr by lia. f_equal. lia.
Qed.

Lemma length_le_bytes_of (c : nat) :
  forall v : Z, length (BitStreamWriter.le_bytes_of v c) = c.
Proof.
  induction c as [| c IH]; intros v; simpl; [reflexivity |]. rewrite IH. reflexivity.
Qed.

(** [write_bits_u128] of a whole number of bytes from a byte boundary. *)
Lemma writer_write_whole_bytes (w : BitStreamWriter.t) (value n : Z) :
  wfw w -> BitStreamWriter._bit_pos w = 0 -> 1 <= n <= 128 -> n mod 8 = 0 ->
  exists w',
    BitStreamWriter.write_bits_u128 w value n = Some (Return tt w') /\
    wfw w' /\ BitStreamWriter._bit_pos w' = 0 /\
    BitStreamWriter._buffer_size w' = BitStreamWriter._buffer_size w /\
    complete w' = complete w ++ BitStreamWriter.le_bytes value n.
Proof.
  intros Hwf Hbit Hn Hwhole.
  assert (Hcall : forall (w0 : BitStreamWriter.t) (v m : Z),
             wfw w0 -> BitStreamWriter._bit_pos w0 = 0 -> 1 <= m <= 64 -> m mod 8 = 0 ->
             exists w',
               BitStreamWriter.write_bits w0 v m = Some (Return tt w') /\
               wfw w' /\ BitStreamWriter._bit_pos w' = 0 /\
               BitStreamWriter._buffer_size w' = BitStreamWriter._buffer_size w0 /\
               complete w' = complete w0 ++ BitStreamWriter.le_bytes_of v (Z.to_nat (m / 8))).
  { intros w0 v m Hwf0 Hbit0 Hm Hwhole0.
    rewrite writer_write_bits_loop by assumption.
    destruct (writer_loop_whole_bytes v (Z.to_nat m) (Z.to_nat (m / 8)) 0 w0 Hwf0 Hbit0
                ltac:(lia) ltac:(Z.div_mod_to_equations; lia))
      as (w' & Hrun & Hrest).
    replace (0 + 8 * Z.of_nat (Z.to_nat (m / 8))) with m in Hrun
      by (Z.div_mod_to_equations; lia).
    rewrite Z.shiftr_0_r in Hrest. exists w'. split; [exact Hrun | exact Hrest]. }
  unfold BitStreamWriter.write_bits_u128, BitStreamWriter.le_bytes.
  replace ((n <=? 0) || (n >? 128)) with false by lia.
  destruct (Z.leb_spec n 64) as [Hsmall | Hwide].
  - apply Hcall; try assumption. lia.
  - destruct (Hcall w (Z.land value (Z.shiftl 1 64 - 1)) 64 Hwf Hbit ltac:(lia) eq_refl)
      as (w1 & Hrun1 & Hwf1 & Hbit1 & Hsize1 & Hcomplete1).
    destruct (Hcall w1 (Z.shiftr value 64) (n - 64) Hwf1 Hbit1 ltac:(lia)
                ltac:(Z.div_mod_to_equations; lia))
      as (w2 & Hrun2 & Hwf2 & Hbit2 & Hsize2 & Hcomplete2).
    rewrite Hrun1. exists w2. split; [exact Hrun2 |]. split; [exact Hwf2 |].
    split; [exact Hbit2 |]. split; [lia |].
    rewrite Hcomplete2, Hcomplete1, <- app_assoc. f_equal.
    replace (Z.to_nat (n / 8)) with (Z.to_nat (64 / 8) + Z.to_nat ((n - 64) / 8))%nat
      by (change (64 / 8) with 8; Z.div_mod_to_equations; lia).
    rewrite le_bytes_of_app. f_equal.
    apply le_bytes_of_ext. intros j Hj.
    rewrite Z.land_spec, ones_testbit by lia.
    replace (j <? 64) with true by (change (64 / 8) with 8 in Hj; lia).
    apply andb_true_r.
Qed.

(** X17: on a writer made with a positive buffer size, between calls, a
    write of a whole number of bytes from a byte boundary adds
    the bytes of the value to the complete bytes, least significant byte
    first, for every integer value (of a negative one the two's
    complement) and every width 8, 16, ..., 128, whatever the buffer
    held before; the writer is at a byte boundary again. *)
Theorem writer_whole_bytes_little_endian (w : BitStreamWriter.t) (value n : Z) :
  BitStreamWriter.well_formed w -> BitStreamWriter._bit_pos w = 0 ->
  1 <= n <= 128 -> n mod 8 = 0 ->
  exists w',
    BitStreamWriter.write_bits_u128 w value n = Some (Return tt w') /\
    BitStreamWriter.well_formed w' /\ BitStreamWriter._bit_pos w' = 0 /\
    BitStreamWriter.complete_bytes w'
      = BitStreamWriter.complete_bytes w ++ BitStreamWriter.le_bytes value n.
Proof.
  intros Hwf Hbit Hn Hwhole.
  destruct (writer_write_whole_bytes w value n Hwf Hbit Hn Hwhole)
    as (w' & Hrun & Hwf' & Hbit' & _ & Hcomplete).
  exists w'. split; [exact Hrun |]. split; [exact Hwf' |]. split; assumption.
Qed.

(** X17 on a writer whose buffer holds stale bytes: 24 bits of 0x123456. *)
Lemma writer_whole_bytes_little_endian_witness :
  let w := BitStreamWriter.mk [7] [0; 255; 255] 0 0 3 in
  exists w',
    BitStreamWriter.write_bits_u128 w 1193046 24 = Some (Return tt w') /\
    BitStreamWriter.well_formed w' /\ BitStreamWriter._bit_pos w' = 0 /\
    BitStreamWriter.complete_bytes w'
      = BitStreamWriter.complete_bytes w ++ BitStreamWriter.le_bytes 1193046 24.
Proof.
  intros w. apply (writer_whole_bytes_little_endian w 1193046 24).
  - unfold BitStreamWriter.well_formed. simpl. lia.
  - reflexivity.
  - lia.
  - reflexivity.
Defined.

End WriterCalls.

(** ** Writer and reader together, on whole bytes *)

Section WholeBytes.

Local Abbreviation whole := (fun item : Z * Z => 1 <= snd item <= 128 /\ snd item mod 8 = 0).
Local Abbreviation serial :=
  (fun items : list (Z * Z) =>
     concat (map (fun item => BitStreamWriter.le_bytes (fst item) (snd item)) items)).

Lemma le_value_le_bytes_testbit (c : nat) :
  forall (v : Z) (rest : list Z) (j : Z),
    0 <= j ->
    Z.testbit (le_value (BitStreamWriter.le_bytes_of v c ++ rest)) j
    = if j <? 8 * Z.of_nat c then Z.testbit v j
      else Z.testbit (le_value rest) (j - 8 * Z.of_nat c).
Proof.
  induction c as [| c IH]; intros v rest j Hj.
  - simpl BitStreamWriter.le_bytes_of. simpl app.
    change (Z.of_nat 0) with 0. rewrite Z.mul_0_r, Z.sub_0_r.
    destruct (Z.ltb_spec j 0); [lia | reflexivity].
  - simpl BitStreamWriter.le_bytes_of. simpl app.
    rewrite le_value_testbit_cons by lia.
    destruct (Z.ltb_spec j 8) as [Hlow | Hhigh].
    + destruct (Z.ltb_spec j (8 * Z.of_nat (S c))); [| lia].
      rewrite Z.land_spec, byte_mask_testbit by lia.
      replace (j <? 8) with true by lia. apply andb_true_r.
    + rewrite IH, Z.shiftr_spec by lia.
      replace (j - 8 + 8) with j by lia.
      replace (j - 8 - 8 * Z.of_nat c) with (j - 8 * Z.of_nat (S c)) by lia.
      destruct (Z.ltb_spec (j - 8) (8 * Z.of_nat c)),
               (Z.ltb_spec j (8 * Z.of_nat (S c))); try lia; reflexivity.
Qed.

(** The first [n] bits of the bytes of a value are the value's, and
    after them come the bytes that follow. *)
Lemma le_value_le_bytes (v n : Z) (rest : list Z) :
  0 <= n -> n mod 8 = 0 ->
  le_value (BitStreamWriter.le_bytes v n ++ rest) mod 2 ^ n = v mod 2 ^ n /\
  Z.shiftr (le_value (BitStreamWriter.le_bytes v n ++ rest)) n = le_value rest.
Proof.
  intros Hn Hwhole. unfold BitStreamWriter.le_bytes.
  assert (Hcount : 8 * Z.of_nat (Z.to_nat (n / 8)) = n)
    by (Z.div_mod_to_equations; lia).
  split; apply Z.bits_inj'; intros j Hj.
  - rewrite !Z.testbit_mod_pow2, le_value_le_bytes_testbit, Hcount by lia.
    destruct (j <? n); reflexivity.
  - rewrite Z.shiftr_spec, le_value_le_bytes_testbit, Hcount by lia.
    replace (j + n <? n) with false by lia. f_equal. lia.
Qed.

Lemma writer_write_all_whole_bytes (items : list (Z * Z)) :
  forall w : BitStreamWriter.t,
    BitStreamWriter.well_formed w -> BitStreamWriter._bit_pos w = 0 ->
    Forall whole items ->
    exists w',
      BitStreamWriter.write_all w items = Some (Return tt w') /\
      BitStreamWriter.well_formed w' /\ BitStreamWriter._bit_pos w' = 0 /\
      BitStreamWriter.complete_bytes w'
        = BitStreamWriter.complete_bytes w ++ serial items.
Proof.
  induction items as [| [v n] items IH]; intros w Hwf Hbit Hall.
  - exists w. simpl. rewrite app_nil_r. repeat split; try apply Hwf; assumption.
  - apply Forall_cons in Hall as ((Hn & Hwhole) & Hall). simpl in Hn, Hwhole.
    destruct (writer_write_whole_bytes w v n Hwf Hbit Hn Hwhole)
      as (w1 & Hrun1 & Hwf1 & Hbit1 & _ & Hcomplete1).
    destruct (IH w1 Hwf1 Hbit1 Hall) as (w' & Hrun & Hwf' & Hbit' & Hcomplete).
    exists w'. simpl. rewrite Hrun1.
    split; [exact Hrun |]. split; [exact Hwf' |]. split; [exact Hbit' |].
    rewrite Hcomplete, Hcomplete1, <- app_assoc. reflexivity.
Qed.

Lemma writer_delivers_whole_bytes (buffer_size : Z) (items : list (Z * Z)) :
  0 < buffer_size -> Forall whole items ->
  exists w w',
    BitStreamWriter.write_all (BitStreamWriter.init [] buffer_size) items
      = Some (Return tt w) /\
    BitStreamWriter.flush w = Return tt w' /\
    BitStreamWriter._stream w' = serial items.
Proof.
  intros Hsize Hall.
  destruct (writer_write_all_whole_bytes items (BitStreamWriter.init [] buffer_size)
              (writer_init_well_formed [] buffer_size Hsize) eq_refl Hall)
    as (w & Hrun & Hwf & Hbit & Hcomplete).
  destruct (writer_flush_spec w Hwf) as (w' & Hflush & _ & _ & _ & _ & Hsink).
  cbv zeta in Hsink. rewrite Hbit in Hsink. simpl in Hsink. rewrite Z.add_0_r in Hsink.
  exists w, w'. split; [exact Hrun |]. split; [exact Hflush |].
  rewrite Hsink. exact Hcomplete.
Qed.

Lemma reader_read_all_whole_bytes (items : list (Z * Z)) :
  forall (r : BitStreamReader.t) (rest : list Z),
    BitStreamReader.well_formed r ->
    BitStreamReader.unread_value r = le_value (serial items ++ rest) ->
    8 * Z.of_nat (length (serial items)) <= BitStreamReader.available_bits r ->
    Forall whole items ->
    exists r',
      BitStreamReader.read_all r (map snd items)
        = Some (Return (map (fun item => fst item mod 2 ^ snd item) items) r') /\
      BitStreamReader.unread_value r' = le_value rest.
Proof.
  induction items as [| [v n] items IH]; intros r rest Hwf Hunread Havail Hall.
  - exists r. split; [reflexivity | exact Hunread].
  - apply Forall_cons in Hall as ((Hn & Hwhole) & Hall). simpl in Hn, Hwhole.
    simpl in Hunread, Havail. rewrite <- app_assoc in Hunread.
    rewrite length_app in Havail.
    replace (length (BitStreamWriter.le_bytes v n)) with (Z.to_nat (n / 8)) in Havail
      by (symmetry; apply length_le_bytes_of).
    assert (Hcount : 8 * Z.of_nat (Z.to_nat (n / 8)) = n)
      by (Z.div_mod_to_equations; lia).
    destruct (le_value_le_bytes v n (serial items ++ rest) ltac:(lia) Hwhole)
      as (Hlow & Hhigh).
    destruct (reader_read_bits_u128_value r n Hwf Hn ltac:(lia))
      as (r1 & Hcall & Hwf1 & Hrest1 & Havail1).
    rewrite Hunread, Hlow in Hcall. rewrite Hunread, Hhigh in Hrest1.
    destruct (IH r1 rest Hwf1 Hrest1 ltac:(lia) Hall) as (r' & Hrun & Hrest').
    exists r'. simpl. rewrite Hcall, Hrun. split; [reflexivity | exact Hrest'].
Qed.

Lemma reader_init_unread (f : BytesIO.t) (buffer_size : Z) :
  BitStreamReader.unread_value (BitStreamReader.init f buffer_size)
  = le_value (drop (Z.to_nat (BytesIO.pos f)) (BytesIO.content f)).
Proof.
  unfold BitStreamReader.unread_value, BitStreamReader.pending. reflexivity.
Qed.

(** X18: writes of whole bytes serialise little-endian. Through a writer
    with any positive buffer size, [write_bits_u128] calls whose widths
    are multiples of 8, followed by [flush()], deliver to the sink the
    bytes of each value in turn, least significant byte first, and
    nothing else. *)
Theorem whole_bytes_are_written_little_endian (buffer_size : Z) (items : list (Z * Z)) :
  0 < buffer_size ->
  Forall (fun item => 1 <= snd item <= 128 /\ snd item mod 8 = 0) items ->
  written_bytes buffer_size items
  = Some (concat (map (fun item => BitStreamWriter.le_bytes (fst item) (snd item)) items)).
Proof.
  intros Hsize Hall.
  destruct (writer_delivers_whole_bytes buffer_size items Hsize Hall)
    as (w & w' & Hrun & Hflush & Hsink).
  unfold written_bytes. rewrite Hrun, Hflush, Hsink. reflexivity.
Qed.

(** X18 with a two-byte buffer: 0x1234 on 16 bits, -2 on 24 bits. *)
Lemma whole_bytes_are_written_little_endian_witness :
  written_bytes 2 [(4660, 16); (-2, 24)]
  = Some (concat (map (fun item => BitStreamWriter.le_bytes (fst item) (snd item))
                      [(4660, 16); (-2, 24)])).
Proof.
  apply (whole_bytes_are_written_little_endian 2 [(4660, 16); (-2, 24)]).
  - lia.
  - repeat constructor; simpl; lia.
Defined.

(** X19: values of whole bytes survive the trip through a file. What
    [write_bits_u128] calls with widths that are multiples of 8 and a
    [flush()] deliver, a reader over those bytes with the same buffer
    size gives back with [read_bits_u128] calls of the same widths: each
    value modulo 2^width, in order, for any positive buffer size. *)
Theorem whole_bytes_round_trip (buffer_size : Z) (items : list (Z * Z)) :
  0 < buffer_size ->
  Forall (fun item => 1 <= snd item <= 128 /\ snd item mod 8 = 0) items ->
  write_then_read buffer_size items
  = Some (map (fun item => fst item mod 2 ^ snd item) items).
Proof.
  intros Hsize Hall.
  destruct (writer_delivers_whole_bytes buffer_size items Hsize Hall)
    as (w & w' & Hrun & Hflush & Hsink).
  unfold write_then_read. rewrite Hrun, Hflush, Hsink.
  destruct (reader_read_all_whole_bytes items
              (BitStreamReader.init (BytesIO.mk (serial items) 0) buffer_size) [])
    as (r' & Hread & _).
  - apply reader_init_well_formed; simpl; lia.
  - rewrite reader_init_unread, app_nil_r. reflexivity.
  - unfold BitStreamReader.available_bits, BitStreamReader.buffered_bits,
      BytesIO.remaining. simpl. change (Z.to_nat 0) with 0%nat.
    rewrite drop_0. lia.
  - exact Hall.
  - rewrite Hread. reflexivity.
Qed.

(** X19 with a three-byte buffer: 0x1234 on 16 bits, -2 on 24 bits, a
    72-bit value. *)
Lemma whole_bytes_round_trip_witness :
  write_then_read 3 [(4660, 16); (-2, 24); (2 ^ 71 + 5, 72)]
  = Some (map (fun item => fst item mod 2 ^ snd item)
              [(4660, 16); (-2, 24); (2 ^ 71 + 5, 72)]).
Proof.
  apply (whole_bytes_round_trip 3 [(4660, 16); (-2, 24); (2 ^ 71 + 5, 72)]).
  - lia.
  - repeat constructor; simpl; lia.
Defined.

(** Reading the low [n] bits of a value that fits [n] bits with the
    value's own signedness gives the value back. *)
Lemma signed_reading_back (value n : Z) :
  1 <= n -> - 2 ^ (n - 1) <= value < 2 ^ n ->
  (if (value <? 0) && Z.testbit (value mod 2 ^ n) (n - 1)
   then value mod 2 ^ n - 2 ^ n else value mod 2 ^ n) = value.
Proof.
  intros Hn Hv.
  assert (Hpow : 0 < 2 ^ (n - 1)) by (apply Z.pow_pos_nonneg; lia).
  assert (Hdouble : 2 ^ n = 2 * 2 ^ (n - 1)).
  { replace n with (Z.succ (n - 1)) at 1 by lia. apply Z.pow_succ_r. lia. }
  destruct (Z.ltb_spec value 0) as [Hneg | Hpos].
  - assert (Hmod : value mod 2 ^ n = value + 2 ^ n).
    { symmetry. apply (Z.mod_unique value (2 ^ n) (-1)); lia. }
    rewrite Hmod, top_bit_set by lia. simpl. lia.
  - simpl. apply Z.mod_small. lia.
Qed.

(** X20: a BitValue of whole bytes survives the trip through a file. A
    valid BitValue whose width is a multiple of 8, written with
    [BitStreamWriter.write_bit_value] and flushed, is returned by
    [BitStreamReader.read_bit_value] over the bytes delivered, called
    with the value's own width and signedness: same value, same width,
    same tag, for any positive buffer size. *)
Theorem bit_value_whole_bytes_round_trip
        (buffer_size value n : Z) (bv : BitValue.t) :
  0 < buffer_size -> BitValue.init value (Some n) = inr bv -> n mod 8 = 0 ->
  exists w1 w2 r',
    BitStreamWriter.write_bit_value (BitStreamWriter.init [] buffer_size) bv None
      = Some (Return tt w1) /\
    BitStreamWriter.flush w1 = Return tt w2 /\
    BitStreamReader.read_bit_value
      (BitStreamReader.init (BytesIO.mk (BitStreamWriter._stream w2) 0) buffer_size)
      (BitValue.bit_count bv) (BitValue.is_signed bv)
    = Some (Return bv r').
Proof.
  intros Hsize Hbv Hwhole.
  apply bit_value_init_inr in Hbv as (Hn & Hv & ->).
  unfold BitValue.bit_count, BitValue.is_signed. simpl.
  destruct (writer_write_whole_bytes (BitStreamWriter.init [] buffer_size) value n
              (writer_init_well_formed [] buffer_size Hsize) eq_refl Hn Hwhole)
    as (w1 & Hrun & Hwf1 & Hbit1 & _ & Hcomplete).
  destruct (writer_flush_spec w1 Hwf1) as (w2 & Hflush & _ & _ & _ & _ & Hsink).
  cbv zeta in Hsink. rewrite Hbit1 in Hsink. simpl in Hsink. rewrite Z.add_0_r in Hsink.
  change (BitStreamWriter._stream w1
          ++ take (Z.to_nat (BitStreamWriter._byte_pos w1)) (BitStreamWriter._buffer w1))
    with (BitStreamWriter.complete_bytes w1) in Hsink.
  rewrite Hcomplete in Hsink. simpl in Hsink.
  exists w1, w2.
  assert (Hwrite : BitStreamWriter.write_bit_value (BitStreamWriter.init [] buffer_size)
                     (BitValue.mk value n (value <? 0)) None = Some (Return tt w1)).
  { rewrite <- Hrun. unfold BitStreamWriter.write_bit_value, BitValue.bit_count,
      BitValue.to_int. simpl.
    destruct (Z.leb_spec n 64) as [Hsmall | Hwide]; [| reflexivity].
    unfold BitStreamWriter.write_bits_u128.
    replace ((n <=? 0) || (n >? 128)) with false by lia.
    replace (n <=? 64) with true by lia. reflexivity. }
  rewrite Hsink.
  set (r := BitStreamReader.init (BytesIO.mk (BitStreamWriter.le_bytes value n) 0)
                                 buffer_size).
  assert (Hwf : BitStreamReader.well_formed r)
    by (apply reader_init_well_formed; simpl; lia).
  assert (Hunread : BitStreamReader.unread_value r
                    = le_value (BitStreamWriter.le_bytes value n ++ []))
    by (unfold r; rewrite reader_init_unread, app_nil_r; reflexivity).
  assert (Havail : BitStreamReader.available_bits r = n).
  { unfold r, BitStreamReader.available_bits, BitStreamReader.buffered_bits,
      BytesIO.remaining. simpl. change (Z.to_nat 0) with 0%nat. rewrite drop_0.
    unfold BitStreamWriter.le_bytes. rewrite length_le_bytes_of.
    Z.div_mod_to_equations; lia. }
  destruct (le_value_le_bytes value n [] ltac:(lia) Hwhole) as (Hlow & _).
  assert (Hraw : 0 <= value mod 2 ^ n < 2 ^ n)
    by (apply Z.mod_pos_bound, Z.pow_pos_nonneg; lia).
  pose proof (reader_as_bit_value_raw (value mod 2 ^ n) n (value <? 0)) as Htail.
  cbv zeta in Htail. rewrite signed_reading_back in Htail by lia.
  assert (Hread : exists r',
             BitStreamReader.read_bit_value r n (value <? 0)
             = Some (Return (BitValue.mk value n (value <? 0)) r')).
  { unfold BitStreamReader.read_bit_value.
    destruct (Z.leb_spec n 64) as [Hsmall | Hwide].
    - destruct (reader_read_bits_value r n Hwf ltac:(lia) ltac:(lia))
        as (r' & Hcall & _).
      rewrite Hunread, Hlow in Hcall. exists r'. rewrite Hcall, Htail by lia.
      reflexivity.
    - destruct (reader_read_bits_u128_value r n Hwf Hn ltac:(lia))
        as (r' & Hcall & _).
      rewrite Hunread, Hlow in Hcall. exists r'. rewrite Hcall, Htail by lia.
      reflexivity. }
  destruct Hread as (r' & Hread). exists r'.
  split; [exact Hwrite |]. split; [exact Hflush | exact Hread].
Qed.

(** X20 for the signed 16-bit value -300 and a one-byte buffer. *)
Lemma bit_value_whole_bytes_round_trip_witness :
  exists w1 w2 r',
    BitStreamWriter.write_bit_value (BitStreamWriter.init [] 1)
                                    (BitValue.mk (-300) 16 true) None
      = Some (Return tt w1) /\
    BitStreamWriter.flush w1 = Return tt w2 /\
    BitStreamReader.read_bit_value
      (BitStreamReader.init (BytesIO.mk (BitStreamWriter._stream w2) 0) 1)
      (BitValue.bit_count (BitValue.mk (-300) 16 true))
      (BitValue.is_signed (BitValue.mk (-300) 16 true))
    = Some (Return (BitValue.mk (-300) 16 true) r').
Proof.
  apply (bit_value_whole_bytes_round_trip 1 (-300) 16 (BitValue.mk (-300) 16 true)).
  - lia.
  - vm_compute. reflexivity.
  - reflexivity.
Defined.

End WholeBytes.
